(** * De Bruijn graph assembler (debruijn.py): shallow embedding and properties

    The Python module builds a weighted De Bruijn graph from the k-mers of a
    set of reads, simplifies it (bubbles, entry tips) and extracts contigs.
    It relies on [networkx.DiGraph]; the graph object and the library calls
    the module makes ([add_edge], [remove_node], [remove_nodes_from],
    [successors], [predecessors], [subgraph], [all_simple_paths], [has_path],
    [lowest_common_ancestor]) are modelled here by their behaviour, including
    the iteration orders of the underlying insertion-ordered dictionaries and
    the exceptions they raise.

    Conventions of the embedding:
    - a [str] is a list of characters, an [int] is in [Z] (a weight, the
      size [kmer_size] of the k-mers), the length of a list and an index
      into it are in [nat];
    - a function that only reads the graph returns a [result]; a function
      that changes the graph in place returns an [outcome], which carries the
      state of the graph also when the call raises;
    - [statistics.mean] is the exact rational mean (its conversion to a
      float when the mean is not a whole number is left out);
    - [all_simple_paths] is the one of networkx 3.2 and later, which yields
      the one-node path when the source is the target;
    - the element that a hash set of strings hands out first depends on the
      hash seed of the process: [lowest_common_ancestor] takes that choice
      as a parameter [seed]. *)

From Stdlib Require Import Ascii String.
From Stdlib Require Import List ZArith QArith Lia Lqa Bool Arith Permutation.
Import ListNotations.

Local Open Scope nat_scope.

(** ** Strings and Python slices *)

(** A Python [str] is a list of characters. *)
Definition str := list ascii.

Definition py (s : string) : str := list_ascii_of_string s.

Definition str_eq_dec : forall a b : str, {a = b} + {a <> b} :=
  list_eq_dec ascii_dec.

Definition str_eqb (a b : str) : bool :=
  if str_eq_dec a b then true else false.

Definition mem (x : str) (l : list str) : bool :=
  if in_dec str_eq_dec x l then true else false.

(** [l[start:stop]] for [0 <= start] and [0 <= stop]. *)
Definition slice {A : Type} (start stop : nat) (l : list A) : list A :=
  firstn (stop - start) (skipn start l).

(** The place in a list of [n] items that a Python index stands for in a
    slice: a negative index counts from the end, and every index is clamped
    to the list. *)
Definition slice_bound (n : nat) (i : Z) : nat :=
  if (i <? 0)%Z then Z.to_nat (Z.of_nat n + i) else Nat.min (Z.to_nat i) n.

(** [l[start:stop]] for any two ints. *)
Definition slice_int {A : Type} (start stop : Z) (l : list A) : list A :=
  slice (slice_bound (length l) start) (slice_bound (length l) stop) l.

(** [l[1:-1]]. *)
Definition interior {A : Type} (l : list A) : list A :=
  slice 1 (length l - 1) l.

(** ** Exceptions *)

Inductive exn : Type :=
| NetworkXError
| NodeNotFound
| NetworkXPointlessConcept
| StatisticsError
| RuntimeError
| TypeError
| IndexError
| ValueError.

(** Result of a call that reads the graph but does not change it. *)
Inductive result (A : Type) : Type :=
| Ok (a : A)
| Err (e : exn).
Arguments Ok {A} a.
Arguments Err {A} e.

Definition bind {A B : Type} (r : result A) (f : A -> result B) : result B :=
  match r with
  | Ok a => f a
  | Err e => Err e
  end.

Notation "x <- r ;; k" := (bind r (fun x => k))
  (at level 61, r at next level, right associativity).

Fixpoint mapM {A B : Type} (f : A -> result B) (l : list A) : result (list B) :=
  match l with
  | [] => Ok []
  | a :: l' => b <- f a ;; bs <- mapM f l' ;; Ok (b :: bs)
  end.

(** ** Reading a FASTQ file *)

(** The file is the text that [open(fastq_file, 'r')] hands out: its
    characters, every line end already translated to a line feed. *)
Definition newline : ascii := "010"%char.

(** [file.readline()]: the text up to and including the next line feed, or
    up to the end of the file, and what is left to read.  At the end of the
    file the line is the empty string. *)
Fixpoint readline (text : str) : str * str :=
  match text with
  | [] => ([], [])
  | c :: text' =>
      if ascii_dec c newline then ([c], text')
      else let (line, rest) := readline text' in (c :: line, rest)
  end.

(** The characters that [str.strip()] takes off: among the code points
    below 256, these are 9 to 13, 28 to 32, 133 and 160. *)
Definition isspace (c : ascii) : bool :=
  let n := nat_of_ascii c in
  ((9 <=? n) && (n <=? 13)) || ((28 <=? n) && (n <=? 32))
  || (n =? 133) || (n =? 160).

Fixpoint lstrip (s : str) : str :=
  match s with
  | [] => []
  | c :: s' => if isspace c then lstrip s' else s
  end.

Definition strip (s : str) : str := rev (lstrip (rev (lstrip s))).

(** The loop [while True] of [read_fastq], run for at most [fuel] turns:
    the reads it yields once it has met a blank identifier line, [None] if
    it is still running. *)
Fixpoint read_records (fuel : nat) (text : str) : option (list str) :=
  match fuel with
  | 0 => None
  | S fuel' =>
      let (identifier_line, text1) := readline text in
      match strip identifier_line with
      | [] => Some []
      | _ :: _ =>
          let (sequence_line, text2) := readline text1 in
          let (_, text3) := readline text2 in
          let (_, text4) := readline text3 in
          option_map (cons (strip sequence_line)) (read_records fuel' text4)
      end
  end.

(** [list(read_fastq(fastq_file))]: every turn of the loop reads at least
    one character, so the length of the text bounds their number. *)
Definition read_fastq (text : str) : option (list str) :=
  read_records (S (length text)) text.

(** ** K-mers *)

(** [cut_kmer]: [read[i:i+kmer_size]] for [i] in
    [range(len(read) - kmer_size + 1)], for any int [kmer_size]; the range
    is empty when its bound is not positive. *)
Definition cut_kmer (read : str) (kmer_size : Z) : list str :=
  map (fun i => slice_int (Z.of_nat i) (Z.of_nat i + kmer_size) read)
      (seq 0 (Z.to_nat (Z.of_nat (length read) - kmer_size + 1))).

(** A Python [dict] from k-mers to counts keeps its keys in insertion order:
    an association list, updated in place. *)
Definition kmer_dict := list (str * Z).

Fixpoint dict_incr (d : kmer_dict) (kmer : str) : kmer_dict :=
  match d with
  | [] => [(kmer, 1%Z)]
  | (k', c) :: d' =>
      if str_eq_dec kmer k' then (k', (c + 1)%Z) :: d'
      else (k', c) :: dict_incr d' kmer
  end.

(** [build_kmer_dict], on the reads that [read_fastq] yields. *)
Definition build_kmer_dict (reads : list str) (kmer_size : Z) : kmer_dict :=
  fold_left (fun d read => fold_left dict_incr (cut_kmer read kmer_size) d)
            reads [].

(** ** The graph object *)

Definition edge := (str * str * Z)%type.
Definition esrc (e : edge) : str := fst (fst e).
Definition edst (e : edge) : str := snd (fst e).
Definition eweight (e : edge) : Z := snd e.

(** [nodes] is the key order of [G._node]; [edges] lists the edges in the
    order they were first inserted, so that filtering it by source (target)
    gives the key order of [G._succ[u]] ([G._pred[v]]). *)
Record DiGraph : Type := { nodes : list str; edges : list edge }.

Definition empty_graph : DiGraph := {| nodes := []; edges := [] |}.

Definition has_node (g : DiGraph) (n : str) : bool := mem n (nodes g).

Definition add_node (g : DiGraph) (n : str) : DiGraph :=
  if has_node g n then g else {| nodes := nodes g ++ [n]; edges := edges g |}.

Fixpoint set_edge (es : list edge) (u v : str) (w : Z) : list edge :=
  match es with
  | [] => [(u, v, w)]
  | e :: es' =>
      if str_eqb (esrc e) u && str_eqb (edst e) v then (u, v, w) :: es'
      else e :: set_edge es' u v w
  end.

Definition add_edge (g : DiGraph) (u v : str) (w : Z) : DiGraph :=
  let g' := add_node (add_node g u) v in
  {| nodes := nodes g'; edges := set_edge (edges g') u v w |}.

Definition succs (g : DiGraph) (u : str) : list str :=
  map edst (filter (fun e => str_eqb (esrc e) u) (edges g)).

Definition preds (g : DiGraph) (v : str) : list str :=
  map esrc (filter (fun e => str_eqb (edst e) v) (edges g)).

(** [G.successors(n)] and [G.predecessors(n)] raise on an unknown node. *)
Definition successors (g : DiGraph) (n : str) : result (list str) :=
  if has_node g n then Ok (succs g n) else Err NetworkXError.

Definition predecessors (g : DiGraph) (n : str) : result (list str) :=
  if has_node g n then Ok (preds g n) else Err NetworkXError.

Definition in_degree (g : DiGraph) (n : str) : nat := length (preds g n).
Definition out_degree (g : DiGraph) (n : str) : nat := length (succs g n).

(** The node [n] and its incident edges leave the graph. *)
Definition delete_node (g : DiGraph) (n : str) : DiGraph :=
  {| nodes := filter (fun m => negb (str_eqb m n)) (nodes g);
     edges := filter (fun e => negb (str_eqb (esrc e) n)
                               && negb (str_eqb (edst e) n)) (edges g) |}.

(** Outcome of a call that mutates the graph object in place: the state of
    the object when the call ends, normally or by an exception. *)
Inductive outcome : Type :=
| Ret (g : DiGraph)
| Raise (e : exn) (g : DiGraph).

Definition state (o : outcome) : DiGraph :=
  match o with
  | Ret g => g
  | Raise _ g => g
  end.

Definition andThen (o : outcome) (k : DiGraph -> outcome) : outcome :=
  match o with
  | Ret g => k g
  | Raise e g => Raise e g
  end.

(** A read-only query inside a mutating call. *)
Definition query {A : Type} (g : DiGraph) (r : result A)
    (k : A -> outcome) : outcome :=
  match r with
  | Ok a => k a
  | Err e => Raise e g
  end.

(** [G.remove_node(n)] raises [NetworkXError] when [n] is not in the graph. *)
Definition remove_node (g : DiGraph) (n : str) : outcome :=
  if has_node g n then Ret (delete_node g n) else Raise NetworkXError g.

(** [G.remove_nodes_from(ns)] silently skips unknown nodes. *)
Definition remove_nodes_from (g : DiGraph) (ns : list str) : DiGraph :=
  fold_left delete_node ns g.

(** [build_graph]. *)
Definition build_graph (d : kmer_dict) : DiGraph :=
  fold_left (fun g kw =>
               add_edge g (removelast (fst kw)) (tl (fst kw)) (snd kw))
            d empty_graph.

(** Graphs that a [DiGraph] object can hold: distinct nodes, one edge per
    ordered pair, edges between nodes of the graph. *)
Definition ekey (e : edge) : str * str := fst e.

Record wf (g : DiGraph) : Prop := {
  wf_nodes : NoDup (nodes g);
  wf_keys : NoDup (map ekey (edges g));
  wf_ends : forall e, In e (edges g) ->
                      In (esrc e) (nodes g) /\ In (edst e) (nodes g)
}.

(** ** Simple paths *)

(** [remaining targets path]: [targets - set(path)] is not empty. *)
Definition remaining (targets path : list str) : bool :=
  existsb (fun t => negb (mem t path)) targets.

(** The depth-first search of [all_simple_paths], from the edge that enters
    [v] while [path] is the current path; [budget] is [cutoff - len(path)].
    A path is yielded when [v] is a target; the search goes on through [v]
    while the cutoff allows and a target is still out of the path. *)
Fixpoint visit (g : DiGraph) (targets : list str) (budget : nat)
    (path : list str) (v : str) : list (list str) :=
  (if mem v targets then [path ++ [v]] else []) ++
  match budget with
  | 0 => []
  | S b =>
      if remaining targets (path ++ [v])
      then flat_map (fun c => if mem c (path ++ [v]) then []
                              else visit g targets b (path ++ [v]) c)
                    (succs g v)
      else []
  end.

(** The same search as the library runs it: a loop over a stack of
    iterators.  [stack] holds, innermost first, the successors still to try
    at each node of [current_path]; the bottom iterator holds the source. *)
Record search_state : Type := SearchState {
  stack : list (list str);
  current_path : list str;
  yielded : list (list str)
}.

(** [next((e for e in stack[-1] if e[1] not in current_path), None)]: the
    iterator is consumed up to the node it returns. *)
Fixpoint next_unvisited (path : list str) (children : list str)
  : option (str * list str) :=
  match children with
  | [] => None
  | c :: cs => if mem c path then next_unvisited path cs else Some (c, cs)
  end.

(** One turn of the loop [while stack]; [None] when the stack is empty. *)
Definition search_step (g : DiGraph) (targets : list str) (cutoff : nat)
    (st : search_state) : option search_state :=
  match stack st with
  | [] => None
  | children :: below =>
      match next_unvisited (current_path st) children with
      | None =>
          Some (SearchState below (removelast (current_path st))
                            (yielded st))
      | Some (next_node, children') =>
          let path' := current_path st ++ [next_node] in
          let yielded' := if mem next_node targets
                          then yielded st ++ [path'] else yielded st in
          if (length (current_path st) <? cutoff) && remaining targets path'
          then Some (SearchState (succs g next_node :: children' :: below)
                            path' yielded')
          else Some (SearchState (children' :: below) (current_path st)
                                 yielded')
      end
  end.

(** The loop, run for at most [fuel] turns: [Some] paths once it has
    ended, [None] if it is still running. *)
Fixpoint search_loop (g : DiGraph) (targets : list str) (cutoff : nat)
    (fuel : nat) (st : search_state) : option (list (list str)) :=
  match fuel with
  | 0 => None
  | S fuel' =>
      match search_step g targets cutoff st with
      | None => Some (yielded st)
      | Some st' => search_loop g targets cutoff fuel' st'
      end
  end.

Definition search_start (source : str) : search_state :=
  SearchState [[source]] [] [].

(** The targets of a search: the node itself, or, for a string that is not a
    node, the set of its one-character strings. *)
Definition targets_of (g : DiGraph) (target : str) : list str :=
  if has_node g target then [target] else map (fun c => [c]) target.

(** [list(all_simple_paths(G, source, target))], with the default cutoff
    [len(G) - 1].  The path made of [source] alone is yielded when [source]
    is the target. *)
Definition all_simple_paths (g : DiGraph) (source target : str)
  : result (list (list str)) :=
  if has_node g source
  then Ok (visit g (targets_of g target) (length (nodes g) - 1) [] source)
  else Err NodeNotFound.

(** [u] reaches [v] by a path of zero or more edges. *)
Definition reaches (g : DiGraph) (u v : str) : bool :=
  match visit g [v] (length (nodes g) - 1) [] u with
  | [] => false
  | _ :: _ => true
  end.

(** [has_path(G, source, target)]. *)
Definition has_path (g : DiGraph) (source target : str) : result bool :=
  if has_node g source && has_node g target
  then Ok (reaches g source target)
  else Err NodeNotFound.

(** ** Average weight of a path *)

(** [G.subgraph(path).edges(data=True)]: the edges of [G] with both ends in
    [path].  The order in which the view lists them depends on the iteration
    order of a set; the mean below does not depend on it. *)
Definition subgraph_edges (g : DiGraph) (path : list str) : list edge :=
  filter (fun e => mem (esrc e) path && mem (edst e) path) (edges g).

(** [statistics.mean] of integers; it raises [StatisticsError] on an empty
    list.  The library returns a mean that is a whole number as it is, an
    [int]; any other mean it converts to the nearest float (raising
    [OverflowError] beyond the range of a float).  That conversion is left
    out: the mean is the exact rational. *)
Definition mean (l : list Z) : result Q :=
  match l with
  | [] => Err StatisticsError
  | _ :: _ => Ok (Qmake (fold_right Z.add 0%Z l) (Pos.of_nat (length l)))
  end.

Definition path_average_weight (g : DiGraph) (path : list str) : result Q :=
  mean (map eweight (subgraph_edges g path)).

(** ** Removing paths *)

Fixpoint remove_each (g : DiGraph) (ns : list str) : outcome :=
  match ns with
  | [] => Ret g
  | n :: ns' => andThen (remove_node g n) (fun g' => remove_each g' ns')
  end.

(** [remove_paths]: a path of fewer than two nodes is skipped; the others
    lose [path[start:end]], one [remove_node] call per node. *)
Fixpoint remove_paths (g : DiGraph) (path_list : list (list str))
    (delete_entry_node delete_sink_node : bool) : outcome :=
  match path_list with
  | [] => Ret g
  | path :: rest =>
      if length path <? 2
      then remove_paths g rest delete_entry_node delete_sink_node
      else
        let start := if delete_entry_node then 0 else 1 in
        let stop := if delete_sink_node then length path else length path - 1 in
        andThen (remove_each g (slice start stop path))
                (fun g' =>
                   remove_paths g' rest delete_entry_node delete_sink_node)
  end.

(** ** Choosing a best path *)

(** Python's [max]: the first of the maximal items.  [argmax_from] scans the
    keys from index [i] on, [best_i] being the best index so far. *)
Fixpoint argmax_from {K : Type} (lt : K -> K -> bool) (best_i : nat)
    (best_k : K) (i : nat) (keys : list K) : nat :=
  match keys with
  | [] => best_i
  | k :: ks =>
      if lt best_k k then argmax_from lt i k (S i) ks
      else argmax_from lt best_i best_k (S i) ks
  end.

Definition argmax {K : Type} (lt : K -> K -> bool) (keys : list K)
  : option nat :=
  match keys with
  | [] => None
  | k :: ks => Some (argmax_from lt 0 k 1 ks)
  end.

Definition Qltb (a b : Q) : bool :=
  match Qcompare a b with
  | Lt => true
  | _ => false
  end.

(** Order of the tuples [(weight, length)]. *)
Definition key_ltb (a b : Q * Z) : bool :=
  match Qcompare (fst a) (fst b) with
  | Lt => true
  | Eq => Z.ltb (snd a) (snd b)
  | Gt => false
  end.

Definition path_eqb (p q : list str) : bool :=
  if list_eq_dec str_eq_dec p q then true else false.

(** [l.pop(i)] on a copy of [l]. *)
Definition pop_at {A : Type} (i : nat) (l : list A) : list A :=
  firstn i l ++ skipn (S i) l.

Definition item {A : Type} (l : list A) (i : nat) : result A :=
  match nth_error l i with
  | Some a => Ok a
  | None => Err IndexError
  end.

(** [select_best_path]. *)
Definition select_best_path (g : DiGraph) (path_list : list (list str))
    (path_length : list Z) (weight_avg_list : list Q)
    (delete_entry_node delete_sink_node : bool) : outcome :=
  match path_list with
  | [] => Raise ValueError g
  | _ :: _ =>
      query g (mapM (fun i => w <- item weight_avg_list i ;;
                              l <- item path_length i ;; Ok (w, l))
                    (seq 0 (length path_list)))
        (fun keys =>
           match argmax key_ltb keys with
           | None => Raise ValueError g
           | Some best_path_index =>
               remove_paths g (pop_at best_path_index path_list)
                            delete_entry_node delete_sink_node
           end)
  end.

(** ** Bubbles *)

(** The test of [solve_bubble]:
    [weight > best_weight or
     (weight == best_weight and length > best_length)]. *)
Definition better (weight : Q) (len : Z) (best_weight : Q) (best_length : Z)
  : bool :=
  match Qcompare weight best_weight with
  | Gt => true
  | Eq => Z.ltb best_length len
  | Lt => false
  end.

(** The first loop of [solve_bubble]. *)
Fixpoint best_of (g : DiGraph) (paths : list (list str))
    (best_path : option (list str)) (best_weight : Q) (best_length : Z)
  : result (option (list str)) :=
  match paths with
  | [] => Ok best_path
  | path :: rest =>
      weight <- path_average_weight g path ;;
      let len := Z.of_nat (length path) in
      if better weight len best_weight best_length
      then best_of g rest (Some path) weight len
      else best_of g rest best_path best_weight best_length
  end.

Definition is_best (best_path : option (list str)) (path : list str) : bool :=
  match best_path with
  | Some b => path_eqb path b
  | None => false
  end.

(** The second loop of [solve_bubble]. *)
Fixpoint drop_others (g : DiGraph) (paths : list (list str))
    (best_path : option (list str)) : DiGraph :=
  match paths with
  | [] => g
  | path :: rest =>
      if is_best best_path path then drop_others g rest best_path
      else drop_others (remove_nodes_from g (interior path)) rest best_path
  end.

(** [solve_bubble]. *)
Definition solve_bubble (g : DiGraph) (ancestor_node descendant_node : str)
  : outcome :=
  query g (all_simple_paths g ancestor_node descendant_node)
    (fun paths =>
       if length paths <=? 1 then Ret g
       else query g (best_of g paths None (-1)%Q (-1)%Z)
              (fun best_path => Ret (drop_others g paths best_path))).

(** ** Lowest common ancestor *)

Definition is_directed_acyclic_graph (g : DiGraph) : bool :=
  forallb (fun e => negb (reaches g (edst e) (esrc e))) (edges g).

(** The nodes that reach both [v] and [w], each counted among its own
    ancestors. *)
Definition common_ancestors (g : DiGraph) (v w : str) : list str :=
  filter (fun u => reaches g u v && reaches g u w) (nodes g).

(** From a common ancestor, go to the first successor that is a common
    ancestor too, as long as there is one. *)
Fixpoint descend (g : DiGraph) (common : list str) (fuel : nat) (c : str)
  : str :=
  match fuel with
  | 0 => c
  | S fuel' =>
      match find (fun x => mem x common) (succs g c) with
      | Some lower => descend g common fuel' lower
      | None => c
      end
  end.

Section Bubbles.

(** The library starts its descent from [next(iter(common_ancestors))], the
    first element of a hash set of strings: which one it is depends on the
    hash seed of the process; [seed] stands for it. *)
Variable seed : list str -> nat.

Definition first_of_set (s : list str) : option str :=
  nth_error s (seed s mod length s).

(** [lowest_common_ancestor(G, node1, node2, default)]. *)
Definition lowest_common_ancestor (g : DiGraph) (node1 node2 : str)
    (default : option str) : result (option str) :=
  if negb (is_directed_acyclic_graph g) then Err NetworkXError
  else if length (nodes g) =? 0 then Err NetworkXPointlessConcept
  else if negb (has_node g node1 && has_node g node2) then Err NodeNotFound
  else
    let common := common_ancestors g node1 node2 in
    match first_of_set common with
    | Some c => Ok (Some (descend g common (length (nodes g)) c))
    | None => Ok default
    end.

(** [lowest_common_ancestor(graph, *predecessors)]: the function takes two
    nodes and an optional default. *)
Definition lca_of_predecessors (g : DiGraph) (predecessors : list str)
  : result (option str) :=
  match predecessors with
  | [p1; p2] => lowest_common_ancestor g p1 p2 None
  | [p1; p2; p3] => lowest_common_ancestor g p1 p2 (Some p3)
  | _ => Err TypeError
  end.

(** The calls [solve_bubble(graph, predecessor, node)]. *)
Fixpoint solve_from_predecessors (g : DiGraph) (predecessors : list str)
    (lca node : str) : outcome :=
  match predecessors with
  | [] => Ret g
  | predecessor :: rest =>
      if str_eqb predecessor lca then solve_from_predecessors g rest lca node
      else andThen (solve_bubble g predecessor node)
                   (fun g' => solve_from_predecessors g' rest lca node)
  end.

(** The interior nodes of every path but [paths[best]]. *)
Definition losers (paths : list (list str)) (best : nat) : list str :=
  let best_path := nth best paths [] in
  flat_map (fun path => if path_eqb path best_path then [] else interior path)
           paths.

(** What one iteration of a loop leaves: the graph and the marked nodes, or
    an exception. *)
Inductive iteration : Type :=
| Next (g : DiGraph) (nodes_to_remove : list str)
| Thrown (e : exn) (g : DiGraph).

Definition asking {A : Type} (g : DiGraph) (r : result A)
    (k : A -> iteration) : iteration :=
  match r with
  | Ok a => k a
  | Err e => Thrown e g
  end.

(** The marking of the paths from [lca] to [node], common to both passes. *)
Definition mark_paths (g : DiGraph) (paths : list (list str))
    (nodes_to_remove : list str) : iteration :=
  match paths with
  | [] => Next g nodes_to_remove
  | _ :: _ =>
      asking g (mapM (path_average_weight g) paths)
        (fun weights =>
           match argmax Qltb weights with
           | Some best => Next g (nodes_to_remove ++ losers paths best)
           | None => Thrown ValueError g
           end)
  end.

(** The body of the loop of [simplify_bubbles]. *)
Definition bubble_at (g : DiGraph) (node : str) (nodes_to_remove : list str)
  : iteration :=
  asking g (predecessors g node)
    (fun ps =>
       if 1 <? length ps
       then asking g (lca_of_predecessors g ps)
              (fun lca =>
                 match lca with
                 | None => Next g nodes_to_remove
                 | Some a =>
                     match solve_from_predecessors g ps a node with
                     | Raise e g' => Thrown e g'
                     | Ret g' =>
                         asking g' (all_simple_paths g' a node)
                           (fun paths => mark_paths g' paths nodes_to_remove)
                     end
                 end)
       else Next g nodes_to_remove).

(** The loop [for node in graph.nodes()]: the iterator walks the node
    dictionary itself and raises [RuntimeError] at its next step once the
    dictionary has changed size. *)
Fixpoint bubbles_loop (size : nat) (todo : list str) (g : DiGraph)
    (nodes_to_remove : list str) : outcome :=
  if negb (length (nodes g) =? size) then Raise RuntimeError g
  else
    match todo with
    | [] => Ret (remove_nodes_from g nodes_to_remove)
    | node :: todo' =>
        match bubble_at g node nodes_to_remove with
        | Next g' marked => bubbles_loop size todo' g' marked
        | Thrown e g' => Raise e g'
        end
    end.

(** [simplify_bubbles]. *)
Definition simplify_bubbles (g : DiGraph) : outcome :=
  bubbles_loop (length (nodes g)) (nodes g) g [].

End Bubbles.

(** ** Tips *)

(** The body of the loop of [solve_entry_tips]. *)
Definition entry_tip_at (g : DiGraph) (node : str) (nodes_to_remove : list str)
  : iteration :=
  asking g (successors g node)
    (fun ss =>
       match ss with
       | [successor] =>
           asking g (predecessors g successor)
             (fun ps =>
                if 1 <? length ps
                then asking g (all_simple_paths g node successor)
                       (fun paths => mark_paths g paths nodes_to_remove)
                else Next g nodes_to_remove)
       | _ => Next g nodes_to_remove
       end).

Fixpoint entry_tips_loop (todo : list str) (g : DiGraph)
    (nodes_to_remove : list str) : outcome :=
  match todo with
  | [] => Ret (remove_nodes_from g nodes_to_remove)
  | node :: todo' =>
      match entry_tip_at g node nodes_to_remove with
      | Next g' marked => entry_tips_loop todo' g' marked
      | Thrown e g' => Raise e g'
      end
  end.

(** [solve_entry_tips]. *)
Definition solve_entry_tips (g : DiGraph) (starting_nodes : list str)
  : outcome :=
  entry_tips_loop starting_nodes g [].

(** [solve_out_tips]: its body is [pass]; the call returns [None] and
    leaves the graph as it is. *)
Definition solve_out_tips (g : DiGraph) (ending_nodes : list str)
  : option DiGraph := None.

(** ** Contigs *)

Definition get_starting_nodes (g : DiGraph) : list str :=
  filter (fun node => in_degree g node =? 0) (nodes g).

Definition get_sink_nodes (g : DiGraph) : list str :=
  filter (fun node => out_degree g node =? 0) (nodes g).

(** [node[-1]]. *)
Definition last_char (node : str) : result ascii :=
  match node with
  | [] => Err IndexError
  | c :: node' => Ok (last node' c)
  end.

(** The sequence of a path: [path[0]], then [node[-1]] for each [node] of
    [path[1:]]. *)
Fixpoint extend_contig (contig : str) (path : list str) : result str :=
  match path with
  | [] => Ok contig
  | node :: rest => c <- last_char node ;; extend_contig (contig ++ [c]) rest
  end.

Definition contig_of_path (path : list str) : result (str * nat) :=
  match path with
  | [] => Err IndexError
  | first :: rest =>
      contig <- extend_contig first rest ;; Ok (contig, length contig)
  end.

Definition contigs_between (g : DiGraph) (start stop : str)
  : result (list (str * nat)) :=
  connected <- has_path g start stop ;;
  if connected
  then paths <- all_simple_paths g start stop ;; mapM contig_of_path paths
  else Ok [].

(** [get_contigs]. *)
Definition get_contigs (g : DiGraph) (starting_nodes ending_nodes : list str)
  : result (list (str * nat)) :=
  per_start <- mapM (fun start =>
                 per_end <- mapM (contigs_between g start) ending_nodes ;;
                 Ok (concat per_end))
               starting_nodes ;;
  Ok (concat per_start).


(** ** Notions used in the statements *)

(** [g'] has no node and no weighted edge that [g] has not. *)
Definition subgraph_of (g' g : DiGraph) : Prop :=
  incl (nodes g') (nodes g) /\ incl (edges g') (edges g).

(** [g'] is what is left of [g] after some nodes were deleted, one after
    the other, each with its edges. *)
Inductive reduct : DiGraph -> DiGraph -> Prop :=
| reduct_refl (g : DiGraph) : reduct g g
| reduct_delete (g' g : DiGraph) (n : str) :
    reduct g' g -> reduct (delete_node g' n) g.

(** The graph an iteration of a loop leaves. *)
Definition graph_after (it : iteration) : DiGraph :=
  match it with
  | Next g _ => g
  | Thrown _ g => g
  end.

(** The calls a client can make on the graph object. *)
Inductive call : Type :=
| Call_simplify_bubbles (seed : list str -> nat)
| Call_solve_bubble (ancestor_node descendant_node : str)
| Call_solve_entry_tips (starting_nodes : list str)
| Call_solve_out_tips (ending_nodes : list str)
| Call_remove_paths (path_list : list (list str))
    (delete_entry_node delete_sink_node : bool)
| Call_select_best_path (path_list : list (list str)) (path_length : list Z)
    (weight_avg_list : list Q) (delete_entry_node delete_sink_node : bool).

(** The graph object after a call, whether the call returned or raised. *)
Definition after_call (g : DiGraph) (c : call) : DiGraph :=
  match c with
  | Call_simplify_bubbles seed => state (simplify_bubbles seed g)
  | Call_solve_bubble a d => state (solve_bubble g a d)
  | Call_solve_entry_tips starting_nodes =>
      state (solve_entry_tips g starting_nodes)
  | Call_solve_out_tips ending_nodes =>
      match solve_out_tips g ending_nodes with
      | Some g' => g'
      | None => g
      end
  | Call_remove_paths path_list de ds => state (remove_paths g path_list de ds)
  | Call_select_best_path path_list path_length weight_avg_list de ds =>
      state (select_best_path g path_list path_length weight_avg_list de ds)
  end.

Definition after_calls (g : DiGraph) (cs : list call) : DiGraph :=
  fold_left after_call cs g.

(** Each node of [l] is followed by one of its successors. *)
Fixpoint linked (g : DiGraph) (l : list str) : Prop :=
  match l with
  | u :: ((v :: _) as l') => In v (succs g u) /\ linked g l'
  | _ => True
  end.


(** A decision procedure for [wf]. *)
Definition key_eq_dec : forall a b : str * str, {a = b} + {a <> b}.
Proof. decide equality; apply str_eq_dec. Defined.

Fixpoint distinct {A : Type} (dec : forall x y : A, {x = y} + {x <> y})
    (l : list A) : bool :=
  match l with
  | [] => true
  | x :: l' => (if in_dec dec x l' then false else true) && distinct dec l'
  end.

Definition wfb (g : DiGraph) : bool :=
  distinct str_eq_dec (nodes g) &&
  distinct key_eq_dec (map ekey (edges g)) &&
  forallb (fun e => mem (esrc e) (nodes g) && mem (edst e) (nodes g)) (edges g).

(** The pairs of consecutive nodes of a path. *)
Fixpoint steps (path : list str) : list (str * str) :=
  match path with
  | u :: ((v :: _) as rest) => (u, v) :: steps rest
  | _ => []
  end.

(** The edge of the graph from [u] to [v], if there is one. *)
Definition find_edge (g : DiGraph) (uv : str * str) : option edge :=
  find (fun e => str_eqb (esrc e) (fst uv) && str_eqb (edst e) (snd uv))
       (edges g).

(** The edges between consecutive nodes of a path. *)
Definition step_edges (g : DiGraph) (path : list str) : list edge :=
  flat_map (fun uv => match find_edge g uv with
                      | Some e => [e]
                      | None => []
                      end)
           (steps path).

(** The average weight of a path as the specification words it: the mean of
    the weights of the edges between consecutive nodes of the path. *)
Definition mean_of_steps (g : DiGraph) (path : list str) : result Q :=
  mean (map eweight (step_edges g path)).

(** No edge joins two nodes of the path other than consecutive ones. *)
Definition chordless (g : DiGraph) (path : list str) : Prop :=
  forall e, In e (edges g) -> In (esrc e) path -> In (edst e) path ->
            In (ekey e) (steps path).

(** The sequence of a path as the specification words it: the first node in
    full, then the last character of every node that follows. *)
Definition sequence_of_path (path : list str) : str :=
  match path with
  | [] => []
  | first :: rest => first ++ map (fun node => last node "000"%char) rest
  end.

(** The graph of a chain of nodes, every edge of weight 1. *)
Definition unit_edges (l : list (str * str)) : list edge :=
  map (fun uv => (fst uv, snd uv, 1%Z)) l.

Definition path_graph (ns : list str) : DiGraph :=
  {| nodes := ns; edges := unit_edges (steps ns) |}.

(** A path with an average weight: some edge joins two of its nodes. *)
Definition weighted (g : DiGraph) (p : list str) : Prop :=
  exists q, path_average_weight g p = Ok q.

(** A seed under which a set hands out its first element in node order. *)
Definition first_seed (s : list str) : nat := 0.

(** Whether the lowest common ancestor of [v] and [w] is the same from
    whichever common ancestor the descent starts. *)
Definition lca_seed_free (g : DiGraph) (v w : str) : bool :=
  let common := common_ancestors g v w in
  match common with
  | [] => true
  | c0 :: _ =>
      forallb (fun c => str_eqb (descend g common (length (nodes g)) c)
                                (descend g common (length (nodes g)) c0))
              common
  end.

Definition predecessors_seed_free (g : DiGraph) (ps : list str) : bool :=
  match ps with
  | [p1; p2] => lca_seed_free g p1 p2
  | [p1; p2; _] => lca_seed_free g p1 p2
  | _ => true
  end.

(** Whether that holds at every call of [lowest_common_ancestor] that the
    loop of [simplify_bubbles] makes. *)
Fixpoint loop_seed_free (size : nat) (todo : list str) (g : DiGraph)
    (nodes_to_remove : list str) : bool :=
  if negb (length (nodes g) =? size) then true
  else
    match todo with
    | [] => true
    | node :: todo' =>
        match predecessors g node with
        | Ok ps => if 1 <? length ps then predecessors_seed_free g ps else true
        | Err _ => true
        end
        && match bubble_at first_seed g node nodes_to_remove with
           | Next g' marked => loop_seed_free size todo' g' marked
           | Thrown _ _ => true
           end
    end.

Definition seed_free (g : DiGraph) : bool :=
  loop_seed_free (length (nodes g)) (nodes g) g [].

(** A FASTQ record: the four lines of an entry, without their line ends. *)
Record fastq_record : Type := FastqRecord {
  identifier : str;
  sequence : str;
  separator : str;
  quality : str
}.

Definition record_text (r : fastq_record) : str :=
  identifier r ++ newline :: sequence r ++ newline ::
  separator r ++ newline :: quality r ++ [newline].

Definition fastq_text (records : list fastq_record) : str :=
  flat_map record_text records.

(** A line of a record: no line feed inside. *)
Definition one_line (s : str) : Prop := ~ In newline s.

Definition well_formed_record (r : fastq_record) : Prop :=
  one_line (identifier r) /\ strip (identifier r) <> [] /\
  one_line (sequence r) /\ one_line (separator r) /\ one_line (quality r).

(** Only characters that [strip] takes off. *)
Definition blank (s : str) : Prop := forall c, In c s -> isspace c = true.

(** [d.get(kmer)]. *)
Fixpoint dict_get (d : kmer_dict) (kmer : str) : option Z :=
  match d with
  | [] => None
  | (k', c) :: d' => if str_eq_dec kmer k' then Some c else dict_get d' kmer
  end.

(** The k-mers of all the reads, in the order in which the two loops of
    [build_kmer_dict] meet them. *)
Definition all_kmers (reads : list str) (kmer_size : Z) : list str :=
  flat_map (fun read => cut_kmer read kmer_size) reads.

(** How many times a k-mer occurs in the reads. *)
Definition occurrences (reads : list str) (kmer_size : Z) (kmer : str)
  : nat :=
  count_occ str_eq_dec (all_kmers reads kmer_size) kmer.

(** The graph of a set of reads, after any calls of the simplification
    functions. *)
Definition assembly_graph (reads : list str) (kmer_size : Z)
    (cs : list call) : DiGraph :=
  after_calls (build_graph (build_kmer_dict reads kmer_size)) cs.

(** The nodes that [remove_paths] hands to [remove_node], in order. *)
Definition doomed (path_list : list (list str))
    (delete_entry_node delete_sink_node : bool) : list str :=
  flat_map (fun path =>
              if length path <? 2 then []
              else slice (if delete_entry_node then 0 else 1)
                         (if delete_sink_node then length path
                          else length path - 1) path)
           path_list.

(** A mean that is a whole number: [statistics.mean] returns it as it is,
    an [int], with no conversion to a float. *)
Definition whole (q : Q) : Prop := exists z : Z, (q == inject_Z z)%Q.


(** ** Graphs used as examples *)

(** A graph built by a sequence of [add_edge] calls. *)
Definition arc (u v : string) (w : Z) : edge := (py u, py v, w).

Definition graph_of_edges (l : list edge) : DiGraph :=
  fold_left (fun g e => add_edge g (esrc e) (edst e) (eweight e)) l empty_graph.

(** Three overlapping 4-mers: the path CAA, AAA, AAG and the edge from CAA
    straight to AAG. *)
Definition chord_graph : DiGraph :=
  build_graph [(py "CAAA", 2%Z); (py "AAAG", 2%Z); (py "CAAG", 8%Z)].

(** The 3-mer AAA, seen three times: one node with an edge to itself. *)
Definition loop_graph : DiGraph := build_graph [(py "AAA", 3%Z)].

(** Two reads that overlap into the path TAT, ATA, TAA. *)
Definition two_step_graph : DiGraph :=
  build_graph (build_kmer_dict [py "TATAA"; py "ATAA"; py "ATAA"] 4).

(** Two paths from A to E of equal average weight, the shorter one first in
    the adjacency of A. *)
Definition tie_graph : DiGraph :=
  graph_of_edges [arc "A" "B" 1; arc "B" "E" 1;
                  arc "A" "C" 1; arc "C" "D" 1; arc "D" "E" 1].

(** An entry tip T on the path A, B, C, D. *)
Definition tip_graph : DiGraph :=
  graph_of_edges [arc "T" "C" 1; arc "A" "B" 10; arc "B" "C" 10;
                  arc "C" "D" 10].

(** An exit tip X on the path A, B, C, D. *)
Definition out_tip_graph : DiGraph :=
  graph_of_edges [arc "A" "B" 10; arc "B" "C" 10; arc "C" "D" 10;
                  arc "B" "X" 1].

(** The node AC with its four possible predecessors. *)
Definition four_way_graph : DiGraph :=
  build_graph (build_kmer_dict [py "AAC"; py "CAC"; py "GAC"; py "TAC"] 3).

(** A bubble from X to E through P1 or P2, and a third predecessor P3 of E
    that has no ancestor. *)
Definition three_way_graph : DiGraph :=
  graph_of_edges [arc "X" "P1" 5; arc "P1" "E" 5;
                  arc "X" "P2" 1; arc "P2" "E" 1; arc "P3" "E" 9].

(** Three nodes with two predecessors each: P2, E and C. *)
Definition nested_graph : DiGraph :=
  graph_of_edges [arc "M" "P1" 1; arc "M" "P2" 1; arc "P1" "X" 1;
                  arc "X" "P2" 1; arc "P1" "E" 1; arc "P2" "E" 1;
                  arc "P1" "Y" 5; arc "X" "C" 1; arc "Y" "C" 5].

(** [nested_graph] without X, and without X and P2. *)
Definition nested_graph_1 : DiGraph :=
  graph_of_edges [arc "M" "P1" 1; arc "M" "P2" 1; arc "P1" "E" 1;
                  arc "P2" "E" 1; arc "P1" "Y" 5; arc "Y" "C" 5].

Definition nested_graph_2 : DiGraph :=
  graph_of_edges [arc "M" "P1" 1; arc "P1" "E" 1; arc "P1" "Y" 5;
                  arc "Y" "C" 5].

(** One read whose 3-mers ACA and CAC differ but whose 2-mers AC, CA, AC
    repeat. *)
Definition cycle_graph : DiGraph :=
  build_graph (build_kmer_dict [py "ACAC"] 3).
(** * Properties *)

(** ** Equality tests *)

Lemma str_eqb_eq (a b : str) : str_eqb a b = true <-> a = b.
Proof.
  unfold str_eqb. destruct (str_eq_dec a b); split; congruence.
Qed.

Lemma str_eqb_neq (a b : str) : str_eqb a b = false <-> a <> b.
Proof.
  unfold str_eqb. destruct (str_eq_dec a b); split; congruence.
Qed.

Lemma str_eqb_refl (a : str) : str_eqb a a = true.
Proof. now apply str_eqb_eq. Qed.

Lemma mem_In (x : str) (l : list str) : mem x l = true <-> In x l.
Proof.
  unfold mem. destruct (in_dec str_eq_dec x l); split; congruence.
Qed.

Lemma mem_not_In (x : str) (l : list str) : mem x l = false <-> ~ In x l.
Proof.
  unfold mem. destruct (in_dec str_eq_dec x l); split; congruence.
Qed.

Lemma path_eqb_eq (p q : list str) : path_eqb p q = true <-> p = q.
Proof.
  unfold path_eqb. destruct (list_eq_dec str_eq_dec p q); split; congruence.
Qed.

Lemma succs_In (g : DiGraph) (u v : str) :
  In v (succs g u) <-> exists w, In (u, v, w) (edges g).
Proof.
  unfold succs. rewrite in_map_iff. split.
  - intros [[[a b] w] [Hb Hin]]. apply filter_In in Hin.
    destruct Hin as [Hin Ha]. apply str_eqb_eq in Ha. simpl in *. subst.
    now exists w.
  - intros [w Hin]. exists (u, v, w). split; [reflexivity|].
    apply filter_In. split; [exact Hin|]. apply str_eqb_refl.
Qed.

(** ** Removal only: the graph never grows *)

Lemma reduct_trans (g1 g2 g3 : DiGraph) :
  reduct g1 g2 -> reduct g2 g3 -> reduct g1 g3.
Proof.
  intros H12 H23. induction H12 as [g|g' g n H IH].
  - exact H23.
  - apply reduct_delete. now apply IH.
Qed.

Lemma delete_node_reduct (g : DiGraph) (n : str) : reduct (delete_node g n) g.
Proof. apply reduct_delete, reduct_refl. Qed.

(** A reduct has no node and no weighted edge that the graph has not. *)
Lemma reduct_subgraph (g' g : DiGraph) : reduct g' g -> subgraph_of g' g.
Proof.
  induction 1 as [g|g' g n H [IHn IHe]].
  - split; apply incl_refl.
  - split; unfold delete_node; simpl.
    + eapply incl_tran; [apply incl_filter | exact IHn].
    + eapply incl_tran; [apply incl_filter | exact IHe].
Qed.

Lemma remove_nodes_from_reduct (ns : list str) (g : DiGraph) :
  reduct (remove_nodes_from g ns) g.
Proof.
  unfold remove_nodes_from. revert g.
  induction ns as [|n ns IH]; intros g; simpl.
  - apply reduct_refl.
  - eapply reduct_trans; [apply IH | apply delete_node_reduct].
Qed.

Lemma remove_node_reduct (g : DiGraph) (n : str) :
  reduct (state (remove_node g n)) g.
Proof.
  unfold remove_node. destruct (has_node g n); simpl.
  - apply delete_node_reduct.
  - apply reduct_refl.
Qed.

(** A mutating call followed by another one. *)
Lemma andThen_reduct (o : outcome) (k : DiGraph -> outcome) (g : DiGraph) :
  reduct (state o) g ->
  (forall g', reduct (state (k g')) g') ->
  reduct (state (andThen o k)) g.
Proof.
  intros Ho Hk. destruct o as [g'|e g']; simpl in *.
  - eapply reduct_trans; [apply Hk | exact Ho].
  - exact Ho.
Qed.

Lemma query_reduct {A : Type} (g : DiGraph) (r : result A) (k : A -> outcome) :
  (forall a, reduct (state (k a)) g) ->
  reduct (state (query g r k)) g.
Proof.
  intros Hk. destruct r as [a|e]; simpl.
  - apply Hk.
  - apply reduct_refl.
Qed.

Lemma remove_each_reduct (ns : list str) (g : DiGraph) :
  reduct (state (remove_each g ns)) g.
Proof.
  revert g. induction ns as [|n ns IH]; intros g; simpl.
  - apply reduct_refl.
  - apply andThen_reduct; [apply remove_node_reduct | exact IH].
Qed.

Lemma remove_paths_reduct (path_list : list (list str)) (de ds : bool)
    (g : DiGraph) :
  reduct (state (remove_paths g path_list de ds)) g.
Proof.
  revert g. induction path_list as [|path rest IH]; intros g; simpl.
  - apply reduct_refl.
  - destruct (length path <? 2).
    + apply IH.
    + apply andThen_reduct; [apply remove_each_reduct | exact IH].
Qed.

Lemma select_best_path_reduct (g : DiGraph) (path_list : list (list str))
    (path_length : list Z) (weight_avg_list : list Q) (de ds : bool) :
  reduct
    (state (select_best_path g path_list path_length weight_avg_list de ds)) g.
Proof.
  unfold select_best_path. destruct path_list as [|p ps].
  - apply reduct_refl.
  - apply query_reduct. intros keys.
    destruct (argmax key_ltb keys).
    + apply remove_paths_reduct.
    + apply reduct_refl.
Qed.

Lemma drop_others_reduct (paths : list (list str))
    (best_path : option (list str)) (g : DiGraph) :
  reduct (drop_others g paths best_path) g.
Proof.
  revert g. induction paths as [|path rest IH]; intros g; simpl.
  - apply reduct_refl.
  - destruct (is_best best_path path).
    + apply IH.
    + eapply reduct_trans; [apply IH | apply remove_nodes_from_reduct].
Qed.

Lemma solve_bubble_reduct (g : DiGraph) (a d : str) :
  reduct (state (solve_bubble g a d)) g.
Proof.
  unfold solve_bubble. apply query_reduct. intros paths.
  destruct (length paths <=? 1).
  - apply reduct_refl.
  - apply query_reduct. intros best. apply drop_others_reduct.
Qed.

Lemma solve_from_predecessors_reduct (ps : list str) (lca node : str)
    (g : DiGraph) :
  reduct (state (solve_from_predecessors g ps lca node)) g.
Proof.
  revert g. induction ps as [|p ps IH]; intros g; simpl.
  - apply reduct_refl.
  - destruct (str_eqb p lca).
    + apply IH.
    + apply andThen_reduct; [apply solve_bubble_reduct | exact IH].
Qed.


Lemma asking_reduct {A : Type} (g g0 : DiGraph) (r : result A)
    (k : A -> iteration) :
  reduct g g0 ->
  (forall a, reduct (graph_after (k a)) g0) ->
  reduct (graph_after (asking g r k)) g0.
Proof.
  intros Hg Hk. destruct r as [a|e]; simpl; [apply Hk | exact Hg].
Qed.

(** Marking changes no graph. *)
Lemma mark_paths_graph (g : DiGraph) (paths : list (list str))
    (marked : list str) :
  graph_after (mark_paths g paths marked) = g.
Proof.
  unfold mark_paths. destruct paths as [|p ps]; [reflexivity|].
  destruct (mapM (path_average_weight g) (p :: ps)) as [ws|e]; simpl;
    [|reflexivity].
  destruct (argmax Qltb ws); reflexivity.
Qed.

Lemma bubble_at_reduct (seed : list str -> nat) (g : DiGraph) (node : str)
    (marked : list str) :
  reduct (graph_after (bubble_at seed g node marked)) g.
Proof.
  unfold bubble_at.
  apply asking_reduct; [apply reduct_refl|]. intros ps.
  destruct (1 <? length ps); [|apply reduct_refl].
  apply asking_reduct; [apply reduct_refl|]. intros [a|];
    [|apply reduct_refl].
  pose proof (solve_from_predecessors_reduct ps a node g) as H.
  destruct (solve_from_predecessors g ps a node) as [g'|e g']; simpl in *;
    [|exact H].
  apply asking_reduct; [exact H|]. intros paths.
  rewrite mark_paths_graph. exact H.
Qed.

Lemma bubbles_loop_reduct (seed : list str -> nat) (size : nat)
    (todo : list str) (g : DiGraph) (marked : list str) :
  reduct (state (bubbles_loop seed size todo g marked)) g.
Proof.
  revert g marked. induction todo as [|node todo IH]; intros g marked; simpl.
  - destruct (negb (length (nodes g) =? size)); simpl.
    + apply reduct_refl.
    + apply remove_nodes_from_reduct.
  - destruct (negb (length (nodes g) =? size)); simpl.
    + apply reduct_refl.
    + pose proof (bubble_at_reduct seed g node marked) as H.
      destruct (bubble_at seed g node marked) as [g' m'|e g']; simpl in *.
      * eapply reduct_trans; [apply IH | exact H].
      * exact H.
Qed.

Lemma simplify_bubbles_reduct (seed : list str -> nat) (g : DiGraph) :
  reduct (state (simplify_bubbles seed g)) g.
Proof. apply bubbles_loop_reduct. Qed.

(** The order in which [remove_nodes_from] is given the nodes, and their
    repetitions, do not matter: the call by [simplify_bubbles] and
    [solve_entry_tips] on [set(nodes_to_remove)] is the call on the list. *)
Lemma filter_twice {A : Type} (p q : A -> bool) (l : list A) :
  filter p (filter q l) = filter (fun x => q x && p x) l.
Proof.
  induction l as [|x l IH]; [reflexivity|].
  simpl. destruct (q x); simpl; [destruct (p x)|]; now rewrite IH.
Qed.

Lemma mem_cons (m n : str) (ns : list str) :
  mem m (n :: ns) = str_eqb m n || mem m ns.
Proof.
  unfold mem, str_eqb.
  destruct (in_dec str_eq_dec m (n :: ns)) as [[H|H]|H];
    destruct (str_eq_dec m n) as [E|E];
    destruct (in_dec str_eq_dec m ns) as [I|I];
    try reflexivity; try congruence; simpl in *; intuition congruence.
Qed.

Lemma remove_nodes_from_filter (ns : list str) (g : DiGraph) :
  remove_nodes_from g ns =
  {| nodes := filter (fun m => negb (mem m ns)) (nodes g);
     edges := filter (fun e => negb (mem (esrc e) ns) && negb (mem (edst e) ns))
                     (edges g) |}.
Proof.
  unfold remove_nodes_from. revert g.
  induction ns as [|n ns IH]; intros g.
  - destruct g as [vs es]. simpl. f_equal.
    + symmetry. apply forallb_filter_id. now apply forallb_forall.
    + symmetry. apply forallb_filter_id. now apply forallb_forall.
  - simpl fold_left. rewrite IH. unfold delete_node. simpl. f_equal.
    + rewrite filter_twice. apply filter_ext. intros m.
      rewrite mem_cons. now destruct (str_eqb m n), (mem m ns).
    + rewrite filter_twice. apply filter_ext. intros e.
      rewrite !mem_cons.
      destruct (str_eqb (esrc e) n), (str_eqb (edst e) n),
        (mem (esrc e) ns), (mem (edst e) ns); reflexivity.
Qed.

Lemma remove_nodes_from_same_set (ns ns' : list str) (g : DiGraph) :
  (forall n, In n ns <-> In n ns') ->
  remove_nodes_from g ns = remove_nodes_from g ns'.
Proof.
  intros H. rewrite !remove_nodes_from_filter.
  assert (Hm : forall m, mem m ns = mem m ns').
  { intros m. destruct (mem m ns) eqn:E, (mem m ns') eqn:E'; try reflexivity.
    - apply mem_In, H, mem_In in E. congruence.
    - apply mem_In, H, mem_In in E'. congruence. }
  f_equal; apply filter_ext; intros x; now rewrite !Hm.
Qed.

(** ** Unfolding the search *)

Lemma visit_0 (g : DiGraph) (targets path : list str) (v : str) :
  visit g targets 0 path v = if mem v targets then [path ++ [v]] else [].
Proof. simpl. now rewrite app_nil_r. Qed.

Lemma visit_S (g : DiGraph) (targets path : list str) (v : str) (b : nat) :
  visit g targets (S b) path v =
  (if mem v targets then [path ++ [v]] else []) ++
  (if remaining targets (path ++ [v])
   then flat_map (fun c => if mem c (path ++ [v]) then []
                           else visit g targets b (path ++ [v]) c)
                 (succs g v)
   else []).
Proof. reflexivity. Qed.

Lemma remaining_false (targets path : list str) :
  incl targets path -> remaining targets path = false.
Proof.
  intros H. unfold remaining.
  destruct (existsb _ targets) eqn:E; [|reflexivity].
  apply existsb_exists in E. destruct E as [t [Ht Hn]].
  apply negb_true_iff, mem_not_In in Hn. elim Hn. now apply H.
Qed.

Lemma remaining_true (targets path : list str) (t : str) :
  In t targets -> ~ In t path -> remaining targets path = true.
Proof.
  intros Ht Hn. unfold remaining. apply existsb_exists.
  exists t. split; [exact Ht|]. now apply negb_true_iff, mem_not_In.
Qed.

(** Reaching the only target ends the search along that branch. *)
Lemma visit_target (g : DiGraph) (t : str) (budget : nat) (path : list str) :
  visit g [t] budget path t = [path ++ [t]].
Proof.
  assert (Hm : mem t [t] = true) by (apply mem_In; now left).
  destruct budget as [|b].
  - now rewrite visit_0, Hm.
  - rewrite visit_S, Hm, remaining_false; [reflexivity|].
    intros x [<-|[]]. apply in_or_app. right. now left.
Qed.

(** ** Entry tips: what the search from a tip to its successor finds *)

(** A node whose only successor is the target has at most one simple path
    to it. *)
Lemma visit_only_successor (g : DiGraph) (node successor : str) (budget : nat) :
  succs g node = [successor] ->
  length (visit g [successor] budget [] node) <= 1.
Proof.
  intros Hs. destruct (str_eq_dec node successor) as [->|Hne].
  - rewrite visit_target. simpl. lia.
  - assert (Hm : mem node [successor] = false).
    { apply mem_not_In. intros [H|[]]. congruence. }
    destruct budget as [|b].
    + rewrite visit_0, Hm. simpl. lia.
    + rewrite visit_S, Hm, Hs. cbn [app].
      destruct (remaining [successor] [node]); [|simpl; lia].
      cbn [flat_map]. rewrite app_nil_r.
      destruct (mem successor [node]); [simpl; lia|].
      rewrite visit_target. simpl. lia.
Qed.

Lemma losers_single (p : list str) (best : nat) :
  best = 0 -> losers [p] best = [].
Proof.
  intros ->. unfold losers. simpl.
  assert (H : path_eqb p p = true) by now apply path_eqb_eq.
  now rewrite H.
Qed.

Lemma argmax_single {K : Type} (lt : K -> K -> bool) (k : K) :
  argmax lt [k] = Some 0.
Proof. reflexivity. Qed.

Lemma mapM_length {A B : Type} (f : A -> result B) (l : list A) (bs : list B) :
  mapM f l = Ok bs -> length bs = length l.
Proof.
  revert bs. induction l as [|a l IH]; intros bs H; simpl in H.
  - now inversion H.
  - destruct (f a) as [b|e]; simpl in H; [|discriminate].
    destruct (mapM f l) as [bs'|e]; simpl in H; [|discriminate].
    inversion H; subst. simpl. f_equal. now apply IH.
Qed.

(** With at most one path to compare, nothing is marked. *)
Lemma mark_paths_at_most_one (g : DiGraph) (paths : list (list str))
    (marked : list str) :
  length paths <= 1 ->
  mark_paths g paths marked = Next g marked \/
  exists e, mark_paths g paths marked = Thrown e g.
Proof.
  intros Hl. destruct paths as [|p [|q ps]]; [now left| |simpl in Hl; lia].
  unfold mark_paths.
  destruct (mapM (path_average_weight g) [p]) as [ws|e] eqn:E; simpl.
  - pose proof (mapM_length _ _ _ E) as Hlen.
    destruct ws as [|w [|w' ws]]; try discriminate Hlen.
    rewrite argmax_single, losers_single, app_nil_r by reflexivity. now left.
  - right. now exists e.
Qed.

Lemma entry_tip_at_unchanged (g : DiGraph) (node : str) (marked : list str) :
  entry_tip_at g node marked = Next g marked \/
  exists e, entry_tip_at g node marked = Thrown e g.
Proof.
  unfold entry_tip_at, successors, predecessors, all_simple_paths.
  destruct (has_node g node) eqn:Hn; simpl; [|right; now exists NetworkXError].
  destruct (succs g node) as [|successor [|s2 ss]] eqn:Hs; try now left.
  destruct (has_node g successor) eqn:Hsucc; simpl;
    [|right; now exists NetworkXError].
  destruct (1 <? length (preds g successor)); [|now left].
  apply mark_paths_at_most_one.
  unfold targets_of. rewrite Hsucc. now apply visit_only_successor.
Qed.

Lemma entry_tips_loop_unchanged (todo : list str) (g : DiGraph)
    (marked : list str) :
  entry_tips_loop todo g marked = Ret (remove_nodes_from g marked) \/
  exists e, entry_tips_loop todo g marked = Raise e g.
Proof.
  induction todo as [|node todo IH]; simpl; [now left|].
  destruct (entry_tip_at_unchanged g node marked) as [-> | [e ->]].
  - exact IH.
  - right. now exists e.
Qed.

(** [solve_entry_tips] never changes the graph it is given. *)
Lemma solve_entry_tips_unchanged (g : DiGraph) (starting_nodes : list str) :
  solve_entry_tips g starting_nodes = Ret g \/
  exists e, solve_entry_tips g starting_nodes = Raise e g.
Proof. apply (entry_tips_loop_unchanged starting_nodes g []). Qed.

Lemma solve_entry_tips_reduct (g : DiGraph) (starting_nodes : list str) :
  reduct (state (solve_entry_tips g starting_nodes)) g.
Proof.
  destruct (solve_entry_tips_unchanged g starting_nodes) as [-> | [e ->]];
    apply reduct_refl.
Qed.

(** ** Sequences of simplification calls *)


Lemma after_call_reduct (g : DiGraph) (c : call) : reduct (after_call g c) g.
Proof.
  destruct c; simpl.
  - apply simplify_bubbles_reduct.
  - apply solve_bubble_reduct.
  - apply solve_entry_tips_reduct.
  - apply reduct_refl.
  - apply remove_paths_reduct.
  - apply select_best_path_reduct.
Qed.

(** Whatever calls are made, what is left is the graph less some nodes. *)
Lemma after_calls_reduct (cs : list call) (g : DiGraph) :
  reduct (after_calls g cs) g.
Proof.
  unfold after_calls. revert g.
  induction cs as [|c cs IH]; intros g; simpl.
  - apply reduct_refl.
  - eapply reduct_trans; [apply IH | apply after_call_reduct].
Qed.

(** C9. Whatever simplification calls are made on a graph, in whatever
    order, and whether they return or raise, the graph they leave has no
    node that the input had not, and every edge it has is an edge of the
    input with the same weight. *)
Theorem simplification_only_removes (cs : list call) (g : DiGraph) :
  incl (nodes (after_calls g cs)) (nodes g) /\
  (forall u v w, In (u, v, w) (edges (after_calls g cs)) ->
                 In (u, v, w) (edges g)).
Proof.
  destruct (reduct_subgraph _ _ (after_calls_reduct cs g)) as [Hn He].
  split; [exact Hn|]. intros u v w Hin. now apply He.
Qed.

(** ** Short paths in [remove_paths] *)

Lemma remove_paths_app (l1 l2 : list (list str)) (de ds : bool) (g : DiGraph) :
  remove_paths g (l1 ++ l2) de ds =
  andThen (remove_paths g l1 de ds) (fun g' => remove_paths g' l2 de ds).
Proof.
  revert g. induction l1 as [|p l1 IH]; intros g; simpl; [reflexivity|].
  destruct (length p <? 2); [apply IH|].
  destruct (remove_each g _) as [g'|e g']; simpl; [apply IH | reflexivity].
Qed.

Lemma delete_node_nodes (g : DiGraph) (n m : str) :
  In m (nodes (delete_node g n)) <-> In m (nodes g) /\ m <> n.
Proof.
  unfold delete_node. cbn [nodes]. rewrite filter_In, negb_true_iff.
  now rewrite str_eqb_neq.
Qed.

Lemma remove_each_keeps (ns : list str) (n : str) (g : DiGraph) :
  ~ In n ns -> In n (nodes g) -> In n (nodes (state (remove_each g ns))).
Proof.
  revert g. induction ns as [|m ns IH]; intros g Hout Hin; [exact Hin|].
  cbn [remove_each]. unfold remove_node.
  destruct (has_node g m); [|exact Hin]. cbn [andThen]. apply IH.
  - intros H. apply Hout. now right.
  - apply delete_node_nodes. split; [exact Hin|].
    intros ->. apply Hout. now left.
Qed.

Lemma remove_paths_keeps (path_list : list (list str)) (de ds : bool)
    (n : str) (g : DiGraph) :
  ~ In n (doomed path_list de ds) -> In n (nodes g) ->
  In n (nodes (state (remove_paths g path_list de ds))).
Proof.
  revert g. induction path_list as [|p rest IH]; intros g Hout Hin;
    [exact Hin|].
  unfold doomed in Hout. cbn [flat_map] in Hout.
  fold (doomed rest de ds) in Hout.
  cbn [remove_paths]. destruct (length p <? 2).
  - apply IH; [exact Hout | exact Hin].
  - rewrite in_app_iff in Hout.
    pose proof (remove_each_keeps _ n g (fun H => Hout (or_introl H)) Hin)
      as Hkept.
    destruct (remove_each g _) as [g'|e g']; cbn [andThen state] in *.
    + apply IH; [intros H; apply Hout; now right | exact Hkept].
    + exact Hkept.
Qed.

(** C10, amended.  A path of fewer than two nodes in the list given to
    [remove_paths] is passed over, whatever the two flags: the call does what
    it does without that path, and on that path alone it returns the graph
    with every node in place.  A node of such a path stays in the graph
    unless it lies in the part to remove of another path of the list. *)
Theorem remove_paths_skips_short_paths
    (g : DiGraph) (before after : list (list str)) (path : list str)
    (delete_entry_node delete_sink_node : bool) :
  length path < 2 ->
  remove_paths g (before ++ path :: after) delete_entry_node delete_sink_node =
  remove_paths g (before ++ after) delete_entry_node delete_sink_node /\
  remove_paths g [path] delete_entry_node delete_sink_node = Ret g /\
  (forall n,
      In n path -> In n (nodes g) ->
      ~ In n (doomed (before ++ after) delete_entry_node delete_sink_node) ->
      In n (nodes (state (remove_paths g (before ++ path :: after)
                                       delete_entry_node delete_sink_node)))).
Proof.
  intros Hlen. apply Nat.ltb_lt in Hlen.
  assert (E : remove_paths g (before ++ path :: after)
                           delete_entry_node delete_sink_node =
              remove_paths g (before ++ after)
                           delete_entry_node delete_sink_node).
  { rewrite !remove_paths_app.
    destruct (remove_paths g before _ _) as [g'|e g']; simpl; [|reflexivity].
    now rewrite Hlen. }
  split; [exact E|]. split.
  - simpl. now rewrite Hlen.
  - intros n _ Hin Hout. rewrite E. now apply remove_paths_keeps.
Qed.

Lemma remove_paths_skips_short_paths_witness :
  let g := build_graph [(py "AC", 1%Z); (py "CG", 1%Z)] in
  remove_paths g [[py "G"]; [py "A"; py "C"]] true true =
  remove_paths g [[py "A"; py "C"]] true true /\
  remove_paths g [[py "G"]] true true = Ret g /\
  (forall n,
      In n [py "G"] -> In n (nodes g) ->
      ~ In n (doomed [[py "A"; py "C"]] true true) ->
      In n (nodes (state (remove_paths g [[py "G"]; [py "A"; py "C"]]
                                       true true)))).
Proof.
  apply (remove_paths_skips_short_paths
           (build_graph [(py "AC", 1%Z); (py "CG", 1%Z)])
           [] [[py "A"; py "C"]] [py "G"] true true).
  simpl. lia.
Defined.

(** C10, as stated, fails.  In the graph of the one edge from A to B, the
    call on the paths [A] and [A, B] with both flags set passes over the
    path [A], of one node, and then removes A as the first node of the path
    [A, B]: a node of a path of fewer than two nodes has left the graph. *)
Lemma remove_paths_removes_node_of_short_path :
  let g := graph_of_edges [arc "A" "B" 1] in
  length [py "A"] < 2 /\
  In (py "A") (nodes g) /\
  remove_paths g [[py "A"]; [py "A"; py "B"]] true true = Ret empty_graph /\
  ~ In (py "A") (nodes empty_graph).
Proof.
  cbv zeta. split; [simpl; lia|].
  split; [vm_compute; auto|].
  split; [reflexivity | intros []].
Qed.

(** ** The search yields simple paths of the graph *)


Lemma linked_app_one (g : DiGraph) (l : list str) (u v : str) :
  linked g (l ++ [u]) -> In v (succs g u) -> linked g (l ++ [u; v]).
Proof.
  induction l as [|a l IH]; intros Hl Hv; simpl in *.
  - now split.
  - destruct l as [|b l]; simpl in *.
    + destruct Hl as [Hab _]. repeat split; assumption.
    + destruct Hl as [Hab Hl]. split; [exact Hab|]. now apply IH.
Qed.

Lemma last_default {A : Type} (rest : list A) (a d d' : A) :
  last (a :: rest) d = last (a :: rest) d'.
Proof.
  revert a. induction rest as [|b rest IH]; intros a; [reflexivity|].
  change (last (b :: rest) d = last (b :: rest) d'). apply IH.
Qed.

Lemma last_cons {A : Type} (c v : A) (rest : list A) :
  last (c :: rest) v = last rest c.
Proof.
  destruct rest as [|a rest]; [reflexivity|].
  change (last (a :: rest) v = last (a :: rest) c). apply last_default.
Qed.

Lemma NoDup_snoc (l : list str) (c : str) :
  NoDup l -> ~ In c l -> NoDup (l ++ [c]).
Proof.
  intros Hn Hc. apply NoDup_rev in Hn.
  rewrite <- (rev_involutive (l ++ [c])). apply NoDup_rev.
  rewrite rev_app_distr. simpl. constructor; [|exact Hn].
  now rewrite <- in_rev.
Qed.

Lemma visit_sound (g : DiGraph) (targets : list str) (budget : nat) :
  forall (path : list str) (v : str) (p : list str),
    In p (visit g targets budget path v) ->
    exists rest, p = path ++ v :: rest /\
                 In (last rest v) targets /\
                 (linked g (path ++ [v]) -> linked g p) /\
                 (NoDup (path ++ [v]) -> NoDup p).
Proof.
  induction budget as [|b IH]; intros path v p Hin.
  - rewrite visit_0 in Hin. destruct (mem v targets) eqn:Hm; [|destruct Hin].
    destruct Hin as [<-|[]]. exists []. repeat split; auto.
    now apply mem_In.
  - rewrite visit_S in Hin. apply in_app_or in Hin. destruct Hin as [Hin|Hin].
    + destruct (mem v targets) eqn:Hm; [|destruct Hin].
      destruct Hin as [<-|[]]. exists []. repeat split; auto.
      now apply mem_In.
    + destruct (remaining targets (path ++ [v])); [|destruct Hin].
      apply in_flat_map in Hin. destruct Hin as [c [Hc Hin]].
      destruct (mem c (path ++ [v])) eqn:Hm; [destruct Hin|].
      apply mem_not_In in Hm.
      destruct (IH _ _ _ Hin) as [rest [Hp [Hlast [Hlink Hnd]]]].
      exists (c :: rest). split; [|split; [|split]].
      * rewrite Hp, <- app_assoc. reflexivity.
      * now rewrite last_cons.
      * intros Hl. apply Hlink. rewrite <- app_assoc.
        now apply linked_app_one.
      * intros Hn. apply Hnd. now apply NoDup_snoc.
Qed.

(** ** The search misses no simple path *)

Lemma last_in (l : list str) (a d : str) : In (last (a :: l) d) (a :: l).
Proof.
  revert a. induction l as [|b l IH]; intros a; [now left|].
  right. change (In (last (b :: l) d) (b :: l)). apply IH.
Qed.

Lemma NoDup_app_disjoint (l1 l2 : list str) (x : str) :
  NoDup (l1 ++ l2) -> In x l2 -> ~ In x l1.
Proof.
  induction l1 as [|a l1 IH]; intros Hn Hx; [intros []|].
  simpl in Hn. inversion Hn as [|? ? Ha Hn']; subst.
  intros [->|H].
  - apply Ha. apply in_or_app. now right.
  - now apply (IH Hn' Hx).
Qed.

(** A path of distinct nodes that continues the current path to the target
    is found when the budget covers its length. *)
Lemma visit_complete (g : DiGraph) (t : str) (rest : list str) :
  forall (pre : list str) (u : str) (budget : nat),
    linked g (u :: rest) -> NoDup (pre ++ u :: rest) ->
    last rest u = t -> length rest <= budget ->
    In (pre ++ u :: rest) (visit g [t] budget pre u).
Proof.
  induction rest as [|v rest IH]; intros pre u budget Hl Hn Ht Hb.
  - simpl in Ht. subst t. rewrite visit_target. now left.
  - destruct budget as [|b]; [simpl in Hb; lia|].
    destruct Hl as [Huv Hl].
    assert (Hn' : NoDup ((pre ++ [u]) ++ v :: rest))
      by now rewrite <- app_assoc.
    assert (Hin : In t (v :: rest)).
    { rewrite <- Ht. apply last_in. }
    pose proof (NoDup_app_disjoint _ _ _ Hn' Hin) as Hnt.
    rewrite visit_S. apply in_or_app. right.
    rewrite (remaining_true _ _ t); [|now left | exact Hnt].
    apply in_flat_map. exists v. split; [exact Huv|].
    assert (Hv : mem v (pre ++ [u]) = false).
    { apply mem_not_In. apply (NoDup_app_disjoint _ _ _ Hn'). now left. }
    rewrite Hv.
    replace (pre ++ u :: v :: rest) with ((pre ++ [u]) ++ v :: rest)
      by now rewrite <- app_assoc.
    apply IH; try assumption.
    + now rewrite <- Ht, last_cons.
    + simpl in Hb. lia.
Qed.

Lemma linked_nodes (g : DiGraph) (p : list str) :
  wf g -> linked g p -> incl (tl p) (nodes g).
Proof.
  intros Hwf. induction p as [|a p IH]; intros Hl; [intros x []|].
  destruct p as [|b p]; [intros x []|].
  destruct Hl as [Hab Hl]. simpl. intros x [<-|Hx].
  - apply succs_In in Hab. destruct Hab as [w Hin].
    now destruct (wf_ends g Hwf _ Hin).
  - now apply (IH Hl).
Qed.

(** On a well-formed graph, [all_simple_paths] yields every path of distinct
    nodes from the source to the target. *)
Lemma all_simple_paths_complete (g : DiGraph) (source target : str)
    (rest : list str) :
  wf g -> has_node g source = true -> has_node g target = true ->
  NoDup (source :: rest) -> linked g (source :: rest) ->
  last rest source = target ->
  exists paths, all_simple_paths g source target = Ok paths /\
                In (source :: rest) paths.
Proof.
  intros Hwf Hs Ht Hn Hl Hlast.
  unfold all_simple_paths, targets_of. rewrite Hs, Ht.
  eexists. split; [reflexivity|].
  apply (visit_complete g target rest [] source); try assumption.
  assert (Hi : incl (source :: rest) (nodes g)).
  { intros x [<-|Hx]; [now apply mem_In|].
    now apply (linked_nodes g (source :: rest) Hwf Hl). }
  pose proof (NoDup_incl_length Hn Hi) as Hlen. simpl in Hlen. lia.
Qed.

(** ** The search yields no path twice *)

Lemma succs_NoDup (g : DiGraph) (u : str) : wf g -> NoDup (succs g u).
Proof.
  intros Hwf. pose proof (wf_keys g Hwf) as Hk. unfold succs.
  induction (edges g) as [|e es IH]; [constructor|].
  simpl in Hk. inversion Hk as [|? ? He Hes]; subst. simpl.
  destruct (str_eqb (esrc e) u) eqn:E; [|now apply IH].
  simpl. constructor; [|now apply IH].
  intros Hin. apply He. apply in_map_iff in Hin.
  destruct Hin as [e' [Hd Hin]]. apply filter_In in Hin.
  destruct Hin as [Hin Hs]. apply str_eqb_eq in E, Hs.
  apply in_map_iff. exists e'. split; [|exact Hin].
  destruct e as [[a b] w], e' as [[a' b'] w'].
  unfold esrc, edst, ekey in *. simpl in *. congruence.
Qed.

Lemma NoDup_flat_map {A B : Type} (f : A -> list B) (l : list A) :
  NoDup l -> (forall a, In a l -> NoDup (f a)) ->
  (forall a a' b, In a l -> In a' l -> In b (f a) -> In b (f a') -> a = a') ->
  NoDup (flat_map f l).
Proof.
  induction l as [|a l IH]; intros Hn Hf Hd; [constructor|].
  inversion Hn as [|? ? Ha Hl]; subst. simpl.
  apply NoDup_app.
  - apply Hf. now left.
  - apply IH; [exact Hl | |].
    + intros x Hx. apply Hf. now right.
    + intros x x' b Hx Hx'. apply Hd; now right.
  - intros b Hb Hb'. apply in_flat_map in Hb'.
    destruct Hb' as [a' [Ha' Hb']].
    assert (a = a') by (apply (Hd a a' b); auto; [now left | now right]).
    subst. contradiction.
Qed.

Lemma visit_NoDup (g : DiGraph) (targets : list str) (budget : nat) :
  wf g -> forall (path : list str) (v : str),
    NoDup (visit g targets budget path v).
Proof.
  intros Hwf. induction budget as [|b IH]; intros path v.
  - rewrite visit_0. destruct (mem v targets); repeat constructor.
    intros [].
  - rewrite visit_S. apply NoDup_app.
    + destruct (mem v targets); repeat constructor. intros [].
    + destruct (remaining targets (path ++ [v])); [|constructor].
      apply NoDup_flat_map.
      * now apply succs_NoDup.
      * intros c _. destruct (mem c (path ++ [v])); [constructor | apply IH].
      * intros c c' p _ _ Hp Hp'.
        destruct (mem c (path ++ [v])); [destruct Hp|].
        destruct (mem c' (path ++ [v])); [destruct Hp'|].
        apply visit_sound in Hp, Hp'.
        destruct Hp as [rest [-> _]]. destruct Hp' as [rest' [E _]].
        apply app_inv_head in E. now inversion E.
    + intros p Hp Hp'.
      destruct (mem v targets); [|destruct Hp].
      destruct Hp as [<-|[]].
      destruct (remaining targets (path ++ [v])); [|destruct Hp'].
      apply in_flat_map in Hp'. destruct Hp' as [c [_ Hp']].
      destruct (mem c (path ++ [v])); [destruct Hp'|].
      apply visit_sound in Hp'. destruct Hp' as [rest [E _]].
      rewrite <- (app_nil_r (path ++ [v])) in E at 1.
      apply app_inv_head in E. discriminate E.
Qed.

(** ** The search loop ends *)

Lemma search_loop_skip (g : DiGraph) (targets : list str) (cutoff fuel : nat)
    (c : str) (cs : list str) (below : list (list str)) (p : list str)
    (out : list (list str)) :
  mem c p = true ->
  search_loop g targets cutoff fuel (SearchState ((c :: cs) :: below) p out) =
  search_loop g targets cutoff fuel (SearchState (cs :: below) p out).
Proof.
  intros Hm. destruct fuel as [|fuel]; [reflexivity|].
  simpl. unfold search_step. simpl. now rewrite Hm.
Qed.

Lemma search_loop_pop (g : DiGraph) (targets : list str) (cutoff fuel : nat)
    (below : list (list str)) (p : list str) (out : list (list str)) :
  search_loop g targets cutoff (S fuel) (SearchState ([] :: below) p out) =
  search_loop g targets cutoff fuel (SearchState below (removelast p) out).
Proof. reflexivity. Qed.

Lemma search_loop_next (g : DiGraph) (targets : list str) (cutoff fuel : nat)
    (c : str) (cs : list str) (below : list (list str)) (p : list str)
    (out : list (list str)) :
  mem c p = false ->
  search_loop g targets cutoff (S fuel)
              (SearchState ((c :: cs) :: below) p out) =
  if (length p <? cutoff) && remaining targets (p ++ [c])
  then search_loop g targets cutoff fuel
         (SearchState (succs g c :: cs :: below) (p ++ [c])
                 (out ++ (if mem c targets then [p ++ [c]] else [])))
  else search_loop g targets cutoff fuel
         (SearchState (cs :: below) p
                 (out ++ (if mem c targets then [p ++ [c]] else []))).
Proof.
  intros Hm. cbn [search_loop]. unfold search_step.
  cbn [stack current_path yielded next_unvisited]. rewrite Hm.
  assert (E : (if mem c targets then out ++ [p ++ [c]] else out) =
              out ++ (if mem c targets then [p ++ [c]] else [])).
  { destruct (mem c targets); [reflexivity | now rewrite app_nil_r]. }
  rewrite E.
  destruct ((length p <? cutoff) && remaining targets (p ++ [c]));
    reflexivity.
Qed.

(** Running the loop on a frame of children at path [p] ends with the frame
    popped, after yielding what [visit] yields for each child. *)
Lemma frame_runs (g : DiGraph) (targets : list str) (cutoff : nat) :
  forall (b : nat) (p : list str),
    length p + b = cutoff ->
    forall (cs : list str) (below : list (list str)) (out : list (list str)),
    exists n, forall m,
      search_loop g targets cutoff (n + m) (SearchState (cs :: below) p out) =
      search_loop g targets cutoff m
        (SearchState below (removelast p)
           (out ++ flat_map (fun c => if mem c p then []
                                      else visit g targets b p c) cs)).
Proof.
  induction b as [|b IHb]; intros p Hb cs;
    induction cs as [|c cs IHcs]; intros below out.
  - exists 1. intros m. cbn [Nat.add flat_map].
    now rewrite search_loop_pop, app_nil_r.
  - destruct (mem c p) eqn:Hm.
    + destruct (IHcs below out) as [n Hn]. exists n. intros m.
      rewrite search_loop_skip by exact Hm. cbn [flat_map]. rewrite Hm.
      apply Hn.
    + destruct (IHcs below
                  (out ++ (if mem c targets then [p ++ [c]] else [])))
        as [n Hn].
      exists (S n). intros m. cbn [Nat.add flat_map].
      rewrite search_loop_next by exact Hm.
      assert (Hlt : (length p <? cutoff) = false) by (apply Nat.ltb_ge; lia).
      rewrite Hlt, Hm, Hn, visit_0. cbn [andb].
      now rewrite <- app_assoc.
  - exists 1. intros m. cbn [Nat.add flat_map].
    now rewrite search_loop_pop, app_nil_r.
  - destruct (mem c p) eqn:Hm.
    + destruct (IHcs below out) as [n Hn]. exists n. intros m.
      rewrite search_loop_skip by exact Hm. cbn [flat_map]. rewrite Hm.
      apply Hn.
    + assert (Hlt : (length p <? cutoff) = true) by (apply Nat.ltb_lt; lia).
      set (out1 := out ++ (if mem c targets then [p ++ [c]] else [])).
      destruct (remaining targets (p ++ [c])) eqn:Hr.
      * assert (Hb' : length (p ++ [c]) + b = cutoff)
          by (rewrite length_app; simpl; lia).
        destruct (IHb (p ++ [c]) Hb' (succs g c) (cs :: below) out1)
          as [n1 Hn1].
        rewrite removelast_last in Hn1.
        destruct (IHcs below
                    (out1 ++ flat_map
                       (fun c' => if mem c' (p ++ [c]) then []
                                  else visit g targets b (p ++ [c]) c')
                       (succs g c))) as [n2 Hn2].
        exists (S (n1 + n2)). intros m. cbn [Nat.add flat_map].
        rewrite search_loop_next by exact Hm.
        rewrite Hlt, Hr, Hm. cbn [andb]. fold out1.
        rewrite <- Nat.add_assoc, Hn1, Hn2.
        rewrite visit_S, Hr. unfold out1. now rewrite <- !app_assoc.
      * destruct (IHcs below out1) as [n Hn].
        exists (S n). intros m. cbn [Nat.add flat_map].
        rewrite search_loop_next by exact Hm.
        rewrite Hlt, Hr, Hm. cbn [andb]. fold out1. rewrite Hn.
        rewrite visit_S, Hr, app_nil_r. unfold out1.
        now rewrite <- !app_assoc.
Qed.

(** The loop started at [source] ends, and has then yielded the paths of
    [visit]. *)
Lemma search_loop_ends (g : DiGraph) (targets : list str) (cutoff : nat)
    (source : str) :
  exists fuel,
    search_loop g targets cutoff fuel (search_start source) =
    Some (visit g targets cutoff [] source).
Proof.
  destruct (frame_runs g targets cutoff cutoff [] eq_refl [source] [] [])
    as [n Hn].
  exists (n + 1). unfold search_start. rewrite Hn. simpl.
  now rewrite app_nil_r.
Qed.

(** ** Well-formed graphs *)

Lemma distinct_NoDup {A : Type} (dec : forall x y : A, {x = y} + {x <> y})
    (l : list A) :
  distinct dec l = true -> NoDup l.
Proof.
  induction l as [|x l IH]; simpl; intros H; [constructor|].
  apply andb_true_iff in H. destruct H as [H1 H2].
  destruct (in_dec dec x l); [discriminate|]. constructor; auto.
Qed.

Lemma wfb_wf (g : DiGraph) : wfb g = true -> wf g.
Proof.
  unfold wfb. intros H.
  apply andb_true_iff in H. destruct H as [H H3].
  apply andb_true_iff in H. destruct H as [H1 H2].
  split.
  - now apply distinct_NoDup in H1.
  - now apply distinct_NoDup in H2.
  - intros e He. rewrite forallb_forall in H3. specialize (H3 e He).
    apply andb_true_iff in H3. destruct H3 as [Ha Hb].
    split; now apply mem_In.
Qed.

(** The graphs that the program builds and leaves are well formed. *)

Lemma empty_graph_wf : wf empty_graph.
Proof.
  split; simpl; [constructor | constructor | intros e []].
Qed.

Lemma add_node_nodes (g : DiGraph) (n : str) :
  NoDup (nodes g) ->
  NoDup (nodes (add_node g n)) /\ In n (nodes (add_node g n)) /\
  incl (nodes g) (nodes (add_node g n)) /\
  edges (add_node g n) = edges g.
Proof.
  intros Hn. unfold add_node, has_node. destruct (mem n (nodes g)) eqn:E.
  - apply mem_In in E. repeat split; auto using incl_refl.
  - apply mem_not_In in E. simpl. repeat split.
    + now apply NoDup_snoc.
    + apply in_or_app. right. now left.
    + apply incl_appl, incl_refl.
Qed.

Lemma set_edge_keys (es : list edge) (u v : str) (w : Z) :
  map ekey (set_edge es u v w) =
  if in_dec key_eq_dec (u, v) (map ekey es) then map ekey es
  else map ekey es ++ [(u, v)].
Proof.
  induction es as [|e es IH]; [reflexivity|].
  destruct e as [[a b] x]. simpl set_edge. unfold esrc, edst. simpl fst.
  simpl snd.
  destruct (str_eqb a u && str_eqb b v) eqn:E.
  - apply andb_true_iff in E. destruct E as [Ea Eb].
    apply str_eqb_eq in Ea, Eb. subst.
    match goal with
    | |- context [in_dec ?a ?b ?c] => destruct (in_dec a b c) as [_|Hn]
    end; [reflexivity|].
    elim Hn. now left.
  - assert (Hne : (a, b) <> (u, v)).
    { intros H. inversion H; subst. now rewrite !str_eqb_refl in E. }
    simpl map. rewrite IH.
    destruct (in_dec key_eq_dec (u, v) (map ekey es)) as [Hi|Hi];
      match goal with
      | |- context [in_dec ?a ?b ?c] => destruct (in_dec a b c) as [Hj|Hj]
      end; try reflexivity.
    + elim Hj. now right.
    + destruct Hj as [Hj|Hj]; [now elim Hne | now elim Hi].
Qed.

Lemma set_edge_In (es : list edge) (u v : str) (w : Z) (e : edge) :
  In e (set_edge es u v w) -> In e es \/ e = (u, v, w).
Proof.
  induction es as [|e' es IH]; simpl.
  - intros [H|[]]. now right.
  - destruct (str_eqb (esrc e') u && str_eqb (edst e') v).
    + intros [H|H]; [now right | left; now right].
    + intros [H|H]; [left; now left|].
      destruct (IH H) as [H'|H']; [left; now right | now right].
Qed.

Lemma add_edge_wf (g : DiGraph) (u v : str) (w : Z) :
  wf g -> wf (add_edge g u v w).
Proof.
  intros [Hn Hk He]. unfold add_edge.
  destruct (add_node_nodes g u Hn) as [Hn1 [Hu [Hi1 He1]]].
  destruct (add_node_nodes (add_node g u) v Hn1) as [Hn2 [Hv [Hi2 He2]]].
  split; simpl.
  - exact Hn2.
  - rewrite set_edge_keys, He2, He1.
    destruct (in_dec key_eq_dec (u, v) (map ekey (edges g))) as [Hin|Hin];
      [exact Hk|].
    rewrite <- (rev_involutive (map ekey (edges g) ++ [(u, v)])).
    apply NoDup_rev. rewrite rev_app_distr. simpl. constructor.
    + now rewrite <- in_rev.
    + now apply NoDup_rev.
  - intros e Hin. rewrite He2, He1 in Hin. apply set_edge_In in Hin.
    destruct Hin as [Hin | ->].
    + destruct (He e Hin) as [Ha Hb]. split; apply Hi2, Hi1; assumption.
    + unfold esrc, edst. simpl. split; [now apply Hi2 | exact Hv].
Qed.

Lemma build_graph_wf (d : kmer_dict) : wf (build_graph d).
Proof.
  unfold build_graph. generalize empty_graph_wf. generalize empty_graph.
  induction d as [|kw d IH]; intros g Hg; simpl; [exact Hg|].
  apply IH. now apply add_edge_wf.
Qed.

(** Dropping edges keeps the edge keys distinct. *)
Lemma filter_keys_NoDup (keep : edge -> bool) (es : list edge) :
  NoDup (map ekey es) -> NoDup (map ekey (filter keep es)).
Proof.
  induction es as [|e es IH]; intros Hk; [constructor|].
  simpl in Hk. inversion Hk as [|? ? He Hes]; subst. simpl.
  destruct (keep e); [|now apply IH].
  simpl. constructor; [|now apply IH].
  intros Hin. apply He. apply in_map_iff in Hin.
  destruct Hin as [e' [Hk' Hin]]. apply filter_In in Hin.
  apply in_map_iff. exists e'. split; [exact Hk' | now destruct Hin].
Qed.

Lemma delete_node_wf (g : DiGraph) (n : str) : wf g -> wf (delete_node g n).
Proof.
  intros [Hn Hk He]. split; simpl.
  - now apply NoDup_filter.
  - now apply filter_keys_NoDup.
  - intros e Hin. apply filter_In in Hin. destruct Hin as [Hin Hb].
    apply andb_true_iff in Hb. destruct Hb as [Ha Hb].
    apply negb_true_iff, str_eqb_neq in Ha, Hb.
    destruct (He e Hin) as [Hs Hd].
    split; apply filter_In; split; try assumption;
      now apply negb_true_iff, str_eqb_neq.
Qed.

Lemma reduct_wf (g' g : DiGraph) : reduct g' g -> wf g -> wf g'.
Proof.
  induction 1 as [g|g' g n H IH]; intros Hg; [exact Hg|].
  now apply delete_node_wf, IH.
Qed.

(** Every state of a graph built by [build_graph] and then simplified is
    well formed. *)
Lemma after_calls_wf (cs : list call) (d : kmer_dict) :
  wf (after_calls (build_graph d) cs).
Proof.
  eapply reduct_wf; [apply after_calls_reduct | apply build_graph_wf].
Qed.

(** ** The average weight of a path *)

Lemma sum_Permutation (l l' : list Z) :
  Permutation l l' -> fold_right Z.add 0%Z l = fold_right Z.add 0%Z l'.
Proof.
  induction 1; simpl; lia.
Qed.

Lemma mean_Permutation (l l' : list Z) : Permutation l l' -> mean l = mean l'.
Proof.
  intros H. pose proof (Permutation_length H) as Hlen.
  pose proof (sum_Permutation _ _ H) as Hsum.
  destruct l as [|x l], l' as [|y l']; try discriminate Hlen; [reflexivity|].
  unfold mean. now rewrite Hsum, Hlen.
Qed.

Lemma steps_In (path : list str) (u v : str) :
  In (u, v) (steps path) -> In u path /\ In v path.
Proof.
  induction path as [|a path IH]; simpl; [intros []|].
  destruct path as [|b path]; [intros []|].
  intros [H|H].
  - inversion H; subst. split; [now left | right; now left].
  - destruct (IH H) as [H1 H2]. split; now right.
Qed.

Lemma steps_NoDup (path : list str) : NoDup path -> NoDup (steps path).
Proof.
  induction path as [|a path IH]; intros Hn; [constructor|].
  destruct path as [|b path]; [constructor|].
  inversion Hn as [|? ? Ha Hn']; subst.
  change (steps (a :: b :: path)) with ((a, b) :: steps (b :: path)).
  constructor; [|now apply IH].
  intros H. apply steps_In in H. now destruct H.
Qed.

Lemma find_edge_Some (g : DiGraph) (uv : str * str) (e : edge) :
  find_edge g uv = Some e -> In e (edges g) /\ ekey e = uv.
Proof.
  unfold find_edge. intros H. apply find_some in H. destruct H as [Hin Hk].
  split; [exact Hin|].
  apply andb_true_iff in Hk. destruct Hk as [H1 H2].
  apply str_eqb_eq in H1, H2. destruct e as [[a b] w], uv as [u v].
  simpl in *. now subst.
Qed.

Lemma find_edge_In (g : DiGraph) (e : edge) :
  NoDup (map ekey (edges g)) -> In e (edges g) -> find_edge g (ekey e) = Some e.
Proof.
  unfold find_edge. induction (edges g) as [|e' es IH]; intros Hn Hin;
    [destruct Hin|].
  simpl in Hn. inversion Hn as [|? ? Hk Hn']; subst. simpl.
  destruct Hin as [->|Hin].
  - destruct e as [[a b] w]. simpl. now rewrite !str_eqb_refl.
  - destruct (str_eqb (esrc e') (fst (ekey e)) &&
              str_eqb (edst e') (snd (ekey e))) eqn:E.
    + apply andb_true_iff in E. destruct E as [E1 E2].
      apply str_eqb_eq in E1, E2. elim Hk.
      replace (ekey e') with (ekey e).
      * now apply in_map.
      * destruct e as [[a b] w], e' as [[a' b'] w']. simpl in *. now subst.
    + now apply IH.
Qed.

Lemma find_edge_linked (g : DiGraph) (u v : str) :
  In v (succs g u) -> exists e, find_edge g (u, v) = Some e.
Proof.
  intros H. apply succs_In in H. destruct H as [w Hin].
  unfold find_edge.
  destruct (find _ (edges g)) as [e|] eqn:E; [now exists e|].
  pose proof (find_none _ _ E _ Hin) as Hf. simpl in Hf.
  now rewrite !str_eqb_refl in Hf.
Qed.

(** On a path of the graph, the edges between consecutive nodes are there,
    one for each step. *)
Lemma step_edges_keys (g : DiGraph) (path : list str) :
  linked g path -> map ekey (step_edges g path) = steps path.
Proof.
  unfold step_edges. induction path as [|a path IH]; intros Hl; [reflexivity|].
  destruct path as [|b path]; [reflexivity|].
  destruct Hl as [Hab Hl].
  change (steps (a :: b :: path)) with ((a, b) :: steps (b :: path)).
  cbn [flat_map]. rewrite map_app, (IH Hl).
  destruct (find_edge_linked g a b Hab) as [e He]. rewrite He.
  apply find_edge_Some in He. destruct He as [_ He]. simpl. now rewrite He.
Qed.

Lemma step_edges_In (g : DiGraph) (path : list str) (e : edge) :
  In e (step_edges g path) ->
  In e (edges g) /\ In (ekey e) (steps path).
Proof.
  unfold step_edges. intros H. apply in_flat_map in H.
  destruct H as [uv [Huv H]].
  destruct (find_edge g uv) as [e'|] eqn:E; [|destruct H].
  destruct H as [<-|[]]. apply find_edge_Some in E. destruct E as [Hin Hk].
  split; [exact Hin|]. now rewrite Hk.
Qed.

(** On a chordless path of distinct nodes, the edges of the induced
    subgraph are the edges between consecutive nodes. *)
Lemma subgraph_edges_chordless (g : DiGraph) (path : list str) :
  wf g -> NoDup path -> linked g path -> chordless g path ->
  Permutation (subgraph_edges g path) (step_edges g path).
Proof.
  intros Hwf Hnd Hl Hc. apply NoDup_Permutation.
  - unfold subgraph_edges. apply NoDup_filter.
    apply (NoDup_map_inv ekey). apply Hwf.
  - apply (NoDup_map_inv ekey). rewrite step_edges_keys by exact Hl.
    now apply steps_NoDup.
  - intros e. unfold subgraph_edges. rewrite filter_In. split.
    + intros [Hin Hb]. apply andb_true_iff in Hb. destruct Hb as [Ha Hb].
      apply mem_In in Ha, Hb. pose proof (Hc e Hin Ha Hb) as Hk.
      unfold step_edges. apply in_flat_map. exists (ekey e).
      split; [exact Hk|].
      rewrite find_edge_In; [now left | apply Hwf | exact Hin].
    + intros H. apply step_edges_In in H. destruct H as [Hin Hk].
      split; [exact Hin|].
      destruct e as [[a b] w]. simpl in Hk. apply steps_In in Hk.
      destruct Hk as [Ha Hb]. simpl.
      apply andb_true_iff. split; now apply mem_In.
Qed.

(** A path with an edge between two of its nodes has an average weight. *)
Lemma path_average_weight_Ok (g : DiGraph) (path : list str) (e : edge) :
  In e (edges g) -> In (esrc e) path -> In (edst e) path ->
  exists q, path_average_weight g path = Ok q.
Proof.
  intros Hin Ha Hb. unfold path_average_weight.
  assert (H : In e (subgraph_edges g path)).
  { unfold subgraph_edges. apply filter_In. split; [exact Hin|].
    apply andb_true_iff. split; now apply mem_In. }
  destruct (subgraph_edges g path) as [|e' es]; [destruct H|].
  simpl. eexists. reflexivity.
Qed.

Lemma linked_first_edge (g : DiGraph) (path : list str) :
  linked g path -> 2 <= length path ->
  exists e, In e (edges g) /\ In (esrc e) path /\ In (edst e) path.
Proof.
  destruct path as [|a [|b path]]; simpl; intros Hl Hlen; try lia.
  destruct Hl as [Hab _]. apply succs_In in Hab. destruct Hab as [w Hin].
  exists (a, b, w). simpl. auto.
Qed.

(** The paths that [all_simple_paths] yields are simple paths of the
    graph. *)
Lemma all_simple_paths_sound (g : DiGraph) (source target : str)
    (paths : list (list str)) (p : list str) :
  all_simple_paths g source target = Ok paths -> In p paths ->
  NoDup p /\ linked g p /\ hd_error p = Some source /\
  In (last p source) (targets_of g target).
Proof.
  unfold all_simple_paths. destruct (has_node g source); [|discriminate].
  intros H Hin. inversion H; subst. apply visit_sound in Hin.
  destruct Hin as [rest [-> [Hlast [Hl Hn]]]]. simpl in *.
  repeat split.
  - apply Hn. repeat constructor. intros [].
  - now apply Hl.
  - destruct rest; assumption.
Qed.

Lemma subgraph_edges_nil (g : DiGraph) : subgraph_edges g [] = [].
Proof.
  unfold subgraph_edges. induction (edges g) as [|e es IH]; [reflexivity|].
  simpl. exact IH.
Qed.

Lemma path_average_weight_single (g : DiGraph) (n : str) :
  path_average_weight g [n] = Err StatisticsError <-> ~ In n (succs g n).
Proof.
  split.
  - intros H Hin. apply succs_In in Hin. destruct Hin as [w Hin].
    destruct (path_average_weight_Ok g [n] (n, n, w) Hin) as [q Hq];
      simpl; auto.
    congruence.
  - intros Hn. unfold path_average_weight.
    assert (H : subgraph_edges g [n] = []).
    { unfold subgraph_edges.
      destruct (filter _ (edges g)) as [|e es] eqn:E; [reflexivity|].
      assert (He : In e (e :: es)) by now left.
      rewrite <- E in He. apply filter_In in He. destruct He as [Hin Hb].
      apply andb_true_iff in Hb. destruct Hb as [Ha Hb].
      apply mem_In in Ha, Hb. destruct Ha as [Ha|[]], Hb as [Hb|[]].
      elim Hn. apply succs_In. exists (eweight e).
      destruct e as [[a b] w]. unfold esrc, edst, eweight in *.
      simpl in Ha, Hb |- *. now subst. }
    now rewrite H.
Qed.

(** ** Termination of the enumeration *)

Lemma search_loop_more (g : DiGraph) (targets : list str) (cutoff : nat)
    (fuel more : nat) (st : search_state) (paths : list (list str)) :
  search_loop g targets cutoff fuel st = Some paths ->
  search_loop g targets cutoff (fuel + more) st = Some paths.
Proof.
  revert st. induction fuel as [|fuel IH]; intros st H; [discriminate|].
  simpl in *. destruct (search_step g targets cutoff st) as [st'|];
    [now apply IH | exact H].
Qed.

(** C8. On every graph, cyclic or not, and for every source and target,
    the loop of [all_simple_paths] ends after finitely many turns: some
    number of turns is enough, more turns change nothing, and the loop has
    then yielded a finite list of paths, which is the list that
    [all_simple_paths] returns when the source is a node.  Every path of the
    list is a path of the graph without a repeated node; on a well-formed
    graph the list holds no path twice and, for a target in the graph, holds
    every path of distinct nodes from the source to the target. *)
Theorem all_simple_paths_terminates (g : DiGraph) (source target : str) :
  exists (fuel : nat) (paths : list (list str)),
    (forall more,
        search_loop g (targets_of g target) (length (nodes g) - 1)
                    (fuel + more) (search_start source) = Some paths) /\
    (has_node g source = true -> all_simple_paths g source target = Ok paths) /\
    (forall p, In p paths -> NoDup p /\ linked g p) /\
    (wf g -> NoDup paths) /\
    (wf g -> has_node g source = true -> has_node g target = true ->
     forall rest, NoDup (source :: rest) -> linked g (source :: rest) ->
                  last rest source = target -> In (source :: rest) paths).
Proof.
  destruct (search_loop_ends g (targets_of g target) (length (nodes g) - 1)
              source) as [fuel Hf].
  exists fuel, (visit g (targets_of g target) (length (nodes g) - 1) [] source).
  split; [|split; [|split; [|split]]].
  - intros more. now apply search_loop_more.
  - intros Hs. unfold all_simple_paths. now rewrite Hs.
  - intros p Hin. apply visit_sound in Hin.
    destruct Hin as [rest [-> [_ [Hl Hn]]]]. split.
    + apply Hn. simpl. repeat constructor. intros [].
    + apply Hl. exact I.
  - intros Hwf. now apply visit_NoDup.
  - intros Hwf Hs Ht rest Hn Hl Hlast.
    destruct (all_simple_paths_complete g source target rest Hwf Hs Ht Hn Hl
                Hlast) as [paths [Hp Hin]].
    unfold all_simple_paths in Hp. rewrite Hs in Hp.
    inversion Hp; subst. exact Hin.
Qed.

(** ** One pass, not a fixed point *)

(** C7, amended.  Neither stage repeats its pass.  For the entry tips a
    second application removes nothing more: applied again to the graph it
    returned, with the same or any other list of starting nodes,
    [solve_entry_tips] leaves that graph as it is. *)
Theorem solve_entry_tips_idempotent (g g' : DiGraph)
    (starting_nodes : list str) :
  solve_entry_tips g starting_nodes = Ret g' ->
  solve_entry_tips g' starting_nodes = Ret g' /\
  forall starting_nodes', state (solve_entry_tips g' starting_nodes') = g'.
Proof.
  intros H.
  assert (Hg : g' = g).
  { destruct (solve_entry_tips_unchanged g starting_nodes) as [E|[e E]];
      rewrite E in H; [now inversion H | discriminate]. }
  subst g'. split; [exact H|].
  intros s'. destruct (solve_entry_tips_unchanged g s') as [-> | [e ->]];
    reflexivity.
Qed.

Lemma solve_entry_tips_idempotent_witness :
  solve_entry_tips tip_graph (get_starting_nodes tip_graph) = Ret tip_graph /\
  forall starting_nodes',
    state (solve_entry_tips tip_graph starting_nodes') = tip_graph.
Proof.
  apply (solve_entry_tips_idempotent tip_graph tip_graph
           (get_starting_nodes tip_graph)).
  reflexivity.
Defined.


(** ** Runs that do not depend on the hash seed *)

Lemma lca_seed_free_ok (g : DiGraph) (v w : str) (seed : list str -> nat)
    (default : option str) :
  lca_seed_free g v w = true ->
  lowest_common_ancestor seed g v w default =
  lowest_common_ancestor first_seed g v w default.
Proof.
  unfold lca_seed_free, lowest_common_ancestor, first_of_set, first_seed.
  intros H.
  destruct (negb (is_directed_acyclic_graph g)); [reflexivity|].
  destruct (length (nodes g) =? 0); [reflexivity|].
  destruct (negb (has_node g v && has_node g w)); [reflexivity|].
  cbv zeta in *. destruct (common_ancestors g v w) as [|c0 cs] eqn:E.
  - simpl. now destruct (seed []).
  - rewrite forallb_forall in H.
    assert (Hlt : seed (c0 :: cs) mod length (c0 :: cs) < length (c0 :: cs))
      by (apply Nat.mod_upper_bound; discriminate).
    apply nth_error_Some in Hlt.
    destruct (nth_error (c0 :: cs) (seed (c0 :: cs) mod length (c0 :: cs)))
      as [c|] eqn:Ec; [|congruence].
    apply nth_error_In in Ec. specialize (H c Ec). apply str_eqb_eq in H.
    rewrite H, Nat.Div0.mod_0_l. reflexivity.
Qed.

Lemma predecessors_seed_free_ok (g : DiGraph) (ps : list str)
    (seed : list str -> nat) :
  predecessors_seed_free g ps = true ->
  lca_of_predecessors seed g ps = lca_of_predecessors first_seed g ps.
Proof.
  destruct ps as [|p1 [|p2 [|p3 [|p4 ps]]]]; try reflexivity; simpl;
    apply lca_seed_free_ok.
Qed.

Lemma loop_seed_free_ok (seed : list str -> nat) (size : nat)
    (todo : list str) :
  forall (g : DiGraph) (marked : list str),
    loop_seed_free size todo g marked = true ->
    bubbles_loop seed size todo g marked =
    bubbles_loop first_seed size todo g marked.
Proof.
  induction todo as [|node todo IH]; intros g marked H; simpl in *.
  - reflexivity.
  - destruct (negb (length (nodes g) =? size)); [reflexivity|].
    apply andb_true_iff in H. destruct H as [H1 H2].
    assert (E : bubble_at seed g node marked =
                bubble_at first_seed g node marked).
    { unfold bubble_at.
      destruct (predecessors g node) as [ps|e]; [|reflexivity]. simpl.
      destruct (1 <? length ps); [|reflexivity].
      now rewrite (predecessors_seed_free_ok g ps seed). }
    rewrite E. destruct (bubble_at first_seed g node marked) as [g' m'|e g'];
      [now apply IH | reflexivity].
Qed.

(** When no call depends on the seed, the seed does not matter. *)
Lemma seed_free_ok (g : DiGraph) (seed : list str -> nat) :
  seed_free g = true -> simplify_bubbles seed g = simplify_bubbles first_seed g.
Proof. apply loop_seed_free_ok. Qed.

(** ** Runs that depart from the specification *)

(** C2, at two failing inputs.  In [four_way_graph] the node AC has four
    predecessors: the call of [lowest_common_ancestor] with four nodes raises
    [TypeError] and the graph is left as it was.  In [three_way_graph] the
    node E has the predecessors P1, P2 and P3, which have no common
    ancestor; the lowest common ancestor X of P1 and P2 alone is used, and P2
    is removed.  Both runs are the same under every hash seed. *)
Lemma simplify_bubbles_beyond_two_predecessors :
  preds four_way_graph (py "AC") = [py "AA"; py "CA"; py "GA"; py "TA"] /\
  (forall seed,
      simplify_bubbles seed four_way_graph = Raise TypeError four_way_graph) /\
  preds three_way_graph (py "E") = [py "P1"; py "P2"; py "P3"] /\
  filter (fun a => reaches three_way_graph a (py "P1") &&
                   reaches three_way_graph a (py "P2") &&
                   reaches three_way_graph a (py "P3"))
         (nodes three_way_graph) = [] /\
  (forall seed,
      simplify_bubbles seed three_way_graph =
      Ret (graph_of_edges [arc "X" "P1" 5; arc "P1" "E" 5; arc "P3" "E" 9])).
Proof.
  split; [reflexivity|]. split.
  { intros seed. rewrite seed_free_ok by reflexivity. reflexivity. }
  split; [reflexivity|]. split; [reflexivity|].
  intros seed. rewrite seed_free_ok by reflexivity. reflexivity.
Qed.

(** C7, as stated, fails for the bubbles.  On [nested_graph] a first call
    of [simplify_bubbles] removes X alone; a second call, on the graph the
    first one returned, removes P2; and so under every hash seed. *)
Lemma simplify_bubbles_not_idempotent :
  (forall seed, simplify_bubbles seed nested_graph = Ret nested_graph_1) /\
  (forall seed, simplify_bubbles seed nested_graph_1 = Ret nested_graph_2) /\
  In (py "P2") (nodes nested_graph_1) /\
  ~ In (py "P2") (nodes nested_graph_2).
Proof.
  split; [intros seed; rewrite seed_free_ok by reflexivity; reflexivity|].
  split; [intros seed; rewrite seed_free_ok by reflexivity; reflexivity|].
  split; [vm_compute; intuition|].
  vm_compute. intuition discriminate.
Qed.

(** C3, at a failing input.  In [out_tip_graph] the sink X is the second
    successor of B, its only predecessor.  [solve_out_tips] returns no
    graph. *)
Lemma solve_out_tips_does_nothing :
  get_sink_nodes out_tip_graph = [py "D"; py "X"] /\
  preds out_tip_graph (py "X") = [py "B"] /\
  succs out_tip_graph (py "B") = [py "C"; py "X"] /\
  solve_out_tips out_tip_graph (get_sink_nodes out_tip_graph) = None.
Proof.
  split; [reflexivity|]. split; [reflexivity|]. split; reflexivity.
Qed.

(** C4, at a failing input.  In [tie_graph] the two paths from A to E have
    the same average weight; [simplify_bubbles] keeps the first one, of three
    nodes, and removes the interior of the one of four nodes. *)
Lemma simplify_bubbles_tie_keeps_first :
  all_simple_paths tie_graph (py "A") (py "E") =
    Ok [[py "A"; py "B"; py "E"]; [py "A"; py "C"; py "D"; py "E"]] /\
  path_average_weight tie_graph [py "A"; py "B"; py "E"] = Ok (2 # 2) /\
  path_average_weight tie_graph [py "A"; py "C"; py "D"; py "E"] = Ok (3 # 3) /\
  (2 # 2 == 3 # 3)%Q /\
  (forall seed,
      simplify_bubbles seed tie_graph =
      Ret (graph_of_edges [arc "A" "B" 1; arc "B" "E" 1])).
Proof.
  split; [reflexivity|]. split; [reflexivity|]. split; [reflexivity|].
  split; [reflexivity|].
  intros seed. rewrite seed_free_ok by reflexivity. reflexivity.
Qed.

(** C5, at a failing input.  In [tip_graph] the source T has the single
    successor C, which has two predecessors, and the edge from T has weight
    1 against 10 on the path A, B, C.  [solve_entry_tips] returns the graph
    as it was, T included. *)
Lemma solve_entry_tips_keeps_tip :
  get_starting_nodes tip_graph = [py "T"; py "A"] /\
  succs tip_graph (py "T") = [py "C"] /\
  preds tip_graph (py "C") = [py "T"; py "B"] /\
  path_average_weight tip_graph [py "T"; py "C"] = Ok (1 # 1) /\
  path_average_weight tip_graph [py "A"; py "B"; py "C"] = Ok (20 # 2) /\
  solve_entry_tips tip_graph (get_starting_nodes tip_graph) = Ret tip_graph /\
  In (py "T") (nodes tip_graph).
Proof.
  split; [reflexivity|]. split; [reflexivity|]. split; [reflexivity|].
  split; [reflexivity|]. split; [reflexivity|]. split; [reflexivity|].
  vm_compute. now left.
Qed.

(** C1, as stated, fails.  The read ACAC has two different 3-mers, ACA and
    CAC; its graph is the cycle AC, CA, which has no starting node and no
    sink node, and no contig comes out. *)
Lemma repeated_overlap_gives_no_contig :
  3 <= length (py "ACAC") /\
  NoDup (cut_kmer (py "ACAC") 3) /\
  get_starting_nodes cycle_graph = [] /\
  get_sink_nodes cycle_graph = [] /\
  get_contigs cycle_graph (get_starting_nodes cycle_graph)
              (get_sink_nodes cycle_graph) = Ok [].
Proof.
  split; [simpl; lia|]. split.
  - vm_compute. repeat constructor; simpl; intuition discriminate.
  - split; [reflexivity|]. split; reflexivity.
Qed.

(** ** One read without a repeated overlap *)

(** *** Windows of a read *)

Lemma slice_window {A : Type} (i k : nat) (l : list A) :
  slice i (i + k) l = firstn k (skipn i l).
Proof. unfold slice. f_equal. lia. Qed.

Lemma cut_kmer_windows (read : str) (k : nat) :
  cut_kmer read (Z.of_nat k) =
  map (fun i => firstn k (skipn i read)) (seq 0 (length read + 1 - k)).
Proof.
  unfold cut_kmer.
  replace (Z.to_nat (Z.of_nat (length read) - Z.of_nat k + 1))
    with (length read + 1 - k) by lia.
  apply map_ext_in. intros i Hi. apply in_seq in Hi.
  unfold slice_int, slice_bound.
  destruct (Z.of_nat i <? 0)%Z eqn:E1; [apply Z.ltb_lt in E1; lia|].
  destruct (Z.of_nat i + Z.of_nat k <? 0)%Z eqn:E2;
    [apply Z.ltb_lt in E2; lia|].
  rewrite Nat2Z.id.
  replace (Z.to_nat (Z.of_nat i + Z.of_nat k)) with (i + k) by lia.
  rewrite !Nat.min_l by lia. apply slice_window.
Qed.

Lemma tl_skipn {A : Type} (i : nat) (l : list A) :
  tl (skipn i l) = skipn (S i) l.
Proof.
  revert l. induction i as [|i IH]; intros l.
  - destruct l; reflexivity.
  - destruct l as [|x l]; [reflexivity|]. simpl skipn at 1. rewrite IH.
    reflexivity.
Qed.

Lemma tl_firstn {A : Type} (n : nat) (l : list A) :
  tl (firstn (S n) l) = firstn n (tl l).
Proof.
  destruct l as [|x l]; simpl; [now rewrite firstn_nil | reflexivity].
Qed.

Lemma removelast_window (read : str) (i k : nat) :
  i + S k <= length read ->
  removelast (firstn (S k) (skipn i read)) = firstn k (skipn i read).
Proof.
  intros H. apply removelast_firstn. rewrite length_skipn. lia.
Qed.

Lemma tl_window (read : str) (i k : nat) :
  tl (firstn (S k) (skipn i read)) = firstn k (skipn (S i) read).
Proof. now rewrite tl_firstn, tl_skipn. Qed.

Lemma steps_map_seq (h : nat -> str) (n a : nat) :
  steps (map h (seq a (S n))) = map (fun i => (h i, h (S i))) (seq a n).
Proof.
  revert a. induction n as [|n IH]; intros a; [reflexivity|].
  change (seq a (S (S n))) with (a :: seq (S a) (S n)).
  rewrite map_cons.
  change (seq a (S n)) with (a :: seq (S a) n). rewrite map_cons.
  rewrite <- IH. reflexivity.
Qed.

(** The prefix and the suffix of the k-mers of a read are the consecutive
    (k-1)-mers of the read. *)
Lemma kmer_ends (read : str) (k : nat) :
  S k <= length read ->
  map (fun kmer => (removelast kmer, tl kmer))
      (cut_kmer read (Z.of_nat (S k))) =
  steps (cut_kmer read (Z.of_nat k)).
Proof.
  intros Hk. rewrite !cut_kmer_windows.
  replace (length read + 1 - k) with (S (length read + 1 - S k)) by lia.
  rewrite steps_map_seq, map_map. apply map_ext_in.
  intros i Hi. apply in_seq in Hi.
  rewrite removelast_window by lia. now rewrite tl_window.
Qed.

(** *** The dictionary and the graph of the read *)

Lemma dict_incr_new (d : kmer_dict) (kmer : str) :
  ~ In kmer (map fst d) -> dict_incr d kmer = d ++ [(kmer, 1%Z)].
Proof.
  induction d as [|[k' c] d IH]; intros Hn; [reflexivity|].
  simpl in *. destruct (str_eq_dec kmer k') as [->|Hne].
  - elim Hn. now left.
  - f_equal. apply IH. intros H. apply Hn. now right.
Qed.

Lemma fold_dict_incr (l : list str) (d : kmer_dict) :
  NoDup l -> (forall x, In x l -> ~ In x (map fst d)) ->
  fold_left dict_incr l d = d ++ map (fun x => (x, 1%Z)) l.
Proof.
  revert d. induction l as [|x l IH]; intros d Hn Hd; simpl.
  - now rewrite app_nil_r.
  - inversion Hn as [|? ? Hx Hn']; subst.
    rewrite dict_incr_new by (apply Hd; now left).
    rewrite IH; [now rewrite <- app_assoc | exact Hn' |].
    intros y Hy. rewrite map_app, in_app_iff. simpl.
    intros [H|[H|[]]].
    + revert H. apply Hd. now right.
    + now subst.
Qed.

Lemma build_kmer_dict_single (read : str) (k : Z) :
  NoDup (cut_kmer read k) ->
  build_kmer_dict [read] k = map (fun kmer => (kmer, 1%Z)) (cut_kmer read k).
Proof.
  intros Hn. unfold build_kmer_dict. cbn [fold_left].
  rewrite fold_dict_incr; [reflexivity | exact Hn | intros x _ []].
Qed.

Lemma cut_kmer_NoDup (read : str) (k : nat) :
  S k <= length read -> NoDup (cut_kmer read (Z.of_nat k)) ->
  NoDup (cut_kmer read (Z.of_nat (S k))).
Proof.
  intros Hk Hn.
  apply (NoDup_map_inv (fun kmer => (removelast kmer, tl kmer))).
  rewrite kmer_ends by exact Hk. now apply steps_NoDup.
Qed.

Lemma build_graph_edges (d : kmer_dict) :
  build_graph d =
  graph_of_edges (map (fun kw => (removelast (fst kw), tl (fst kw), snd kw)) d).
Proof.
  unfold build_graph, graph_of_edges. generalize empty_graph.
  induction d as [|kw d IH]; intros g; [reflexivity|].
  simpl. apply IH.
Qed.

Lemma steps_snoc (l : list str) (u v : str) :
  steps (l ++ [u; v]) = steps (l ++ [u]) ++ [(u, v)].
Proof.
  induction l as [|a l IH]; [reflexivity|].
  destruct l as [|b l]; [reflexivity|].
  change (steps ((a :: b :: l) ++ [u; v]))
    with ((a, b) :: steps ((b :: l) ++ [u; v])).
  rewrite IH. reflexivity.
Qed.

Lemma set_edge_new (es : list edge) (u v : str) (w : Z) :
  (forall e, In e es -> edst e <> v) -> set_edge es u v w = es ++ [(u, v, w)].
Proof.
  induction es as [|e es IH]; intros H; [reflexivity|].
  simpl. assert (Hv : str_eqb (edst e) v = false).
  { apply str_eqb_neq. apply H. now left. }
  rewrite Hv, andb_false_r. f_equal. apply IH.
  intros e' He'. apply H. now right.
Qed.

Lemma unit_edges_In (l : list (str * str)) (e : edge) :
  In e (unit_edges l) -> In (ekey e) l.
Proof.
  unfold unit_edges. intros H. apply in_map_iff in H.
  destruct H as [[a b] [<- H]]. exact H.
Qed.

Lemma add_edge_path_graph (pre : list str) (u v : str) :
  ~ In v (pre ++ [u]) ->
  add_edge (path_graph (pre ++ [u])) u v 1 = path_graph (pre ++ [u; v]).
Proof.
  intros Hv. unfold add_edge, add_node, has_node.
  assert (Hu : mem u (nodes (path_graph (pre ++ [u]))) = true).
  { apply mem_In. simpl. apply in_or_app. right. now left. }
  rewrite Hu.
  assert (Hv' : mem v (nodes (path_graph (pre ++ [u]))) = false)
    by now apply mem_not_In.
  rewrite Hv'. unfold path_graph. simpl. f_equal.
  - now rewrite <- app_assoc.
  - rewrite steps_snoc. unfold unit_edges at 2. rewrite map_app. simpl.
    apply set_edge_new. intros e He Hd. apply unit_edges_In in He.
    destruct e as [[a b] w]. unfold edst, ekey in *. simpl in *.
    apply steps_In in He. subst b. now destruct He.
Qed.

Lemma graph_of_edges_chain (rest pre : list str) (u : str) :
  NoDup (pre ++ u :: rest) ->
  fold_left (fun g e => add_edge g (esrc e) (edst e) (eweight e))
            (unit_edges (steps (u :: rest))) (path_graph (pre ++ [u])) =
  path_graph (pre ++ u :: rest).
Proof.
  revert pre u. induction rest as [|v rest IH]; intros pre u Hn;
    [reflexivity|].
  change (steps (u :: v :: rest)) with ((u, v) :: steps (v :: rest)).
  simpl fold_left. change (esrc (u, v, 1%Z)) with u.
  change (edst (u, v, 1%Z)) with v. change (eweight (u, v, 1%Z)) with 1%Z.
  rewrite add_edge_path_graph.
  - replace (pre ++ [u; v]) with ((pre ++ [u]) ++ [v])
      by now rewrite <- app_assoc.
    replace (pre ++ u :: v :: rest) with ((pre ++ [u]) ++ v :: rest)
      by now rewrite <- app_assoc.
    apply IH. now rewrite <- app_assoc.
  - replace (pre ++ u :: v :: rest) with ((pre ++ [u]) ++ v :: rest) in Hn
      by now rewrite <- app_assoc.
    apply NoDup_remove_2 in Hn. intros H. apply Hn.
    apply in_or_app. now left.
Qed.

Lemma graph_of_path_steps (ns : list str) :
  NoDup ns -> 2 <= length ns ->
  graph_of_edges (unit_edges (steps ns)) = path_graph ns.
Proof.
  destruct ns as [|n0 [|n1 rest]]; simpl length; intros Hn Hlen; try lia.
  change (steps (n0 :: n1 :: rest)) with ((n0, n1) :: steps (n1 :: rest)).
  unfold graph_of_edges.
  change (unit_edges ((n0, n1) :: steps (n1 :: rest)))
    with ((n0, n1, 1%Z) :: unit_edges (steps (n1 :: rest))).
  cbn [fold_left].
  assert (H0 : add_edge empty_graph (esrc (n0, n1, 1%Z)) (edst (n0, n1, 1%Z))
                 (eweight (n0, n1, 1%Z)) = path_graph ([n0] ++ [n1])).
  { unfold add_edge, add_node, has_node, esrc, edst, eweight. simpl.
    assert (Hm : mem n1 [n0] = false).
    { apply mem_not_In. intros [H|[]]. subst.
      inversion Hn as [|? ? Hx _]. apply Hx. now left. }
    rewrite Hm. reflexivity. }
  rewrite H0. apply (graph_of_edges_chain rest [n0] n1). exact Hn.
Qed.

(** The graph of a read without a repeated (k-1)-mer is the chain of its
    (k-1)-mers. *)
Lemma build_graph_single (read : str) (k : nat) :
  S k <= length read -> NoDup (cut_kmer read (Z.of_nat k)) ->
  build_graph (build_kmer_dict [read] (Z.of_nat (S k))) =
  path_graph (cut_kmer read (Z.of_nat k)).
Proof.
  intros Hk Hn.
  rewrite build_kmer_dict_single by now apply cut_kmer_NoDup.
  rewrite build_graph_edges, map_map. simpl.
  rewrite <- graph_of_path_steps.
  - f_equal. rewrite <- kmer_ends by exact Hk. unfold unit_edges.
    now rewrite map_map.
  - exact Hn.
  - rewrite cut_kmer_windows, length_map, length_seq. lia.
Qed.

(** *** The chain and its one path *)

Lemma succs_path_graph (ns : list str) (u : str) :
  succs (path_graph ns) u =
  map snd (filter (fun uv => str_eqb (fst uv) u) (steps ns)).
Proof.
  unfold succs, path_graph, unit_edges. simpl.
  induction (steps ns) as [|[a b] l IH]; [reflexivity|].
  simpl. unfold esrc at 1. simpl.
  destruct (str_eqb a u); simpl; now rewrite IH.
Qed.

Lemma preds_path_graph (ns : list str) (v : str) :
  preds (path_graph ns) v =
  map fst (filter (fun uv => str_eqb (snd uv) v) (steps ns)).
Proof.
  unfold preds, path_graph, unit_edges. simpl.
  induction (steps ns) as [|[a b] l IH]; [reflexivity|].
  simpl. unfold edst at 1. simpl.
  destruct (str_eqb b v); simpl; now rewrite IH.
Qed.

Lemma steps_ends (l : list str) (u v : str) :
  In (u, v) (steps l) -> In u (removelast l) /\ In v (tl l).
Proof.
  induction l as [|a l IH]; [intros []|].
  destruct l as [|b l]; [intros []|].
  change (steps (a :: b :: l)) with ((a, b) :: steps (b :: l)).
  change (removelast (a :: b :: l)) with (a :: removelast (b :: l)).
  intros [H|H].
  - inversion H; subst. split; now left.
  - destruct (IH H) as [H1 H2]. split; [now right|].
    simpl. right. destruct l; [destruct H2 | exact H2].
Qed.

Lemma steps_after (l : list str) (u : str) :
  In u (removelast l) -> exists v, In (u, v) (steps l).
Proof.
  induction l as [|a l IH]; [intros []|].
  destruct l as [|b l]; [intros []|].
  change (steps (a :: b :: l)) with ((a, b) :: steps (b :: l)).
  change (removelast (a :: b :: l)) with (a :: removelast (b :: l)).
  intros [->|H].
  - exists b. now left.
  - destruct (IH H) as [v Hv]. exists v. now right.
Qed.

Lemma steps_before (l : list str) (v : str) :
  In v (tl l) -> exists u, In (u, v) (steps l).
Proof.
  induction l as [|a l IH]; [intros []|].
  destruct l as [|b l]; [intros []|].
  change (steps (a :: b :: l)) with ((a, b) :: steps (b :: l)).
  simpl tl. intros [->|H].
  - exists a. now left.
  - destruct (IH H) as [u Hu]. exists u. now right.
Qed.

Lemma filter_none {A : Type} (f : A -> bool) (l : list A) :
  (forall x, In x l -> f x = false) -> filter f l = [].
Proof.
  induction l as [|x l IH]; intros H; [reflexivity|].
  simpl. rewrite (H x) by now left. apply IH. intros y Hy. apply H. now right.
Qed.

Lemma last_not_in_front (l : list str) (d : str) :
  NoDup l -> l <> [] -> ~ In (last l d) (removelast l).
Proof.
  intros Hn Hl H. rewrite (app_removelast_last d Hl) in Hn.
  apply NoDup_remove_2 in Hn. apply Hn. now rewrite app_nil_r.
Qed.

Lemma get_starting_nodes_path_graph (n0 : str) (rest : list str) :
  NoDup (n0 :: rest) -> get_starting_nodes (path_graph (n0 :: rest)) = [n0].
Proof.
  intros Hn. inversion Hn as [|? ? Hx Hn']; subst.
  unfold get_starting_nodes, in_degree.
  change (nodes (path_graph (n0 :: rest))) with (n0 :: rest).
  simpl filter. rewrite !preds_path_graph.
  rewrite (filter_none _ (steps (n0 :: rest))).
  - simpl. f_equal. apply filter_none. intros x Hxr.
    rewrite preds_path_graph.
    destruct (steps_before (n0 :: rest) x Hxr) as [u Hu].
    destruct (filter _ (steps (n0 :: rest))) as [|uv l] eqn:E.
    + exfalso. assert (H : In (u, x) []); [|destruct H].
      rewrite <- E. apply filter_In. split; [exact Hu | apply str_eqb_refl].
    + reflexivity.
  - intros [u v] Huv. apply steps_ends in Huv. simpl.
    apply str_eqb_neq. intros ->. now destruct Huv.
Qed.

Lemma get_sink_nodes_path_graph (ns : list str) (d : str) :
  NoDup ns -> ns <> [] -> get_sink_nodes (path_graph ns) = [last ns d].
Proof.
  intros Hn Hne. unfold get_sink_nodes, out_degree.
  change (nodes (path_graph ns)) with ns.
  rewrite (app_removelast_last d Hne) at 1. rewrite filter_app.
  rewrite filter_none.
  - simpl. rewrite succs_path_graph.
    rewrite (filter_none _ (steps ns)); [reflexivity|].
    intros [u v] Huv. apply steps_ends in Huv. simpl.
    apply str_eqb_neq. intros ->. destruct Huv as [Hu _].
    revert Hu. now apply last_not_in_front.
  - intros x Hx. rewrite succs_path_graph.
    destruct (steps_after ns x Hx) as [v Hv].
    destruct (filter _ (steps ns)) as [|uv l] eqn:E.
    + exfalso. assert (H : In (x, v) []); [|destruct H].
      rewrite <- E. apply filter_In. split; [exact Hv | apply str_eqb_refl].
    + reflexivity.
Qed.

Lemma succs_path_graph_inside (pre post : list str) (u v : str) :
  NoDup (pre ++ u :: v :: post) ->
  succs (path_graph (pre ++ u :: v :: post)) u = [v].
Proof.
  intros Hn. rewrite succs_path_graph.
  induction pre as [|a pre IH].
  - simpl app.
    change (steps (u :: v :: post)) with ((u, v) :: steps (v :: post)).
    cbn [filter fst]. rewrite str_eqb_refl. cbn [map snd]. f_equal.
    rewrite filter_none; [reflexivity|].
    intros [x y] Hxy. apply steps_In in Hxy. simpl.
    apply str_eqb_neq. intros ->.
    inversion Hn as [|? ? Hu _]. now destruct Hxy.
  - inversion Hn as [|? ? Ha Hn']; subst.
    simpl app. destruct (pre ++ u :: v :: post) as [|b l] eqn:E.
    + destruct pre; discriminate.
    + change (steps (a :: b :: l)) with ((a, b) :: steps (b :: l)).
      cbn [filter fst]. assert (Hau : str_eqb a u = false).
      { apply str_eqb_neq. intros ->. apply Ha. rewrite <- E.
        apply in_or_app. right. now left. }
      rewrite Hau. now apply IH.
Qed.

(** From a node of the chain, the search finds the chain and nothing else. *)
Lemma visit_path_graph (post pre : list str) (u : str) (budget : nat) :
  NoDup (pre ++ u :: post) -> length post <= budget ->
  visit (path_graph (pre ++ u :: post)) [last post u] budget pre u =
  [pre ++ u :: post].
Proof.
  revert pre u budget.
  induction post as [|v post IH]; intros pre u budget Hn Hb.
  - simpl last. apply visit_target.
  - destruct budget as [|b]; [simpl in Hb; lia|].
    assert (Hn' : NoDup ((pre ++ [u]) ++ v :: post))
      by now rewrite <- app_assoc.
    assert (Ht : In (last (v :: post) u) (v :: post)).
    { apply last_in. }
    assert (Hnt : ~ In (last (v :: post) u) (pre ++ [u])).
    { intros H. clear -Hn' Ht H.
      induction (pre ++ [u]) as [|a l IHl]; [destruct H|].
      inversion Hn' as [|? ? Ha Hl]; subst. destruct H as [->|H].
      - apply Ha. apply in_or_app. now right.
      - now apply IHl. }
    rewrite visit_S.
    assert (Hm : mem u [last (v :: post) u] = false).
    { apply mem_not_In. intros [H|[]]. apply Hnt. rewrite H.
      apply in_or_app. right. now left. }
    rewrite Hm.
    rewrite (remaining_true _ _ (last (v :: post) u));
      [|now left | exact Hnt].
    rewrite succs_path_graph_inside by exact Hn.
    cbn [flat_map app].
    assert (Hv : mem v (pre ++ [u]) = false).
    { apply mem_not_In. apply NoDup_remove_2 in Hn'.
      intros H. apply Hn'. apply in_or_app. now left. }
    rewrite Hv, app_nil_r, last_cons.
    replace (pre ++ u :: v :: post) with ((pre ++ [u]) ++ v :: post)
      by now rewrite <- app_assoc.
    apply IH; [exact Hn' | simpl in Hb; lia].
Qed.

Lemma all_simple_paths_path_graph (n0 : str) (rest : list str) :
  NoDup (n0 :: rest) ->
  all_simple_paths (path_graph (n0 :: rest)) n0 (last rest n0) =
  Ok [n0 :: rest] /\
  has_path (path_graph (n0 :: rest)) n0 (last rest n0) = Ok true.
Proof.
  intros Hn.
  assert (H0 : has_node (path_graph (n0 :: rest)) n0 = true)
    by (apply mem_In; now left).
  assert (Hl : has_node (path_graph (n0 :: rest)) (last rest n0) = true).
  { apply mem_In. rewrite <- last_cons with (v := n0). apply last_in. }
  assert (Hv : visit (path_graph (n0 :: rest)) [last rest n0]
                 (length (nodes (path_graph (n0 :: rest))) - 1) [] n0 =
               [n0 :: rest]).
  { apply (visit_path_graph rest [] n0); [exact Hn | simpl; lia]. }
  split.
  - unfold all_simple_paths, targets_of. now rewrite H0, Hl, Hv.
  - unfold has_path, reaches. now rewrite H0, Hl, Hv.
Qed.

(** *** The sequence of a path *)

Lemma extend_contig_Ok (rest : list str) (c0 c : str) :
  extend_contig c0 rest = Ok c ->
  c = c0 ++ map (fun node => last node "000"%char) rest.
Proof.
  revert c0. induction rest as [|node rest IH]; intros c0 H; simpl in H.
  - inversion H. now rewrite app_nil_r.
  - destruct node as [|x node]; simpl in H; [discriminate|].
    apply IH in H. rewrite H, <- app_assoc. simpl.
    do 3 f_equal. destruct node as [|y node]; [reflexivity|].
    apply last_default.
Qed.

Lemma extend_contig_nonempty (rest : list str) (c0 : str) :
  (forall node, In node rest -> node <> []) ->
  extend_contig c0 rest =
  Ok (c0 ++ map (fun node => last node "000"%char) rest).
Proof.
  revert c0. induction rest as [|node rest IH]; intros c0 H; simpl.
  - now rewrite app_nil_r.
  - destruct node as [|x node]; [elim (H []); [now left | reflexivity]|].
    simpl. rewrite IH by (intros n Hn; apply H; now right).
    rewrite <- app_assoc. simpl. do 4 f_equal.
    destruct node as [|y node]; [reflexivity|]. apply last_default.
Qed.

(** What [get_contigs] builds from a path is the sequence of the path. *)
Lemma contig_of_path_sequence (path : list str) (contig : str) (n : nat) :
  contig_of_path path = Ok (contig, n) ->
  contig = sequence_of_path path /\ n = length contig.
Proof.
  destruct path as [|first rest]; simpl; [discriminate|].
  destruct (extend_contig first rest) as [c|e] eqn:E; simpl; [|discriminate].
  intros H. inversion H; subst. split; [|reflexivity].
  now apply extend_contig_Ok.
Qed.

Lemma mapM_In {A B : Type} (f : A -> result B) (l : list A) (bs : list B)
    (b : B) :
  mapM f l = Ok bs -> In b bs -> exists a, In a l /\ f a = Ok b.
Proof.
  revert bs. induction l as [|a l IH]; intros bs H Hb; simpl in H.
  - inversion H; subst. destruct Hb.
  - destruct (f a) as [b0|e] eqn:Ea; simpl in H; [|discriminate].
    destruct (mapM f l) as [bs'|e] eqn:El; simpl in H; [|discriminate].
    inversion H; subst. destruct Hb as [->|Hb].
    + exists a. split; [now left | exact Ea].
    + destruct (IH bs' eq_refl Hb) as [a' [Ha' Hf]].
      exists a'. split; [now right | exact Hf].
Qed.

(** Every contig that [get_contigs] returns is the sequence of a path that
    [all_simple_paths] yields from a starting node to an ending node, with
    its length. *)
Lemma get_contigs_sequences (g : DiGraph)
    (starting_nodes ending_nodes : list str)
    (contigs : list (str * nat)) (contig : str) (n : nat) :
  get_contigs g starting_nodes ending_nodes = Ok contigs ->
  In (contig, n) contigs ->
  exists start stop paths path,
    In start starting_nodes /\ In stop ending_nodes /\
    all_simple_paths g start stop = Ok paths /\ In path paths /\
    contig = sequence_of_path path /\ n = length contig.
Proof.
  unfold get_contigs. intros H Hin.
  destruct (mapM _ starting_nodes) as [per_start|e] eqn:Es; simpl in H;
    [|discriminate].
  inversion H; subst. apply in_concat in Hin.
  destruct Hin as [cs [Hcs Hin]].
  destruct (mapM_In _ _ _ _ Es Hcs) as [start [Hstart Hf]].
  destruct (mapM (contigs_between g start) ending_nodes) as [per_end|e] eqn:Ee;
    simpl in Hf; [|discriminate].
  inversion Hf; subst. apply in_concat in Hin.
  destruct Hin as [cs' [Hcs' Hin]].
  destruct (mapM_In _ _ _ _ Ee Hcs') as [stop [Hstop Hb]].
  unfold contigs_between in Hb.
  destruct (has_path g start stop) as [[|]|e]; simpl in Hb;
    try discriminate.
  - destruct (all_simple_paths g start stop) as [paths|e] eqn:Ep; simpl in Hb;
      [|discriminate].
    destruct (mapM_In _ _ _ _ Hb Hin) as [path [Hpath Hc]].
    apply contig_of_path_sequence in Hc. destruct Hc as [Hc Hlen].
    exists start, stop, paths, path. auto 10.
  - inversion Hb; subst. destruct Hin.
Qed.

Lemma firstn_snoc {A : Type} (n : nat) (l : list A) (d : A) :
  n < length l -> firstn (S n) l = firstn n l ++ [nth n l d].
Proof.
  revert l. induction n as [|n IH]; intros l H.
  - destruct l; [simpl in H; lia | reflexivity].
  - destruct l as [|x l]; [simpl in H; lia|].
    simpl in H. change (firstn (S (S n)) (x :: l)) with (x :: firstn (S n) l).
    rewrite (IH l) by lia. reflexivity.
Qed.

Lemma last_window (read : str) (i j : nat) (d : ascii) :
  i + S j <= length read ->
  last (firstn (S j) (skipn i read)) d = nth (i + j) read d.
Proof.
  intros H. rewrite (firstn_snoc j _ d) by (rewrite length_skipn; lia).
  now rewrite last_last, nth_skipn.
Qed.

(** The first (k-1)-mer of a read followed by the last character of each
    of the others spells the read. *)
Lemma sequence_of_windows (read : str) (j : nat) :
  S j <= length read ->
  sequence_of_path (cut_kmer read (Z.of_nat (S j))) = read.
Proof.
  intros Hj. rewrite cut_kmer_windows.
  replace (length read + 1 - S j) with (S (length read - S j)) by lia.
  change (seq 0 (S (length read - S j)))
    with (0 :: seq 1 (length read - S j)).
  rewrite map_cons. unfold sequence_of_path. rewrite map_map.
  change (skipn 0 read) with read.
  rewrite <- (firstn_skipn (S j) read) at 3. f_equal.
  apply nth_error_ext. intros n.
  rewrite nth_error_map, nth_error_seq, nth_error_skipn.
  destruct (n <? length read - S j) eqn:E.
  - apply Nat.ltb_lt in E. cbn [option_map].
    rewrite last_window by lia.
    rewrite (nth_error_nth' read "000"%char) by lia.
    do 2 f_equal. lia.
  - apply Nat.ltb_ge in E. cbn [option_map]. symmetry.
    apply nth_error_None. lia.
Qed.

Lemma cut_kmer_nonempty (read : str) (j : nat) (node : str) :
  In node (cut_kmer read (Z.of_nat (S j))) -> node <> [].
Proof.
  rewrite cut_kmer_windows. intros H. apply in_map_iff in H.
  destruct H as [i [<- Hi]]. apply in_seq in Hi.
  intros E. apply (f_equal (@length ascii)) in E.
  rewrite length_firstn, length_skipn in E.
  change (length (@nil ascii)) with 0 in E. lia.
Qed.

(** The contigs of the graph of one read without a repeated (k-1)-mer, for
    k-mers of [S (S j)] characters. *)
Lemma single_read_assembly (read : str) (j : nat) :
  S (S j) <= length read -> NoDup (cut_kmer read (Z.of_nat (S j))) ->
  let g := build_graph (build_kmer_dict [read] (Z.of_nat (S (S j)))) in
  get_contigs g (get_starting_nodes g) (get_sink_nodes g) =
  Ok [(read, length read)].
Proof.
  intros Hlen Hn.
  cbv zeta. rewrite build_graph_single by (exact Hn || lia).
  pose proof (sequence_of_windows read j ltac:(lia)) as Hseq.
  pose proof (cut_kmer_nonempty read j) as Hne.
  assert (Hsize : 2 <= length (cut_kmer read (Z.of_nat (S j)))).
  { rewrite cut_kmer_windows, length_map, length_seq. lia. }
  destruct (cut_kmer read (Z.of_nat (S j))) as [|n0 [|n1 rest]];
    simpl in Hsize; try lia.
  rewrite (get_starting_nodes_path_graph n0 (n1 :: rest)) by exact Hn.
  rewrite (get_sink_nodes_path_graph (n0 :: n1 :: rest) n0)
    by (exact Hn || discriminate).
  rewrite last_cons.
  destruct (all_simple_paths_path_graph n0 (n1 :: rest) Hn) as [Hp Hh].
  unfold get_contigs. cbn [mapM bind]. unfold contigs_between.
  rewrite Hh. cbn [bind]. rewrite Hp. cbn [bind mapM].
  unfold contig_of_path.
  rewrite extend_contig_nonempty
    by (intros node Hnode; apply Hne; now right).
  change (n0 ++ map (fun node => last node "000"%char) (n1 :: rest))
    with (sequence_of_path (n0 :: n1 :: rest)).
  rewrite Hseq. cbn [bind concat app]. reflexivity.
Qed.

(** C1, amended.  For a single read of length at least k (k at least 2)
    in which no (k-1)-mer occurs twice, the graph built from the k-mers of
    the read, with its starting nodes and its sink nodes, gives exactly one
    contig, which is the read with its length.  On any graph, every contig
    that [get_contigs] returns is the first node of an enumerated path from
    a starting node to an ending node followed by the last character of each
    later node of the path. *)
Theorem single_read_contig (read : str) (kmer_size : Z) :
  (2 <= kmer_size)%Z -> (kmer_size <= Z.of_nat (length read))%Z ->
  NoDup (cut_kmer read (kmer_size - 1)) ->
  (let g := build_graph (build_kmer_dict [read] kmer_size) in
   get_contigs g (get_starting_nodes g) (get_sink_nodes g) =
   Ok [(read, length read)]) /\
  (forall g starting_nodes ending_nodes contigs contig n,
      get_contigs g starting_nodes ending_nodes = Ok contigs ->
      In (contig, n) contigs ->
      exists start stop paths path,
        In start starting_nodes /\ In stop ending_nodes /\
        all_simple_paths g start stop = Ok paths /\ In path paths /\
        contig = sequence_of_path path /\ n = length contig).
Proof.
  intros Hk Hlen Hn. split; [|apply get_contigs_sequences].
  destruct (Z_of_nat_complete kmer_size) as [k ->]; [lia|].
  destruct k as [|[|j]]; try lia.
  replace (Z.of_nat (S (S j)) - 1)%Z with (Z.of_nat (S j)) in Hn by lia.
  apply single_read_assembly; [lia | exact Hn].
Qed.

Lemma single_read_contig_witness :
  (let g := build_graph (build_kmer_dict [py "TATAAT"] 4) in
   get_contigs g (get_starting_nodes g) (get_sink_nodes g) =
   Ok [(py "TATAAT", 6)]) /\
  (forall g starting_nodes ending_nodes contigs contig n,
      get_contigs g starting_nodes ending_nodes = Ok contigs ->
      In (contig, n) contigs ->
      exists start stop paths path,
        In start starting_nodes /\ In stop ending_nodes /\
        all_simple_paths g start stop = Ok paths /\ In path paths /\
        contig = sequence_of_path path /\ n = length contig).
Proof.
  apply (single_read_contig (py "TATAAT") 4).
  - lia.
  - simpl. lia.
  - vm_compute. repeat constructor; simpl; intuition discriminate.
Defined.

(** ** Reaching a node *)

Lemma linked_suffix (g : DiGraph) (l1 l2 : list str) :
  linked g (l1 ++ l2) -> linked g l2.
Proof.
  induction l1 as [|a l1 IH]; intros H; [exact H|].
  apply IH. simpl in H. destruct (l1 ++ l2); [exact I | now destruct H].
Qed.

Lemma last_app_cons (l1 l2 : list str) (u d : str) :
  last (l1 ++ u :: l2) d = last l2 u.
Proof.
  induction l1 as [|a l1 IH]; simpl app.
  - apply last_cons.
  - rewrite <- IH. destruct (l1 ++ u :: l2) eqn:E; [|reflexivity].
    destruct l1; discriminate.
Qed.

(** A walk of the graph can be cut down to a path of distinct nodes with
    the same ends. *)
Lemma linked_shorten (g : DiGraph) (rest : list str) :
  forall u, linked g (u :: rest) ->
            exists rest', NoDup (u :: rest') /\ linked g (u :: rest') /\
                          last rest' u = last rest u.
Proof.
  induction rest as [|w rest IH]; intros u Hl.
  - exists []. repeat split; auto. repeat constructor. intros [].
  - destruct Hl as [Huw Hl]. destruct (IH w Hl) as [r1 [Hn [Hl1 Hlast]]].
    destruct (in_dec str_eq_dec u (w :: r1)) as [Hin|Hin].
    + apply in_split in Hin. destruct Hin as [l1 [l2 E]].
      exists l2. rewrite E in Hn, Hl1. split; [|split].
      * apply NoDup_app_remove_l in Hn. exact Hn.
      * now apply linked_suffix in Hl1.
      * rewrite last_cons, <- Hlast, <- (last_cons w u r1), E.
        symmetry. apply last_app_cons.
    + exists (w :: r1). split; [|split].
      * now constructor.
      * split; assumption.
      * now rewrite !last_cons.
Qed.

(** On a well-formed graph, [reaches] tells whether a walk leads from one
    node to the other. *)
Lemma reaches_walk (g : DiGraph) (u v : str) :
  wf g -> has_node g u = true ->
  (reaches g u v = true <->
   exists rest, linked g (u :: rest) /\ last rest u = v).
Proof.
  intros Hwf Hu. unfold reaches. split.
  - destruct (visit g [v] (length (nodes g) - 1) [] u) as [|p ps] eqn:E;
      [discriminate|].
    intros _. assert (Hin : In p (visit g [v] (length (nodes g) - 1) [] u))
      by (rewrite E; now left).
    apply visit_sound in Hin. destruct Hin as [rest [-> [Hlast [Hl _]]]].
    exists rest. destruct Hlast as [Hlast|[]]. split; [now apply Hl | auto].
  - intros [rest [Hl Hlast]].
    destruct (linked_shorten g rest u Hl) as [r [Hn [Hlr Hlast']]].
    assert (Hin : In ([] ++ u :: r) (visit g [v] (length (nodes g) - 1) [] u)).
    { apply visit_complete; try assumption; [congruence|].
      assert (Hi : incl (u :: r) (nodes g)).
      { intros x [<-|Hx]; [now apply mem_In|].
        now apply (linked_nodes g (u :: r) Hwf Hlr). }
      pose proof (NoDup_incl_length Hn Hi) as Hlen. simpl in Hlen. lia. }
    destruct (visit g [v] (length (nodes g) - 1) [] u); [destruct Hin|].
    reflexivity.
Qed.

Lemma descend_in_common (g : DiGraph) (common : list str) (fuel : nat) :
  forall c, In c common -> In (descend g common fuel c) common.
Proof.
  induction fuel as [|fuel IH]; intros c Hc; simpl; [exact Hc|].
  destruct (find (fun x => mem x common) (succs g c)) as [lower|] eqn:E;
    [|exact Hc].
  apply IH. apply find_some in E. destruct E as [_ E]. now apply mem_In.
Qed.

(** In an acyclic graph a walk never comes back to a node. *)
Lemma acyclic_walk_NoDup (g : DiGraph) (l : list str) :
  wf g -> is_directed_acyclic_graph g = true -> linked g l -> NoDup l.
Proof.
  intros Hwf Hdag. induction l as [|a l IH]; intros Hl; [constructor|].
  assert (Hl' : linked g l) by (destruct l; [exact I | now destruct Hl]).
  constructor; [|now apply IH].
  intros Hin. destruct l as [|y l]; [destruct Hin|].
  destruct Hl as [Hay _].
  assert (Hy : has_node g y = true).
  { apply mem_In. apply succs_In in Hay. destruct Hay as [w He].
    now destruct (wf_ends g Hwf _ He). }
  assert (Hr : reaches g y a = true).
  { apply reaches_walk; try assumption.
    destruct Hin as [->|Hin]; [now exists []|].
    apply in_split in Hin. destruct Hin as [l1 [l2 E]].
    exists (l1 ++ [a]). split.
    - rewrite E in Hl'.
      replace (y :: l1 ++ a :: l2) with ((y :: l1 ++ [a]) ++ l2) in Hl'
        by (simpl; now rewrite <- app_assoc).
      clear -Hl'. revert Hl'. generalize (y :: l1 ++ [a]).
      intros l. induction l as [|x l IHl]; intros H; [exact I|].
      destruct l as [|z l]; [exact I|].
      simpl in H. destruct H as [Hxz H]. split; [exact Hxz|].
      now apply IHl.
    - apply last_last. }
  unfold is_directed_acyclic_graph in Hdag. rewrite forallb_forall in Hdag.
  apply succs_In in Hay. destruct Hay as [w He].
  specialize (Hdag _ He). unfold esrc, edst in Hdag. simpl in Hdag.
  rewrite Hr in Hdag. discriminate.
Qed.

(** In an acyclic graph the descent ends, within the budget it is given, at
    a common ancestor that has no common ancestor among its successors. *)
Lemma descend_lowest (g : DiGraph) (common : list str) :
  wf g -> is_directed_acyclic_graph g = true ->
  forall (fuel : nat) (trail : list str) (c : str),
    linked g (trail ++ [c]) -> incl (trail ++ [c]) (nodes g) ->
    length (nodes g) <= length trail + fuel ->
    find (fun x => mem x common) (succs g (descend g common fuel c)) = None.
Proof.
  intros Hwf Hdag. induction fuel as [|fuel IH]; intros trail c Hl Hi Hlen.
  - exfalso. pose proof (acyclic_walk_NoDup g _ Hwf Hdag Hl) as Hn.
    pose proof (NoDup_incl_length Hn Hi) as Hle.
    rewrite length_app in Hle. simpl in Hle. lia.
  - simpl. destruct (find (fun x => mem x common) (succs g c)) as [lower|]
      eqn:E; [|exact E].
    apply find_some in E. destruct E as [Hs _].
    apply (IH (trail ++ [c]) lower).
    + rewrite <- app_assoc. now apply linked_app_one.
    + intros x Hx. apply in_app_or in Hx. destruct Hx as [Hx|[<-|[]]].
      * now apply Hi.
      * apply succs_In in Hs. destruct Hs as [w He].
        now destruct (wf_ends g Hwf _ He).
    + rewrite length_app. simpl. lia.
Qed.

(** The node that [lowest_common_ancestor] returns from the common
    ancestors reaches both nodes, and no successor of it does. *)
Lemma lowest_common_ancestor_lowest (seed : list str -> nat) (g : DiGraph)
    (v w a : str) :
  wf g -> lowest_common_ancestor seed g v w None = Ok (Some a) ->
  reaches g a v = true /\ reaches g a w = true /\
  forall s, In s (succs g a) -> reaches g s v && reaches g s w = false.
Proof.
  intros Hwf. unfold lowest_common_ancestor, first_of_set.
  destruct (is_directed_acyclic_graph g) eqn:Hdag; simpl; [|discriminate].
  destruct (length (nodes g) =? 0); [discriminate|].
  destruct (negb (has_node g v && has_node g w)); [discriminate|].
  cbv zeta. set (common := common_ancestors g v w).
  destruct (nth_error common (seed common mod length common)) as [c|] eqn:E;
    [|discriminate].
  intros H. inversion H; subst a. apply nth_error_In in E.
  pose proof (descend_in_common g common (length (nodes g)) c E) as Hd.
  assert (Hc : In c (nodes g)).
  { unfold common, common_ancestors in E. apply filter_In in E. tauto. }
  pose proof (descend_lowest g common Hwf Hdag (length (nodes g)) [] c I)
    as Hlow.
  unfold common at 1, common_ancestors in Hd. apply filter_In in Hd.
  destruct Hd as [_ Hd]. apply andb_true_iff in Hd. destruct Hd as [Hv Hw].
  split; [exact Hv|]. split; [exact Hw|].
  intros s Hs.
  assert (Hf : find (fun x => mem x common)
                 (succs g (descend g common (length (nodes g)) c)) = None).
  { apply Hlow; [|simpl; lia]. intros x [<-|[]]. exact Hc. }
  pose proof (find_none _ _ Hf s Hs) as Hm. simpl in Hm.
  apply mem_not_In in Hm.
  destruct (reaches g s v && reaches g s w) eqn:Er; [|reflexivity].
  elim Hm. unfold common, common_ancestors. apply filter_In.
  split; [|exact Er].
  apply succs_In in Hs. destruct Hs as [x He].
  now destruct (wf_ends g Hwf _ He).
Qed.

(** ** The mean of no data is never asked for *)

Lemma mapM_Ok {A B : Type} (f : A -> result B) (l : list A) :
  (forall a, In a l -> exists b, f a = Ok b) -> exists bs, mapM f l = Ok bs.
Proof.
  induction l as [|a l IH]; intros H; simpl.
  - now exists [].
  - destruct (H a (or_introl eq_refl)) as [b ->].
    destruct IH as [bs ->]; [intros x Hx; apply H; now right|].
    simpl. now exists (b :: bs).
Qed.

Lemma mark_paths_weighted (g : DiGraph) (paths : list (list str))
    (marked : list str) (g' : DiGraph) :
  (forall p, In p paths -> weighted g p) ->
  mark_paths g paths marked <> Thrown StatisticsError g'.
Proof.
  intros H. unfold mark_paths. destruct paths as [|p ps]; [discriminate|].
  destruct (mapM_Ok (path_average_weight g) (p :: ps) H) as [ws ->].
  simpl. destruct (argmax Qltb ws); discriminate.
Qed.

(** The paths found from a source to another node have an average weight. *)
Lemma visit_weighted (g : DiGraph) (s t : str) (budget : nat) (p : list str) :
  s <> t -> In p (visit g [t] budget [] s) -> weighted g p.
Proof.
  intros Hne Hin. apply visit_sound in Hin.
  destruct Hin as [rest [-> [Hlast [Hl _]]]]. simpl in *.
  destruct Hlast as [Hlast|[]]. specialize (Hl I).
  destruct rest as [|v rest]; [simpl in Hlast; congruence|].
  destruct (linked_first_edge g (s :: v :: rest) Hl) as [e [Hin [Ha Hb]]];
    [simpl; lia|].
  now apply (path_average_weight_Ok g _ e).
Qed.

Lemma entry_tip_at_no_empty_mean (g : DiGraph) (node : str)
    (marked : list str) (g' : DiGraph) :
  entry_tip_at g node marked <> Thrown StatisticsError g'.
Proof.
  unfold entry_tip_at, successors, predecessors, all_simple_paths.
  destruct (has_node g node) eqn:Hn; simpl; [|discriminate].
  destruct (succs g node) as [|successor [|s2 ss]] eqn:Hs; try discriminate.
  destruct (has_node g successor) eqn:Hsucc; simpl; [|discriminate].
  destruct (1 <? length (preds g successor)); [|discriminate].
  apply mark_paths_weighted. intros p Hp.
  unfold targets_of in Hp. rewrite Hsucc in Hp.
  destruct (str_eq_dec node successor) as [E|E].
  - subst successor. rewrite visit_target in Hp. destruct Hp as [<-|[]].
    assert (Hin : In node (succs g node)) by (rewrite Hs; now left).
    apply succs_In in Hin. destruct Hin as [w Hin].
    apply (path_average_weight_Ok g _ (node, node, w)); simpl; auto.
  - exact (visit_weighted g node successor _ p E Hp).
Qed.

Lemma entry_tips_loop_no_empty_mean (todo : list str) (g : DiGraph)
    (marked : list str) (g' : DiGraph) :
  entry_tips_loop todo g marked <> Raise StatisticsError g'.
Proof.
  revert g marked. induction todo as [|node todo IH]; intros g marked; simpl;
    [discriminate|].
  pose proof (entry_tip_at_no_empty_mean g node marked) as H.
  destruct (entry_tip_at g node marked) as [g1 m1|e g1]; [apply IH|].
  intros E. inversion E; subst. now apply (H g').
Qed.

Lemma best_of_weighted (g : DiGraph) (paths : list (list str)) :
  (forall p, In p paths -> weighted g p) ->
  forall best_path best_weight best_length,
  exists r, best_of g paths best_path best_weight best_length = Ok r.
Proof.
  induction paths as [|p paths IH]; intros H b w l; simpl.
  - now exists b.
  - destruct (H p (or_introl eq_refl)) as [q ->]. simpl.
    destruct (better q (Z.of_nat (length p)) w l); apply IH;
      intros x Hx; apply H; now right.
Qed.

Lemma solve_bubble_no_empty_mean (g : DiGraph) (a d : str) (g' : DiGraph) :
  has_node g d = true -> solve_bubble g a d <> Raise StatisticsError g'.
Proof.
  intros Hd. unfold solve_bubble, all_simple_paths, targets_of. rewrite Hd.
  destruct (has_node g a); simpl; [|discriminate].
  destruct (length (visit g [d] (length (nodes g) - 1) [] a) <=? 1) eqn:E;
    [discriminate|].
  assert (Hne : a <> d).
  { intros ->. rewrite visit_target in E. discriminate E. }
  destruct (best_of_weighted g (visit g [d] (length (nodes g) - 1) [] a))
    with (best_path := @None (list str)) (best_weight := (-1)%Q)
         (best_length := (-1)%Z) as [r Hr].
  - intros p Hp. exact (visit_weighted g a d _ p Hne Hp).
  - rewrite Hr. discriminate.
Qed.

Lemma has_node_remove_nodes_from (g : DiGraph) (ns : list str) (d : str) :
  ~ In d ns -> has_node (remove_nodes_from g ns) d = has_node g d.
Proof.
  intros Hd. rewrite remove_nodes_from_filter. unfold has_node. simpl.
  destruct (mem d (nodes g)) eqn:E.
  - apply mem_In. apply filter_In. split; [now apply mem_In|].
    now apply negb_true_iff, mem_not_In.
  - apply mem_not_In. intros H. apply filter_In in H. destruct H as [H _].
    apply mem_In in H. congruence.
Qed.

Lemma interior_snoc {A : Type} (a z : A) (mid : list A) :
  interior (a :: mid ++ [z]) = mid.
Proof.
  unfold interior, slice. simpl skipn. simpl length.
  rewrite length_app. simpl length.
  replace (S (length mid + 1) - 1 - 1) with (length mid) by lia.
  rewrite firstn_app, firstn_all, Nat.sub_diag. simpl. apply app_nil_r.
Qed.

(** The last node of a path of distinct nodes is not in its interior. *)
Lemma interior_not_last (a : str) (rest : list str) :
  NoDup (a :: rest) -> ~ In (last rest a) (interior (a :: rest)).
Proof.
  intros Hn. destruct rest as [|b rest]; [intros []|].
  assert (Hne : b :: rest <> []) by discriminate.
  rewrite (app_removelast_last a Hne) in Hn |- * at 2.
  rewrite interior_snoc.
  inversion Hn as [|? ? _ Hn']; subst.
  apply NoDup_remove_2 in Hn'. now rewrite app_nil_r in Hn'.
Qed.

Lemma drop_others_keeps (g : DiGraph) (paths : list (list str))
    (best_path : option (list str)) (d : str) :
  (forall p, In p paths -> ~ In d (interior p)) ->
  has_node (drop_others g paths best_path) d = has_node g d.
Proof.
  revert g. induction paths as [|p paths IH]; intros g H; [reflexivity|].
  simpl. assert (H' : forall x, In x paths -> ~ In d (interior x))
    by (intros x Hx; apply H; now right).
  destruct (is_best best_path p); [now apply IH|].
  rewrite IH by exact H'. apply has_node_remove_nodes_from.
  apply H. now left.
Qed.

(** [solve_bubble] leaves the descendant node in the graph. *)
Lemma solve_bubble_keeps (g : DiGraph) (a d : str) :
  has_node g d = true -> has_node (state (solve_bubble g a d)) d = true.
Proof.
  intros Hd. unfold solve_bubble, all_simple_paths, targets_of. rewrite Hd.
  destruct (has_node g a); simpl; [|exact Hd].
  destruct (length (visit g [d] (length (nodes g) - 1) [] a) <=? 1);
    [exact Hd|].
  destruct (best_of g _ None (-1)%Q (-1)%Z) as [best|e]; simpl; [|exact Hd].
  rewrite drop_others_keeps; [exact Hd|].
  intros p Hp. apply visit_sound in Hp.
  destruct Hp as [rest [-> [Hlast [_ Hn]]]]. simpl in *.
  destruct Hlast as [Hlast|[]]. rewrite Hlast.
  apply interior_not_last. apply Hn. repeat constructor. intros [].
Qed.

Lemma solve_from_predecessors_safe (ps : list str) (lca node : str)
    (g : DiGraph) :
  has_node g node = true ->
  has_node (state (solve_from_predecessors g ps lca node)) node = true /\
  forall g', solve_from_predecessors g ps lca node <> Raise StatisticsError g'.
Proof.
  revert g. induction ps as [|p ps IH]; intros g Hn; simpl.
  - split; [exact Hn | discriminate].
  - destruct (str_eqb p lca); [now apply IH|].
    pose proof (solve_bubble_keeps g p node Hn) as Hk.
    pose proof (solve_bubble_no_empty_mean g p node) as Hs.
    destruct (solve_bubble g p node) as [g1|e g1]; simpl in *.
    + now apply IH.
    + split; [exact Hk|]. intros g' E. inversion E; subst.
      now apply (Hs g').
Qed.

Lemma preds_In (g : DiGraph) (u v : str) :
  In u (preds g v) <-> exists w, In (u, v, w) (edges g).
Proof.
  unfold preds. rewrite in_map_iff. split.
  - intros [[[a b] w] [Ha Hin]]. apply filter_In in Hin.
    destruct Hin as [Hin Hb]. apply str_eqb_eq in Hb.
    unfold esrc, edst in *. simpl in *. subst. now exists w.
  - intros [w Hin]. exists (u, v, w). split; [reflexivity|].
    apply filter_In. split; [exact Hin | apply str_eqb_refl].
Qed.

Lemma reaches_refl (g : DiGraph) (v : str) : reaches g v v = true.
Proof. unfold reaches. now rewrite visit_target. Qed.

(** In an acyclic graph no node reaches one of its predecessors. *)
Lemma acyclic_no_way_back (g : DiGraph) (p node : str) :
  is_directed_acyclic_graph g = true -> In p (preds g node) ->
  reaches g node p = false.
Proof.
  unfold is_directed_acyclic_graph. intros Hdag Hp.
  apply preds_In in Hp. destruct Hp as [w Hin].
  rewrite forallb_forall in Hdag. specialize (Hdag _ Hin).
  now apply negb_true_iff in Hdag.
Qed.

(** What a result of [lowest_common_ancestor] tells. *)
Lemma lowest_common_ancestor_Some (seed : list str -> nat) (g : DiGraph)
    (v w a : str) (default : option str) :
  lowest_common_ancestor seed g v w default = Ok (Some a) ->
  is_directed_acyclic_graph g = true /\
  (reaches g a v = true \/ default = Some a).
Proof.
  unfold lowest_common_ancestor, first_of_set.
  destruct (is_directed_acyclic_graph g); simpl; [|discriminate].
  destruct (length (nodes g) =? 0); [discriminate|].
  destruct (negb (has_node g v && has_node g w)); [discriminate|].
  cbv zeta. set (common := common_ancestors g v w).
  destruct (nth_error common (seed common mod length common)) as [c|] eqn:E.
  - intros H. inversion H; subst. split; [reflexivity|]. left.
    apply nth_error_In in E.
    pose proof (descend_in_common g common (length (nodes g)) c E) as Hd.
    unfold common, common_ancestors in Hd. apply filter_In in Hd.
    destruct Hd as [_ Hd]. apply andb_true_iff in Hd. now destruct Hd.
  - intros H. inversion H; subst. split; [reflexivity | now right].
Qed.

Lemma lowest_common_ancestor_Err (seed : list str -> nat) (g : DiGraph)
    (v w : str) (default : option str) (e : exn) :
  lowest_common_ancestor seed g v w default = Err e -> e <> StatisticsError.
Proof.
  unfold lowest_common_ancestor.
  destruct (negb (is_directed_acyclic_graph g)); [intros H; now inversion H|].
  destruct (length (nodes g) =? 0); [intros H; now inversion H|].
  destruct (negb (has_node g v && has_node g w)); [intros H; now inversion H|].
  cbv zeta. destruct (first_of_set seed (common_ancestors g v w)); discriminate.
Qed.

Lemma lca_of_predecessors_Err (seed : list str -> nat) (g : DiGraph)
    (ps : list str) (e : exn) :
  lca_of_predecessors seed g ps = Err e -> e <> StatisticsError.
Proof.
  destruct ps as [|p1 [|p2 [|p3 [|p4 ps]]]]; simpl;
    try (intros H; now inversion H); apply lowest_common_ancestor_Err.
Qed.

(** The ancestor that [simplify_bubbles] gets for a node is another node. *)
Lemma lca_of_predecessors_not_node (seed : list str -> nat) (g : DiGraph)
    (node a : str) :
  lca_of_predecessors seed g (preds g node) = Ok (Some a) -> a <> node.
Proof.
  intros H Ha. subst a.
  destruct (preds g node) as [|p1 [|p2 [|p3 [|p4 ps]]]] eqn:E; simpl in H;
    try discriminate.
  - apply lowest_common_ancestor_Some in H. destruct H as [Hdag [H|H]];
      [|discriminate].
    rewrite (acyclic_no_way_back g p1 node Hdag) in H; [discriminate|].
    rewrite E. now left.
  - apply lowest_common_ancestor_Some in H. destruct H as [Hdag [H|H]].
    + rewrite (acyclic_no_way_back g p1 node Hdag) in H; [discriminate|].
      rewrite E. now left.
    + inversion H; subst p3.
      assert (Hr : reaches g node node = false).
      { apply acyclic_no_way_back; [exact Hdag|]. rewrite E. simpl. auto. }
      rewrite reaches_refl in Hr. discriminate.
Qed.

Lemma bubble_at_no_empty_mean (seed : list str -> nat) (g : DiGraph)
    (node : str) (marked : list str) (g' : DiGraph) :
  bubble_at seed g node marked <> Thrown StatisticsError g'.
Proof.
  unfold bubble_at, predecessors.
  destruct (has_node g node) eqn:Hn; simpl; [|discriminate].
  destruct (1 <? length (preds g node)); [|discriminate].
  destruct (lca_of_predecessors seed g (preds g node)) as [[a|]|e] eqn:El;
    simpl; try discriminate.
  - apply lca_of_predecessors_not_node in El.
    destruct (solve_from_predecessors_safe (preds g node) a node g Hn)
      as [Hk Hs].
    destruct (solve_from_predecessors g (preds g node) a node) as [g1|e g1];
      simpl in Hk.
    + unfold all_simple_paths, targets_of. rewrite Hk.
      destruct (has_node g1 a); simpl; [|discriminate].
      apply mark_paths_weighted. intros p Hp.
      exact (visit_weighted g1 a node _ p El Hp).
    + intros E. inversion E; subst. now apply (Hs g').
  - apply lca_of_predecessors_Err in El. intros E. inversion E; subst.
    now apply El.
Qed.

Lemma bubbles_loop_no_empty_mean (seed : list str -> nat) (size : nat)
    (todo : list str) (g : DiGraph) (marked : list str) (g' : DiGraph) :
  bubbles_loop seed size todo g marked <> Raise StatisticsError g'.
Proof.
  revert g marked. induction todo as [|node todo IH]; intros g marked; simpl;
    destruct (negb (length (nodes g) =? size)); try discriminate.
  pose proof (bubble_at_no_empty_mean seed g node marked) as H.
  destruct (bubble_at seed g node marked) as [g1 m1|e g1]; [apply IH|].
  intros E. inversion E; subst. now apply (H g').
Qed.

(** ** The average weight: edges off the path are counted *)

(** C6: the code departs from its docstring, "the average weight of a
    path".  In [chord_graph] the path CAA, AAA, AAG is a path of the graph,
    its two edges have weights 2 and 2, and [path_average_weight] returns
    12/3, that is 4: the edge from CAA to AAG, of weight 8, which is not on
    the path, is counted too, since the weights are taken from
    [graph.subgraph(path)].  In [loop_graph] the one-node path AA gets the
    average weight 3, no failure. *)
Lemma path_average_weight_counts_chords :
  wf chord_graph /\
  linked chord_graph [py "CAA"; py "AAA"; py "AAG"] /\
  path_average_weight chord_graph [py "CAA"; py "AAA"; py "AAG"] =
  Ok (12 # 3) /\
  mean_of_steps chord_graph [py "CAA"; py "AAA"; py "AAG"] = Ok (4 # 2) /\
  ~ (12 # 3 == 4 # 2)%Q /\
  wf loop_graph /\
  path_average_weight loop_graph [py "AA"] = Ok (3 # 1).
Proof.
  split; [apply wfb_wf; reflexivity|].
  split; [vm_compute; intuition|].
  split; [reflexivity|].
  split; [reflexivity|].
  split; [intros H; discriminate H|].
  split; [apply wfb_wf; reflexivity | reflexivity].
Qed.

(** ** The k-mers of a read *)

Lemma window_split (read : str) (i k : nat) :
  i + k <= length read ->
  read = firstn i read ++ firstn k (skipn i read) ++ skipn k (skipn i read) /\
  length (firstn k (skipn i read)) = k.
Proof.
  intros H. split.
  - rewrite (firstn_skipn k (skipn i read)), (firstn_skipn i read). reflexivity.
  - rewrite length_firstn, length_skipn. lia.
Qed.

Lemma window_of_split (before kmer after : str) :
  firstn (length kmer) (skipn (length before) (before ++ kmer ++ after)) = kmer.
Proof.
  rewrite skipn_app, skipn_all, Nat.sub_diag. simpl.
  rewrite firstn_app, firstn_all, Nat.sub_diag. simpl. apply app_nil_r.
Qed.

(** X1 ([cut_kmer]): for any int [kmer_size], a read of length [n] gives
    [n + 1 - kmer_size] strings, none when that number is negative.  When
    [kmer_size] is not negative, the strings yielded are exactly the
    contiguous pieces of the read that have [kmer_size] characters. *)
Theorem cut_kmer_pieces (read : str) (kmer_size : Z) :
  length (cut_kmer read kmer_size) =
  Z.to_nat (Z.of_nat (length read) + 1 - kmer_size) /\
  ((0 <= kmer_size)%Z ->
   forall kmer,
     In kmer (cut_kmer read kmer_size) <->
     exists before after,
       read = before ++ kmer ++ after /\
       Z.of_nat (length kmer) = kmer_size).
Proof.
  split.
  - unfold cut_kmer. rewrite length_map, length_seq. f_equal. lia.
  - intros Hk kmer. destruct (Z_of_nat_complete kmer_size Hk) as [k ->].
    rewrite cut_kmer_windows, in_map_iff. split.
    + intros [i [<- Hi]]. apply in_seq in Hi.
      destruct (window_split read i k) as [Hs Hl]; [lia|].
      exists (firstn i read), (skipn k (skipn i read)).
      split; [assumption | now rewrite Hl].
    + intros [before [after [-> Hl]]]. apply Nat2Z.inj in Hl. subst k.
      exists (length before). split.
      * apply window_of_split.
      * apply in_seq. rewrite !length_app. lia.
Qed.

(** A negative size, as Python slices read it: [read[0:-1]] is the read
    less its last character, and the five other slices are empty. *)
Example cut_kmer_negative_size :
  cut_kmer (py "ACGT") (-1) = [py "ACG"; []; []; []; []; []].
Proof. reflexivity. Qed.

(** ** The dictionary of k-mers *)

Lemma dict_get_incr (d : kmer_dict) (kmer x : str) :
  dict_get (dict_incr d kmer) x =
  if str_eq_dec x kmer
  then Some (match dict_get d kmer with
             | Some c => (c + 1)%Z
             | None => 1%Z
             end)
  else dict_get d x.
Proof.
  induction d as [|[k' c] d IH]; simpl.
  - destruct (str_eq_dec x kmer); reflexivity.
  - destruct (str_eq_dec kmer k') as [->|Hk]; simpl.
    + destruct (str_eq_dec x k'); reflexivity.
    + rewrite IH. destruct (str_eq_dec x k') as [->|Hx].
      * destruct (str_eq_dec k' kmer); [congruence | reflexivity].
      * reflexivity.
Qed.

Lemma dict_incr_keys (d : kmer_dict) (kmer : str) :
  map fst (dict_incr d kmer) =
  if mem kmer (map fst d) then map fst d else map fst d ++ [kmer].
Proof.
  induction d as [|[k' c] d IH]; simpl; [reflexivity|].
  rewrite mem_cons.
  destruct (str_eq_dec kmer k') as [->|Hk]; simpl.
  - rewrite str_eqb_refl. reflexivity.
  - apply str_eqb_neq in Hk. rewrite Hk. simpl. rewrite IH.
    destruct (mem kmer (map fst d)); reflexivity.
Qed.

Lemma dict_incr_keys_NoDup (d : kmer_dict) (kmer : str) :
  NoDup (map fst d) -> NoDup (map fst (dict_incr d kmer)).
Proof.
  intros H. rewrite dict_incr_keys.
  destruct (mem kmer (map fst d)) eqn:E; [assumption|].
  apply NoDup_snoc; [assumption | apply mem_not_In; assumption].
Qed.

Lemma tally_keys_NoDup (l : list str) (d : kmer_dict) :
  NoDup (map fst d) -> NoDup (map fst (fold_left dict_incr l d)).
Proof.
  revert d. induction l as [|a l IH]; intros d H; simpl; [assumption|].
  apply IH, dict_incr_keys_NoDup, H.
Qed.

Lemma tally_get (l : list str) (d : kmer_dict) (x : str) :
  dict_get (fold_left dict_incr l d) x =
  match dict_get d x with
  | Some c => Some (c + Z.of_nat (count_occ str_eq_dec l x))%Z
  | None => if count_occ str_eq_dec l x =? 0 then None
            else Some (Z.of_nat (count_occ str_eq_dec l x))
  end.
Proof.
  revert d. induction l as [|a l IH]; intros d.
  - simpl. destruct (dict_get d x); [f_equal; lia | reflexivity].
  - change (fold_left dict_incr (a :: l) d)
      with (fold_left dict_incr l (dict_incr d a)).
    rewrite IH, dict_get_incr.
    destruct (str_eq_dec x a) as [->|Hx].
    + rewrite count_occ_cons_eq by reflexivity.
      destruct (dict_get d a); simpl Nat.eqb; cbv iota; f_equal; lia.
    + rewrite count_occ_cons_neq by congruence. reflexivity.
Qed.

Lemma build_kmer_dict_tally (reads : list str) (k : Z) :
  build_kmer_dict reads k = fold_left dict_incr (all_kmers reads k) [].
Proof.
  unfold build_kmer_dict, all_kmers. generalize (@nil (str * Z)).
  induction reads as [|r reads IH]; intros d; simpl; [reflexivity|].
  rewrite fold_left_app. apply IH.
Qed.

Lemma build_kmer_dict_keys_NoDup (reads : list str) (k : Z) :
  NoDup (map fst (build_kmer_dict reads k)).
Proof. rewrite build_kmer_dict_tally. apply tally_keys_NoDup. constructor. Qed.

(** X2 ([build_kmer_dict]): the dictionary has one entry per distinct k-mer
    of the reads, and the value of a k-mer is the number of times it occurs
    in the reads; a k-mer that does not occur has no entry. *)
Theorem build_kmer_dict_counts (reads : list str) (kmer_size : Z) :
  NoDup (map fst (build_kmer_dict reads kmer_size)) /\
  forall kmer,
    dict_get (build_kmer_dict reads kmer_size) kmer =
    if occurrences reads kmer_size kmer =? 0 then None
    else Some (Z.of_nat (occurrences reads kmer_size kmer)).
Proof.
  split; [apply build_kmer_dict_keys_NoDup|].
  intros kmer. rewrite build_kmer_dict_tally, tally_get. reflexivity.
Qed.

Lemma dict_incr_total (d : kmer_dict) (kmer : str) :
  fold_right Z.add 0%Z (map snd (dict_incr d kmer)) =
  (fold_right Z.add 0%Z (map snd d) + 1)%Z.
Proof.
  induction d as [|[k' c] d IH]; simpl; [reflexivity|].
  destruct (str_eq_dec kmer k'); simpl; [lia | rewrite IH; lia].
Qed.

Lemma tally_total (l : list str) (d : kmer_dict) :
  fold_right Z.add 0%Z (map snd (fold_left dict_incr l d)) =
  (fold_right Z.add 0%Z (map snd d) + Z.of_nat (length l))%Z.
Proof.
  revert d. induction l as [|a l IH]; intros d.
  - simpl. lia.
  - change (fold_left dict_incr (a :: l) d)
      with (fold_left dict_incr l (dict_incr d a)).
    rewrite IH, dict_incr_total. simpl length. lia.
Qed.

Lemma all_kmers_length (reads : list str) (k : Z) :
  length (all_kmers reads k) =
  list_sum (map (fun read => Z.to_nat (Z.of_nat (length read) + 1 - k))
                reads).
Proof.
  unfold all_kmers. induction reads as [|r reads IH]; simpl; [reflexivity|].
  rewrite length_app, IH. f_equal.
  unfold cut_kmer. rewrite length_map, length_seq. lia.
Qed.

(** X3 ([build_kmer_dict]): no k-mer is lost or counted twice: the counts of
    the dictionary add up to the number of k-mer positions of the reads, a
    read of length [n] having [n + 1 - kmer_size] of them, none when that
    number is negative. *)
Theorem build_kmer_dict_total (reads : list str) (kmer_size : Z) :
  fold_right Z.add 0%Z (map snd (build_kmer_dict reads kmer_size)) =
  Z.of_nat
    (list_sum (map (fun read => Z.to_nat (Z.of_nat (length read) + 1
                                          - kmer_size)) reads)).
Proof.
  rewrite build_kmer_dict_tally, tally_total, all_kmers_length. simpl. lia.
Qed.

(** ** The graph of a dictionary *)

Lemma add_node_In (g : DiGraph) (n m : str) :
  In m (nodes (add_node g n)) <-> In m (nodes g) \/ m = n.
Proof.
  unfold add_node. destruct (has_node g n) eqn:E; simpl.
  - apply mem_In in E. split; [auto|]. intros [H | ->]; assumption.
  - rewrite in_app_iff. simpl. intuition.
Qed.

Lemma add_node_edges (g : DiGraph) (n : str) : edges (add_node g n) = edges g.
Proof. unfold add_node. destruct (has_node g n); reflexivity. Qed.

Lemma add_edge_nodes_In (g : DiGraph) (u v : str) (w : Z) (m : str) :
  In m (nodes (add_edge g u v w)) <-> In m (nodes g) \/ m = u \/ m = v.
Proof.
  unfold add_edge. cbn [nodes]. rewrite !add_node_In. tauto.
Qed.

Lemma add_edge_edges (g : DiGraph) (u v : str) (w : Z) :
  edges (add_edge g u v w) = set_edge (edges g) u v w.
Proof. unfold add_edge. cbn [edges]. now rewrite !add_node_edges. Qed.

Lemma arcs_nodes (l : list edge) (g : DiGraph) (m : str) :
  In m (nodes (fold_left (fun g e => add_edge g (esrc e) (edst e) (eweight e))
                         l g)) <->
  In m (nodes g) \/ exists e, In e l /\ (esrc e = m \/ edst e = m).
Proof.
  revert g. induction l as [|a l IH]; intros g; simpl.
  - split; [auto|]. intros [H | [e [[] _]]]. exact H.
  - rewrite IH, add_edge_nodes_In. split.
    + intros [[H | [-> | ->]] | [e [He Hm]]].
      * now left.
      * right. exists a. auto.
      * right. exists a. auto.
      * right. exists e. auto.
    + intros [H | [e [[<- | He] Hm]]].
      * auto.
      * left. right. destruct Hm as [<- | <-]; auto.
      * right. exists e. auto.
Qed.

Lemma arcs_keys (l : list edge) (g : DiGraph) (key : str * str) :
  In key (map ekey (edges (fold_left
            (fun g e => add_edge g (esrc e) (edst e) (eweight e)) l g))) <->
  In key (map ekey (edges g)) \/ In key (map ekey l).
Proof.
  revert g. induction l as [|a l IH]; intros g; simpl.
  - tauto.
  - rewrite IH, add_edge_edges, set_edge_keys.
    assert (Ha : ekey a = (esrc a, edst a)) by (now destruct a as [[u v] w]).
    destruct (in_dec key_eq_dec (esrc a, edst a) (map ekey (edges g)))
      as [Hin | Hout].
    + rewrite Ha. split; [tauto|]. intros [H | [<- | H]]; auto.
    + rewrite in_app_iff, Ha. simpl. tauto.
Qed.

Lemma arcs_weights (l : list edge) (g : DiGraph) (e : edge) :
  In e (edges (fold_left (fun g e => add_edge g (esrc e) (edst e) (eweight e))
                         l g)) ->
  In e (edges g) \/ In e l.
Proof.
  revert g. induction l as [|a l IH]; intros g; simpl; [auto|].
  intros H. apply IH in H. destruct H as [H | H]; [|auto].
  rewrite add_edge_edges in H. apply set_edge_In in H.
  destruct H as [H | ->]; [auto|]. right. left.
  now destruct a as [[u v] w].
Qed.

Lemma set_edge_fresh (es : list edge) (u v : str) (w : Z) :
  ~ In (u, v) (map ekey es) -> set_edge es u v w = es ++ [(u, v, w)].
Proof.
  induction es as [|e es IH]; simpl; intros H; [reflexivity|].
  destruct (str_eqb (esrc e) u && str_eqb (edst e) v) eqn:E.
  - exfalso. apply H. left. apply andb_true_iff in E. destruct E as [E1 E2].
    apply str_eqb_eq in E1, E2. destruct e as [[a b] c].
    unfold esrc, edst, ekey in *. simpl in *. now subst.
  - f_equal. apply IH. intros Hin. apply H. now right.
Qed.

Lemma arcs_fresh (l : list edge) (g : DiGraph) :
  NoDup (map ekey (edges g) ++ map ekey l) ->
  edges (fold_left (fun g e => add_edge g (esrc e) (edst e) (eweight e)) l g) =
  edges g ++ l.
Proof.
  revert g. induction l as [|a l IH]; intros g H; simpl.
  - now rewrite app_nil_r.
  - simpl in H. assert (Hfresh : ~ In (esrc a, edst a) (map ekey (edges g))).
    { apply NoDup_remove_2 in H. intros Hin. apply H. apply in_or_app.
      left. now destruct a as [[u v] w]. }
    rewrite IH.
    + rewrite add_edge_edges, set_edge_fresh by assumption.
      rewrite <- app_assoc. destruct a as [[u v] w]. reflexivity.
    + rewrite add_edge_edges, set_edge_fresh by assumption.
      rewrite map_app, <- app_assoc. simpl.
      destruct a as [[u v] w]. exact H.
Qed.

Lemma kmer_determined (a b : str) :
  2 <= length a -> 2 <= length b ->
  removelast a = removelast b -> tl a = tl b -> a = b.
Proof.
  destruct a as [|x [|x' a]]; simpl; try lia.
  destruct b as [|y [|y' b]]; simpl; try lia.
  intros _ _ H1 H2. congruence.
Qed.

Lemma dict_get_In (d : kmer_dict) (kmer : str) (c : Z) :
  NoDup (map fst d) -> (In (kmer, c) d <-> dict_get d kmer = Some c).
Proof.
  induction d as [|[k' c'] d IH]; simpl; intros H.
  - split; [tauto | discriminate].
  - inversion H as [|? ? Hout Hd]; subst.
    destruct (str_eq_dec kmer k') as [->|Hk].
    + split.
      * intros [E | Hin]; [congruence|].
        exfalso. apply Hout. apply (in_map fst) in Hin. exact Hin.
      * intros E. left. congruence.
    + rewrite <- (IH Hd). split; [|auto].
      intros [E | Hin]; [congruence | assumption].
Qed.

Lemma occurrences_In (reads : list str) (k : Z) (kmer : str) :
  (occurrences reads k kmer =? 0) = false <-> In kmer (all_kmers reads k).
Proof.
  unfold occurrences. rewrite Nat.eqb_neq.
  rewrite (count_occ_In str_eq_dec). lia.
Qed.

Lemma all_kmers_size (reads : list str) (k : nat) (kmer : str) :
  In kmer (all_kmers reads (Z.of_nat k)) -> length kmer = k.
Proof.
  unfold all_kmers. rewrite in_flat_map. intros [read [_ H]].
  rewrite cut_kmer_windows, in_map_iff in H. destruct H as [i [<- Hi]].
  apply in_seq in Hi. apply window_split. lia.
Qed.

Lemma build_kmer_dict_entry (reads : list str) (k : Z) (kmer : str) (c : Z) :
  In (kmer, c) (build_kmer_dict reads k) <->
  In kmer (all_kmers reads k) /\ c = Z.of_nat (occurrences reads k kmer).
Proof.
  rewrite build_kmer_dict_tally, dict_get_In, tally_get
    by (apply tally_keys_NoDup; constructor).
  simpl dict_get. cbv iota. fold (occurrences reads k kmer).
  rewrite <- occurrences_In.
  destruct (occurrences reads k kmer =? 0).
  - split; [discriminate | intros [H _]; discriminate].
  - split; [intros H; split; congruence | intros [_ ->]; reflexivity].
Qed.

Lemma kmer_arcs_keys_NoDup (d : kmer_dict) :
  NoDup (map fst d) -> (forall kw, In kw d -> 2 <= length (fst kw)) ->
  NoDup (map ekey (map (fun kw => (removelast (fst kw), tl (fst kw), snd kw))
                       d)).
Proof.
  induction d as [|[k c] d IH]; simpl; intros Hnd Hlen; [constructor|].
  inversion Hnd as [|? ? Hout Hd]; subst. constructor.
  - rewrite map_map. intros Hin. apply in_map_iff in Hin.
    destruct Hin as [[k' c'] [E Hin]]. unfold ekey in E. simpl in E.
    apply Hout. apply in_map_iff. exists (k', c'). split; [|exact Hin].
    simpl. injection E as E1 E2. apply kmer_determined; auto.
    + apply (Hlen (k', c')). now right.
    + apply (Hlen (k, c)). now left.
  - apply IH; [assumption|]. intros kw Hkw. apply Hlen. now right.
Qed.

(** X4 ([build_graph] on [build_kmer_dict]): for k-mers of size at least 2,
    the graph has exactly one edge per distinct k-mer of the reads, in the
    order of the dictionary: it goes from the k-mer less its last character
    to the k-mer less its first, and its weight is the number of times the
    k-mer occurs in the reads. *)
Theorem build_graph_of_reads (reads : list str) (kmer_size : Z) :
  (2 <= kmer_size)%Z ->
  let g := build_graph (build_kmer_dict reads kmer_size) in
  edges g =
  map (fun kw => (removelast (fst kw), tl (fst kw), snd kw))
      (build_kmer_dict reads kmer_size) /\
  forall u v w,
    In (u, v, w) (edges g) <->
    exists kmer,
      In kmer (all_kmers reads kmer_size) /\
      u = removelast kmer /\ v = tl kmer /\
      w = Z.of_nat (occurrences reads kmer_size kmer).
Proof.
  intros Hk g.
  assert (He : edges g =
               map (fun kw => (removelast (fst kw), tl (fst kw), snd kw))
                   (build_kmer_dict reads kmer_size)).
  { unfold g. rewrite build_graph_edges. unfold graph_of_edges.
    rewrite arcs_fresh; [reflexivity|]. simpl.
    apply kmer_arcs_keys_NoDup.
    - apply build_kmer_dict_keys_NoDup.
    - intros [kmer c] Hin. apply build_kmer_dict_entry in Hin.
      destruct Hin as [Hin _].
      destruct (Z_of_nat_complete kmer_size) as [k Ek]; [lia|].
      rewrite Ek in Hin. apply all_kmers_size in Hin. simpl. lia. }
  split; [exact He|]. intros u v w. rewrite He, in_map_iff. split.
  - intros [[kmer c] [E Hin]]. simpl in E. injection E as <- <- <-.
    apply build_kmer_dict_entry in Hin. destruct Hin as [Hin ->].
    exists kmer. auto.
  - intros [kmer [Hin [-> [-> ->]]]].
    exists (kmer, Z.of_nat (occurrences reads kmer_size kmer)).
    split; [reflexivity|]. apply build_kmer_dict_entry. auto.
Qed.

Lemma build_graph_of_reads_witness :
  let reads := [py "TATAA"; py "ATAA"] in
  let g := build_graph (build_kmer_dict reads 4) in
  edges g =
  map (fun kw => (removelast (fst kw), tl (fst kw), snd kw))
      (build_kmer_dict reads 4) /\
  forall u v w,
    In (u, v, w) (edges g) <->
    exists kmer,
      In kmer (all_kmers reads 4) /\
      u = removelast kmer /\ v = tl kmer /\
      w = Z.of_nat (occurrences reads 4 kmer).
Proof.
  apply (build_graph_of_reads [py "TATAA"; py "ATAA"] 4). lia.
Defined.

Lemma build_graph_node_has_edge (d : kmer_dict) (n : str) :
  In n (nodes (build_graph d)) <->
  exists e, In e (edges (build_graph d)) /\ (esrc e = n \/ edst e = n).
Proof.
  split.
  - rewrite build_graph_edges. unfold graph_of_edges.
    intros Hn. apply arcs_nodes in Hn. destruct Hn as [[] | [e [He Hn]]].
    assert (Hkey : In (ekey e)
              (map ekey (edges (fold_left
                 (fun g e => add_edge g (esrc e) (edst e) (eweight e))
                 (map (fun kw => (removelast (fst kw), tl (fst kw), snd kw))
                      d) empty_graph)))).
    { apply arcs_keys. right. now apply in_map. }
    apply in_map_iff in Hkey. destruct Hkey as [e' [E He']].
    exists e'. split; [exact He'|].
    destruct e as [[a b] c], e' as [[a' b'] c'].
    unfold ekey, esrc, edst in *. simpl in *. now inversion E; subst.
  - intros [e [He Hn]]. apply (wf_ends _ (build_graph_wf d)) in He.
    destruct Hn as [<- | <-]; apply He.
Qed.

(** X5 ([build_graph], [get_starting_nodes], [get_sink_nodes]): the graph
    of a dictionary has no isolated node: its nodes are exactly the ends of
    its edges.  Hence no node of it is both a starting node and a sink. *)
Theorem build_graph_no_isolated_node (d : kmer_dict) (n : str) :
  (In n (nodes (build_graph d)) <->
   exists e, In e (edges (build_graph d)) /\ (esrc e = n \/ edst e = n)) /\
  (In n (get_starting_nodes (build_graph d)) ->
   In n (get_sink_nodes (build_graph d)) -> False).
Proof.
  split; [apply build_graph_node_has_edge|].
  unfold get_starting_nodes, get_sink_nodes. rewrite !filter_In.
  intros [Hn Hin] [_ Hout]. apply build_graph_node_has_edge in Hn.
  destruct Hn as [e [He Hn]].
  apply Nat.eqb_eq in Hin, Hout. unfold in_degree, out_degree in *.
  apply length_zero_iff_nil in Hin, Hout.
  destruct e as [[a b] c]. unfold esrc, edst in Hn. simpl in Hn.
  destruct Hn as [-> | ->].
  - assert (Hb : In b (succs (build_graph d) n))
      by (apply succs_In; now exists c).
    rewrite Hout in Hb. exact Hb.
  - assert (Ha : In a (preds (build_graph d) n))
      by (apply preds_In; now exists c).
    rewrite Hin in Ha. exact Ha.
Qed.

(** ** What simplification keeps of the graph of the reads *)

Lemma build_graph_node (d : kmer_dict) (n : str) :
  In n (nodes (build_graph d)) ->
  exists kw, In kw d /\ (n = removelast (fst kw) \/ n = tl (fst kw)).
Proof.
  rewrite build_graph_edges. unfold graph_of_edges. intros H.
  apply arcs_nodes in H. destruct H as [[] | [e [He Hn]]].
  apply in_map_iff in He. destruct He as [kw [<- Hkw]].
  exists kw. split; [exact Hkw|].
  unfold esrc, edst in Hn. simpl in Hn. destruct Hn as [<- | <-]; auto.
Qed.

Lemma build_graph_edge (d : kmer_dict) (e : edge) :
  In e (edges (build_graph d)) ->
  exists kw, In kw d /\ e = (removelast (fst kw), tl (fst kw), snd kw).
Proof.
  rewrite build_graph_edges. unfold graph_of_edges. intros H.
  apply arcs_weights in H. destruct H as [[] | H].
  apply in_map_iff in H. destruct H as [kw [<- Hkw]]. now exists kw.
Qed.

Lemma removelast_size (s : str) : length (removelast s) = length s - 1.
Proof.
  induction s as [|c [|c' s] IH]; try reflexivity.
  change (removelast (c :: c' :: s)) with (c :: removelast (c' :: s)).
  simpl length in *. rewrite IH. lia.
Qed.

Lemma tl_size (s : str) : length (tl s) = length s - 1.
Proof. destruct s; simpl; lia. Qed.

Lemma assembly_graph_node (reads : list str) (k : nat) (cs : list call)
    (n : str) :
  In n (nodes (assembly_graph reads (Z.of_nat k) cs)) -> length n = k - 1.
Proof.
  unfold assembly_graph. intros Hin.
  apply (reduct_subgraph _ _ (after_calls_reduct cs _)) in Hin.
  apply build_graph_node in Hin.
  destruct Hin as [[kmer c] [Hkw Hends]]. simpl in Hends.
  apply build_kmer_dict_entry in Hkw. destruct Hkw as [Hkmer _].
  apply all_kmers_size in Hkmer.
  destruct Hends as [-> | ->]; [rewrite removelast_size | rewrite tl_size];
    now rewrite Hkmer.
Qed.

(** X6 ([build_kmer_dict], [build_graph] and the simplification calls): the
    graph of a set of reads, whatever calls of [simplify_bubbles],
    [solve_bubble], [solve_entry_tips], [solve_out_tips], [remove_paths] and
    [select_best_path] were made on it and whether they returned or raised,
    is still a De Bruijn graph of the reads: its nodes are distinct, it has
    at most one edge per ordered pair of nodes, and every edge is a k-mer
    of the reads, from the k-mer less its last character to the k-mer less
    its first, weighted by the number of times that k-mer occurs, which is
    at least 1.  For [kmer_size] at least 1, every node has
    [kmer_size - 1] characters. *)
Theorem assembly_graph_invariant (reads : list str) (kmer_size : Z)
    (cs : list call) :
  let g := assembly_graph reads kmer_size cs in
  wf g /\
  ((1 <= kmer_size)%Z ->
   forall n, In n (nodes g) -> Z.of_nat (length n) = (kmer_size - 1)%Z) /\
  (forall u v w,
      In (u, v, w) (edges g) ->
      exists kmer,
        In kmer (all_kmers reads kmer_size) /\
        u = removelast kmer /\ v = tl kmer /\
        w = Z.of_nat (occurrences reads kmer_size kmer) /\ (1 <= w)%Z).
Proof.
  intros g. split; [apply after_calls_wf|]. split.
  - intros Hk n Hn. destruct (Z_of_nat_complete kmer_size) as [k Ek]; [lia|].
    unfold g in Hn. rewrite Ek in Hn. apply assembly_graph_node in Hn. lia.
  - intros u v w Hin. unfold g, assembly_graph in Hin.
    apply (reduct_subgraph _ _ (after_calls_reduct cs _)) in Hin.
    apply build_graph_edge in Hin.
    destruct Hin as [[kmer c] [Hkw E]]. simpl in E. injection E as -> -> ->.
    apply build_kmer_dict_entry in Hkw. destruct Hkw as [Hkmer ->].
    exists kmer. repeat split; try assumption.
    apply occurrences_In in Hkmer. apply Nat.eqb_neq in Hkmer. lia.
Qed.

(** X7 ([build_kmer_dict], [build_graph], [get_contigs]): k-mers of size 0
    or 1 give no contig: every k-mer then loses all its characters on both
    sides, the graph has no other node than the empty string, with an edge
    to itself, so that it has neither a starting node nor a sink. *)
Theorem short_kmers_give_no_contig (reads : list str) (kmer_size : Z) :
  (0 <= kmer_size <= 1)%Z ->
  let g := build_graph (build_kmer_dict reads kmer_size) in
  (forall n, In n (nodes g) -> n = []) /\
  get_starting_nodes g = [] /\ get_sink_nodes g = [] /\
  get_contigs g (get_starting_nodes g) (get_sink_nodes g) = Ok [].
Proof.
  intros Hk g.
  assert (Hnode : forall n, In n (nodes g) -> n = []).
  { intros n Hn. destruct (Z_of_nat_complete kmer_size) as [k Ek]; [lia|].
    unfold g in Hn. rewrite Ek in Hn.
    apply (assembly_graph_node reads k []) in Hn.
    apply length_zero_iff_nil. lia. }
  assert (Hloop : forall n, In n (nodes g) ->
                            In n (succs g n) /\ In n (preds g n)).
  { intros n Hn. pose proof (Hnode n Hn) as ->.
    apply build_graph_node_has_edge in Hn. destruct Hn as [e [He _]].
    destruct (wf_ends _ (build_graph_wf _) e He) as [Hs Ht].
    apply Hnode in Hs, Ht. destruct e as [[u v] w].
    unfold esrc, edst in Hs, Ht. simpl in Hs, Ht. subst u v.
    split; [apply succs_In | apply preds_In]; now exists w. }
  assert (Hs : get_starting_nodes g = []).
  { unfold get_starting_nodes. apply filter_none. intros n Hn.
    apply Nat.eqb_neq. unfold in_degree. destruct (Hloop n Hn) as [_ Hp].
    destruct (preds g n); [destruct Hp | discriminate]. }
  assert (Ht : get_sink_nodes g = []).
  { unfold get_sink_nodes. apply filter_none. intros n Hn.
    apply Nat.eqb_neq. unfold out_degree. destruct (Hloop n Hn) as [Hp _].
    destruct (succs g n); [destruct Hp | discriminate]. }
  repeat split; try assumption. now rewrite Hs.
Qed.

Lemma short_kmers_give_no_contig_witness :
  let g := build_graph (build_kmer_dict [py "TATAAT"] 1) in
  (forall n, In n (nodes g) -> n = []) /\
  get_starting_nodes g = [] /\ get_sink_nodes g = [] /\
  get_contigs g (get_starting_nodes g) (get_sink_nodes g) = Ok [].
Proof.
  apply (short_kmers_give_no_contig [py "TATAAT"] 1). lia.
Defined.

(** ** Contigs *)

Lemma sequence_of_path_length (first : str) (rest : list str) :
  length (sequence_of_path (first :: rest)) = length first + length rest.
Proof. simpl. now rewrite length_app, length_map. Qed.

Lemma contig_of_path_Ok (path : list str) :
  path <> [] -> (forall node, In node (tl path) -> node <> []) ->
  contig_of_path path =
  Ok (sequence_of_path path, length (sequence_of_path path)).
Proof.
  destruct path as [|first rest]; [congruence|]. intros _ Hne.
  unfold contig_of_path. rewrite extend_contig_nonempty by exact Hne.
  reflexivity.
Qed.

(** X8 ([cut_kmer] and the inner loop of [get_contigs]): the k-mers of a
    read, taken as a path, spell the read: chaining them as [get_contigs]
    does gives back the read and its length, for every k-mer size from 1 to
    the length of the read. *)
Theorem contig_of_kmers (read : str) (kmer_size : Z) :
  (1 <= kmer_size)%Z -> (kmer_size <= Z.of_nat (length read))%Z ->
  contig_of_path (cut_kmer read kmer_size) = Ok (read, length read).
Proof.
  intros H1 H2. destruct (Z_of_nat_complete kmer_size) as [k ->]; [lia|].
  destruct k as [|j]; [lia|].
  rewrite contig_of_path_Ok.
  - rewrite sequence_of_windows; [reflexivity | lia].
  - intros E. apply (f_equal (@length str)) in E.
    rewrite cut_kmer_windows, length_map, length_seq in E. simpl in E. lia.
  - intros node Hin. apply (cut_kmer_nonempty read j).
    destruct (cut_kmer read (Z.of_nat (S j))); [destruct Hin | now right].
Qed.

Lemma contig_of_kmers_witness :
  contig_of_path (cut_kmer (py "TATAAT") 3) = Ok (py "TATAAT", 6).
Proof.
  apply (contig_of_kmers (py "TATAAT") 3); simpl; lia.
Defined.

Lemma mapM_Err {A B : Type} (f : A -> result B) (l : list A) (e : exn) :
  (forall a, In a l -> (exists b, f a = Ok b) \/ f a = Err e) ->
  (exists a, In a l /\ f a = Err e) -> mapM f l = Err e.
Proof.
  induction l as [|a l IH]; intros Hall [x [Hx Hf]]; [destruct Hx|].
  simpl. destruct (Hall a (or_introl eq_refl)) as [[b Hb] | Ha].
  - rewrite Hb. simpl. rewrite IH; [reflexivity | |].
    + intros a' Ha'. apply Hall. now right.
    + destruct Hx as [-> | Hx]; [congruence|]. now exists x.
  - now rewrite Ha.
Qed.

Lemma contigs_between_Ok (g : DiGraph) (start stop : str) :
  wf g -> (forall n, In n (nodes g) -> n <> []) ->
  In start (nodes g) -> In stop (nodes g) ->
  exists contigs, contigs_between g start stop = Ok contigs.
Proof.
  intros Hwf Hne Hs Ht. apply mem_In in Hs, Ht.
  unfold contigs_between, has_path. fold (has_node g start) in Hs.
  fold (has_node g stop) in Ht. rewrite Hs, Ht. simpl.
  destruct (reaches g start stop); [|now exists []].
  destruct (all_simple_paths g start stop) as [paths|e] eqn:E.
  - simpl. apply mapM_Ok. intros p Hp.
    destruct (all_simple_paths_sound g start stop paths p E Hp)
      as [_ [Hl [Hhd _]]].
    eexists. apply contig_of_path_Ok.
    + intros ->. discriminate Hhd.
    + intros node Hnode. apply Hne. apply (linked_nodes g p Hwf Hl), Hnode.
  - unfold all_simple_paths in E. rewrite Hs in E. discriminate E.
Qed.

Lemma contigs_between_Err (g : DiGraph) (start stop : str) :
  ~ (In start (nodes g) /\ In stop (nodes g)) ->
  contigs_between g start stop = Err NodeNotFound.
Proof.
  intros H. unfold contigs_between, has_path.
  destruct (has_node g start) eqn:Es; [|reflexivity].
  destruct (has_node g stop) eqn:Et; [|reflexivity].
  exfalso. apply H. split; apply mem_In; assumption.
Qed.

Lemma get_contigs_Ok (g : DiGraph) (starting_nodes ending_nodes : list str) :
  wf g -> (forall n, In n (nodes g) -> n <> []) ->
  (forall start stop, In start starting_nodes -> In stop ending_nodes ->
                      In start (nodes g) /\ In stop (nodes g)) ->
  exists contigs, get_contigs g starting_nodes ending_nodes = Ok contigs.
Proof.
  intros Hwf Hne Hin. unfold get_contigs.
  destruct (mapM_Ok
              (fun start =>
                 per_end <- mapM (contigs_between g start) ending_nodes ;;
                 Ok (concat per_end)) starting_nodes) as [per_start E].
  - intros start Hs.
    destruct (mapM_Ok (contigs_between g start) ending_nodes) as [per_end E].
    + intros stop Ht. destruct (Hin start stop Hs Ht).
      now apply contigs_between_Ok.
    + rewrite E. simpl. eauto.
  - rewrite E. simpl. eauto.
Qed.

(** X9 ([get_contigs]): on a well-formed graph without an empty node
    name, the call returns a list whenever every pair of a starting node
    and an ending node given to it is made of nodes of the graph; if some
    pair is not, it raises [NodeNotFound] (out of [has_path]) and no contig
    is returned. *)
Theorem get_contigs_outcome (g : DiGraph)
    (starting_nodes ending_nodes : list str) :
  wf g -> (forall n, In n (nodes g) -> n <> []) ->
  ((forall start stop, In start starting_nodes -> In stop ending_nodes ->
                       In start (nodes g) /\ In stop (nodes g)) ->
   exists contigs, get_contigs g starting_nodes ending_nodes = Ok contigs) /\
  (forall start stop, In start starting_nodes -> In stop ending_nodes ->
                      ~ (In start (nodes g) /\ In stop (nodes g)) ->
                      get_contigs g starting_nodes ending_nodes =
                      Err NodeNotFound).
Proof.
  intros Hwf Hne. split; [now apply get_contigs_Ok|].
  intros start stop Hs Ht Hbad. unfold get_contigs.
  assert (Hstep : forall a b,
             (exists cs, contigs_between g a b = Ok cs) \/
             contigs_between g a b = Err NodeNotFound).
  { intros a b.
    destruct (in_dec str_eq_dec a (nodes g)) as [Ha|Ha];
      [destruct (in_dec str_eq_dec b (nodes g)) as [Hb|Hb]|].
    - left. now apply contigs_between_Ok.
    - right. apply contigs_between_Err. tauto.
    - right. apply contigs_between_Err. tauto. }
  rewrite (mapM_Err _ starting_nodes NodeNotFound); [reflexivity | |].
  - intros a _.
    destruct (mapM (contigs_between g a) ending_nodes) as [per_end|e] eqn:E.
    + left. simpl. eauto.
    + right. simpl. f_equal.
      assert (Hx : exists b, In b ending_nodes /\
                             contigs_between g a b = Err e).
      { clear - E. revert E. induction ending_nodes as [|b l IH]; simpl;
          [discriminate|].
        destruct (contigs_between g a b) as [c|e'] eqn:Eb; simpl.
        - destruct (mapM (contigs_between g a) l) eqn:El; simpl;
            [discriminate|].
          intros H. injection H as <-.
          destruct (IH eq_refl) as [x [Hx Hf]]. exists x. auto.
        - intros H. injection H as <-. exists b. auto. }
      destruct Hx as [b [_ Hb]]. destruct (Hstep a b) as [[cs Hc] | Hc];
        congruence.
  - exists start. split; [exact Hs|].
    rewrite (mapM_Err _ ending_nodes NodeNotFound); [reflexivity | |].
    + intros b _. apply Hstep.
    + exists stop. split; [exact Ht|]. now apply contigs_between_Err.
Qed.

Lemma get_contigs_outcome_witness :
  ((forall start stop, In start [py "CAA"] -> In stop [py "AAG"] ->
                       In start (nodes chord_graph) /\
                       In stop (nodes chord_graph)) ->
   exists contigs, get_contigs chord_graph [py "CAA"] [py "AAG"] = Ok contigs)
  /\
  (forall start stop, In start [py "CAA"] -> In stop [py "AAG"] ->
                      ~ (In start (nodes chord_graph) /\
                         In stop (nodes chord_graph)) ->
                      get_contigs chord_graph [py "CAA"] [py "AAG"] =
                      Err NodeNotFound).
Proof.
  apply (get_contigs_outcome chord_graph [py "CAA"] [py "AAG"]).
  - apply wfb_wf. reflexivity.
  - intros n Hn. simpl in Hn.
    destruct Hn as [<- | [<- | [<- | []]]]; discriminate.
Defined.

(** X10 (the pipeline up to [get_contigs]): for k-mers of size at least 2,
    extracting the contigs between the starting nodes and the sinks of the
    graph of the reads never fails, whatever simplification calls were made
    on the graph before; every contig comes with its length, and a contig
    read along a path of [m] nodes has [kmer_size - 1 + (m - 1)]
    characters. *)
Theorem assembly_contigs (reads : list str) (kmer_size : Z)
    (cs : list call) :
  (2 <= kmer_size)%Z ->
  let g := assembly_graph reads kmer_size cs in
  exists contigs,
    get_contigs g (get_starting_nodes g) (get_sink_nodes g) = Ok contigs /\
    forall contig n,
      In (contig, n) contigs ->
      n = length contig /\
      exists path,
        NoDup path /\ linked g path /\
        In (hd [] path) (get_starting_nodes g) /\
        In (last path []) (get_sink_nodes g) /\
        contig = sequence_of_path path /\
        Z.of_nat n = (kmer_size - 1 + (Z.of_nat (length path) - 1))%Z.
Proof.
  intros Hk. destruct (Z_of_nat_complete kmer_size) as [k ->]; [lia|].
  intros g.
  assert (Hwf : wf g) by apply after_calls_wf.
  assert (Hsize : forall n, In n (nodes g) -> length n = k - 1)
    by apply assembly_graph_node.
  destruct (get_contigs_Ok g (get_starting_nodes g) (get_sink_nodes g))
    as [contigs E].
  - exact Hwf.
  - intros n Hn ->. apply Hsize in Hn. simpl in Hn. lia.
  - intros start stop Hs Ht. unfold get_starting_nodes, get_sink_nodes in *.
    apply filter_In in Hs, Ht. tauto.
  - exists contigs. split; [exact E|]. intros contig n Hin.
    destruct (get_contigs_sequences g _ _ contigs contig n E Hin)
      as [start [stop [paths [path [Hs [Ht [Ep [Hp [Hc Hn]]]]]]]]].
    split; [exact Hn|].
    destruct (all_simple_paths_sound g start stop paths path Ep Hp)
      as [Hnd [Hl [Hhd Hlast]]].
    assert (Hstop : has_node g stop = true).
    { apply mem_In. unfold get_sink_nodes in Ht. apply filter_In in Ht.
      apply Ht. }
    unfold targets_of in Hlast. rewrite Hstop in Hlast.
    destruct Hlast as [Hlast | []].
    destruct path as [|first rest]; [discriminate Hhd|].
    injection Hhd as ->.
    exists (start :: rest). repeat split; try assumption.
    + rewrite (last_default rest start [] start), <- Hlast. exact Ht.
    + rewrite Hn, Hc, sequence_of_path_length. simpl length.
      rewrite (Hsize start); [lia|].
      unfold get_starting_nodes in Hs. apply filter_In in Hs. apply Hs.
Qed.

Lemma assembly_contigs_witness :
  let g := assembly_graph [py "TATAAT"; py "ATAATC"] 4 [] in
  exists contigs,
    get_contigs g (get_starting_nodes g) (get_sink_nodes g) = Ok contigs /\
    forall contig n,
      In (contig, n) contigs ->
      n = length contig /\
      exists path,
        NoDup path /\ linked g path /\
        In (hd [] path) (get_starting_nodes g) /\
        In (last path []) (get_sink_nodes g) /\
        contig = sequence_of_path path /\
        Z.of_nat n = (4 - 1 + (Z.of_nat (length path) - 1))%Z.
Proof.
  apply (assembly_contigs [py "TATAAT"; py "ATAATC"] 4 []). lia.
Defined.

(** ** What [remove_paths] removes, and when it raises *)

Lemma remove_each_app (a b : list str) (g : DiGraph) :
  remove_each g (a ++ b) =
  andThen (remove_each g a) (fun g' => remove_each g' b).
Proof.
  revert g. induction a as [|n a IH]; intros g; simpl; [reflexivity|].
  destruct (remove_node g n) as [g'|e g']; simpl; [apply IH | reflexivity].
Qed.

Lemma remove_paths_doomed (path_list : list (list str)) (de ds : bool)
    (g : DiGraph) :
  remove_paths g path_list de ds = remove_each g (doomed path_list de ds).
Proof.
  revert g. induction path_list as [|path rest IH]; intros g; [reflexivity|].
  unfold doomed. cbn [remove_paths flat_map]. fold (doomed rest de ds).
  destruct (length path <? 2); [apply IH|].
  rewrite remove_each_app.
  destruct (remove_each g _) as [g'|e g']; simpl; [apply IH | reflexivity].
Qed.

Lemma remove_each_outcome (ns : list str) (g : DiGraph) :
  (NoDup ns /\ incl ns (nodes g) /\
   remove_each g ns = Ret (remove_nodes_from g ns)) \/
  (exists done n rest,
      ns = done ++ n :: rest /\ NoDup done /\ incl done (nodes g) /\
      (In n done \/ ~ In n (nodes g)) /\
      remove_each g ns = Raise NetworkXError (remove_nodes_from g done)).
Proof.
  revert g. induction ns as [|n ns IH]; intros g.
  - left. split; [constructor|]. split; [intros x []|reflexivity].
  - cbn [remove_each]. unfold remove_node.
    destruct (has_node g n) eqn:En.
    + apply mem_In in En. cbn [andThen].
      destruct (IH (delete_node g n))
        as [[Hnd [Hin E]] | [done [m [rest [-> [Hnd [Hin [Hbad E]]]]]]]].
      * left. split; [|split].
        -- constructor; [|exact Hnd]. intros H. apply Hin in H.
           apply delete_node_nodes in H. now destruct H.
        -- intros x [<- | Hx]; [exact En|].
           apply Hin, delete_node_nodes in Hx. apply Hx.
        -- exact E.
      * right. exists (n :: done), m, rest. split; [reflexivity|].
        split; [|split; [|split]].
        -- constructor; [|exact Hnd]. intros H. apply Hin in H.
           apply delete_node_nodes in H. now destruct H.
        -- intros x [<- | Hx]; [exact En|].
           apply Hin, delete_node_nodes in Hx. apply Hx.
        -- destruct Hbad as [Hbad | Hbad]; [left; now right|].
           destruct (str_eq_dec m n) as [-> | Hmn]; [left; now left|].
           right. intros Hm. apply Hbad, delete_node_nodes. now split.
        -- exact E.
    + right. exists [], n, ns. split; [reflexivity|].
      split; [constructor|]. split; [intros x []|].
      split; [|reflexivity]. right. now apply mem_not_In.
Qed.

(** X11 ([remove_paths]): the call hands to [remove_node], one by one, the
    nodes of [path[start:end]] of every path of at least two nodes.  It
    returns, with all of them removed, exactly when these nodes are
    distinct nodes of the graph.  Otherwise it raises [NetworkXError] at
    the first node that is not in the graph or was already removed (two
    paths that share a node to remove are enough), and the nodes before
    that one are gone from the graph that the caller still holds. *)
Theorem remove_paths_outcome (g : DiGraph) (path_list : list (list str))
    (delete_entry_node delete_sink_node : bool) :
  let ns := doomed path_list delete_entry_node delete_sink_node in
  (NoDup ns /\ incl ns (nodes g) ->
   remove_paths g path_list delete_entry_node delete_sink_node =
   Ret (remove_nodes_from g ns)) /\
  (~ (NoDup ns /\ incl ns (nodes g)) ->
   exists done n rest,
     ns = done ++ n :: rest /\ NoDup done /\ incl done (nodes g) /\
     (In n done \/ ~ In n (nodes g)) /\
     remove_paths g path_list delete_entry_node delete_sink_node =
     Raise NetworkXError (remove_nodes_from g done)).
Proof.
  intros ns. rewrite remove_paths_doomed. fold ns.
  destruct (remove_each_outcome ns g)
    as [[Hnd [Hin E]] | [done [n [rest [Ens [Hnd [Hin [Hbad E]]]]]]]].
  - split; [intros _; exact E | intros H; exfalso; apply H; now split].
  - split.
    + intros [Hnd' Hin']. exfalso. destruct Hbad as [Hbad | Hbad].
      * rewrite Ens in Hnd'. apply NoDup_remove_2 in Hnd'.
        apply Hnd', in_or_app. now left.
      * apply Hbad, Hin'. rewrite Ens. apply in_or_app. right. now left.
    + intros _. exists done, n, rest. auto.
Qed.

(** ** The path that [select_best_path] keeps *)

Lemma key_ltb_irrefl (a : Q * Z) : key_ltb a a = false.
Proof.
  unfold key_ltb. destruct (Qcompare_spec (fst a) (fst a)) as [H | H | H];
    [apply Z.ltb_irrefl | lra | reflexivity].
Qed.




Lemma item_Ok {A : Type} (l : list A) (i : nat) (d : A) :
  i < length l -> item l i = Ok (nth i l d).
Proof. intros H. unfold item. now rewrite (nth_error_nth' l d H). Qed.

Lemma item_Err {A : Type} (l : list A) (i : nat) :
  length l <= i -> item l i = Err IndexError.
Proof.
  intros H. unfold item. apply nth_error_None in H. now rewrite H.
Qed.




(** X13 ([select_best_path]): the call raises [ValueError] on an empty list
    of paths ([max] of an empty range) and [IndexError] when the list of
    weights or the list of lengths is shorter than the list of paths; in
    both cases the graph is left as it was. *)
Theorem select_best_path_errors (g : DiGraph) (path_length : list Z)
    (weight_avg_list : list Q) (delete_entry_node delete_sink_node : bool) :
  select_best_path g [] path_length weight_avg_list
                   delete_entry_node delete_sink_node = Raise ValueError g /\
  forall path_list,
    length weight_avg_list < length path_list \/
    length path_length < length path_list ->
    select_best_path g path_list path_length weight_avg_list
                     delete_entry_node delete_sink_node = Raise IndexError g.
Proof.
  split; [reflexivity|]. intros path_list Hshort.
  destruct path_list as [|p ps]; [simpl in Hshort; lia|].
  unfold select_best_path.
  rewrite (mapM_Err _ _ IndexError); [reflexivity | |].
  - intros i _.
    destruct (Nat.lt_ge_cases i (length weight_avg_list)) as [Hw | Hw];
      [destruct (Nat.lt_ge_cases i (length path_length)) as [Hl | Hl]|].
    + left. rewrite (item_Ok _ i 0%Q Hw), (item_Ok _ i 0%Z Hl). simpl. eauto.
    + right. rewrite (item_Ok _ i 0%Q Hw), (item_Err _ i Hl). reflexivity.
    + right. rewrite (item_Err _ i Hw). reflexivity.
  - exists (Nat.min (length weight_avg_list) (length path_length)). split.
    + apply in_seq. lia.
    + destruct (Nat.le_ge_cases (length weight_avg_list) (length path_length))
        as [H | H].
      * rewrite Nat.min_l by exact H. rewrite item_Err; [reflexivity | lia].
      * rewrite Nat.min_r by exact H.
        destruct (Nat.lt_ge_cases (length path_length)
                                  (length weight_avg_list)) as [Hw | Hw].
        -- rewrite (item_Ok _ _ 0%Q Hw), item_Err; [reflexivity | lia].
        -- rewrite item_Err; [reflexivity | lia].
Qed.

(** ** When [solve_entry_tips] raises *)








(** ** [simplify_bubbles] away from bubbles, and on a cycle *)

Lemma bubble_at_plain (seed : list str -> nat) (g : DiGraph) (node : str)
    (marked : list str) :
  In node (nodes g) -> length (preds g node) <= 1 ->
  bubble_at seed g node marked = Next g marked.
Proof.
  intros Hn Hp. apply mem_In in Hn. unfold bubble_at, predecessors.
  fold (has_node g node) in Hn. rewrite Hn. cbn [asking].
  apply Nat.ltb_ge in Hp. now rewrite Hp.
Qed.

Lemma bubbles_loop_plain (seed : list str -> nat) (g : DiGraph)
    (todo marked : list str) :
  (forall n, In n todo -> In n (nodes g) /\ length (preds g n) <= 1) ->
  bubbles_loop seed (length (nodes g)) todo g marked =
  Ret (remove_nodes_from g marked).
Proof.
  induction todo as [|node todo IH]; intros H; cbn [bubbles_loop];
    rewrite Nat.eqb_refl; cbn [negb]; [reflexivity|].
  destruct (H node (or_introl eq_refl)) as [Hn Hp].
  rewrite (bubble_at_plain seed g node marked Hn Hp).
  apply IH. intros n Hin. apply H. now right.
Qed.

(** X15 ([simplify_bubbles]): a graph in which no node has more than one
    predecessor (a chain, a tree that only branches forward) is returned as
    it is, under every hash seed. *)
Theorem simplify_bubbles_without_junction (seed : list str -> nat)
    (g : DiGraph) :
  (forall n, In n (nodes g) -> length (preds g n) <= 1) ->
  simplify_bubbles seed g = Ret g.
Proof.
  intros H. unfold simplify_bubbles.
  rewrite bubbles_loop_plain; [reflexivity|]. intros n Hn. auto.
Qed.

Lemma simplify_bubbles_without_junction_witness :
  simplify_bubbles first_seed two_step_graph = Ret two_step_graph.
Proof.
  apply (simplify_bubbles_without_junction first_seed two_step_graph).
  intros n Hn. simpl in Hn.
  destruct Hn as [<- | [<- | [<- | []]]]; vm_compute; lia.
Defined.

Lemma bubble_at_cyclic (seed : list str -> nat) (g : DiGraph) (node : str)
    (marked : list str) :
  is_directed_acyclic_graph g = false -> In node (nodes g) ->
  1 < length (preds g node) ->
  bubble_at seed g node marked =
  Thrown (if length (preds g node) <=? 3 then NetworkXError else TypeError) g.
Proof.
  intros Hc Hn Hp. apply mem_In in Hn. unfold bubble_at, predecessors.
  fold (has_node g node) in Hn. rewrite Hn. cbn [asking].
  apply Nat.ltb_lt in Hp. rewrite Hp. apply Nat.ltb_lt in Hp.
  unfold lca_of_predecessors, lowest_common_ancestor. rewrite Hc.
  destruct (preds g node) as [|p1 [|p2 [|p3 [|p4 ps]]]]; simpl in Hp;
    try lia; reflexivity.
Qed.

Lemma bubbles_loop_cyclic (seed : list str -> nat) (g : DiGraph)
    (todo marked : list str) :
  is_directed_acyclic_graph g = false -> incl todo (nodes g) ->
  (exists n, In n todo /\ 1 < length (preds g n)) ->
  exists n,
    In n todo /\ 1 < length (preds g n) /\
    bubbles_loop seed (length (nodes g)) todo g marked =
    Raise (if length (preds g n) <=? 3 then NetworkXError else TypeError) g.
Proof.
  intros Hc. induction todo as [|node todo IH]; intros Hin [n [Hn Hp]];
    [destruct Hn|].
  cbn [bubbles_loop]. rewrite Nat.eqb_refl. cbn [negb].
  destruct (Nat.lt_ge_cases 1 (length (preds g node))) as [Hj | Hj].
  - exists node. split; [now left|]. split; [exact Hj|].
    rewrite (bubble_at_cyclic seed g node marked Hc); auto.
    apply Hin. now left.
  - rewrite (bubble_at_plain seed g node marked);
      [|apply Hin; now left|exact Hj].
    destruct IH as [m [Hm [Hpm E]]].
    + intros x Hx. apply Hin. now right.
    + destruct Hn as [<- | Hn]; [lia|]. now exists n.
    + exists m. split; [now right|]. now split.
Qed.

(** X16 ([simplify_bubbles]): on a graph that has a cycle and a node with
    more than one predecessor, the call never returns: at the first such
    node [lowest_common_ancestor] refuses the graph ([NetworkXError], or
    [TypeError] when the node has more than three predecessors), and the
    graph is left as it was.  With at most three predecessors per node the
    exception is [NetworkXError]. *)
Theorem simplify_bubbles_on_cycle (seed : list str -> nat) (g : DiGraph) :
  is_directed_acyclic_graph g = false ->
  (exists n, In n (nodes g) /\ 1 < length (preds g n)) ->
  (simplify_bubbles seed g = Raise NetworkXError g \/
   simplify_bubbles seed g = Raise TypeError g) /\
  ((forall n, In n (nodes g) -> length (preds g n) <= 3) ->
   simplify_bubbles seed g = Raise NetworkXError g).
Proof.
  intros Hc Hj. unfold simplify_bubbles.
  destruct (bubbles_loop_cyclic seed g (nodes g) [] Hc (incl_refl _) Hj)
    as [n [Hn [Hp E]]].
  rewrite E. split.
  - destruct (length (preds g n) <=? 3); auto.
  - intros H3. apply H3 in Hn. apply Nat.leb_le in Hn. now rewrite Hn.
Qed.

Lemma simplify_bubbles_on_cycle_witness :
  let g := build_graph (build_kmer_dict [py "TACAC"] 3) in
  (simplify_bubbles first_seed g = Raise NetworkXError g \/
   simplify_bubbles first_seed g = Raise TypeError g) /\
  ((forall n, In n (nodes g) -> length (preds g n) <= 3) ->
   simplify_bubbles first_seed g = Raise NetworkXError g).
Proof.
  apply (simplify_bubbles_on_cycle
           first_seed (build_graph (build_kmer_dict [py "TACAC"] 3))).
  - reflexivity.
  - exists (py "AC"). split; [vm_compute; auto | vm_compute; lia].
Defined.

(** ** The average weight: what it depends on *)

Lemma mem_same_nodes (p q : list str) (x : str) :
  (forall n, In n p <-> In n q) -> mem x p = mem x q.
Proof.
  intros H. destruct (mem x q) eqn:E.
  - apply mem_In. apply H. now apply mem_In.
  - apply mem_not_In. intros Hin. apply mem_not_In in E. apply E, H, Hin.
Qed.

(** X17 ([path_average_weight]): the average weight depends on the set of
    nodes of the path only, not on their order or on repetitions: two paths
    through the same nodes have the same average weight, and fail
    together. *)
Theorem path_average_weight_node_set (g : DiGraph) (p q : list str) :
  (forall n, In n p <-> In n q) ->
  path_average_weight g p = path_average_weight g q.
Proof.
  intros H. unfold path_average_weight, subgraph_edges. do 2 f_equal.
  apply filter_ext. intros e.
  now rewrite (mem_same_nodes p q (esrc e) H), (mem_same_nodes p q (edst e) H).
Qed.

Lemma path_average_weight_node_set_witness :
  path_average_weight chord_graph [py "CAA"; py "AAA"; py "AAG"] =
  path_average_weight chord_graph [py "AAG"; py "CAA"; py "AAA"; py "CAA"].
Proof.
  apply (path_average_weight_node_set chord_graph).
  intros n. simpl. tauto.
Defined.

Lemma pos_of_length (n : nat) : Z.pos (Pos.of_nat (S n)) = Z.of_nat (S n).
Proof. rewrite <- Pos.of_nat_succ, Zpos_P_of_succ_nat. lia. Qed.

(** ** What [solve_bubble] leaves between its two nodes *)

Lemma firstn_In (n : nat) (l : list str) (x : str) :
  In x (firstn n l) -> In x l.
Proof.
  intros H. rewrite <- (firstn_skipn n l). apply in_or_app. now left.
Qed.

Lemma interior_in_tl (l : list str) (x : str) :
  In x (interior l) -> In x (tl l).
Proof.
  unfold interior, slice. intros H. apply firstn_In in H.
  destruct l; exact H.
Qed.

Lemma drop_others_eq (paths : list (list str)) (best_path : option (list str))
    (g : DiGraph) :
  drop_others g paths best_path =
  remove_nodes_from g
    (flat_map (fun p => if is_best best_path p then [] else interior p) paths).
Proof.
  revert g. induction paths as [|p paths IH]; intros g; [reflexivity|].
  cbn [drop_others flat_map]. destruct (is_best best_path p).
  - apply IH.
  - rewrite IH. unfold remove_nodes_from. now rewrite fold_left_app.
Qed.





Lemma interior_not_first (a : str) (rest : list str) :
  NoDup (a :: rest) -> ~ In a (interior (a :: rest)).
Proof.
  intros Hn Hin. apply interior_in_tl in Hin. now inversion Hn.
Qed.

(** X20 ([solve_bubble]): the call never removes the node it starts from;
    towards a node of the graph it never removes that node either; and when
    the ancestor is not a node of the graph it raises [NodeNotFound] and
    leaves the graph as it was. *)
Theorem solve_bubble_ends (g : DiGraph) (ancestor_node descendant_node : str) :
  (has_node g ancestor_node = false ->
   solve_bubble g ancestor_node descendant_node = Raise NodeNotFound g) /\
  (has_node g ancestor_node = true ->
   has_node (state (solve_bubble g ancestor_node descendant_node))
            ancestor_node = true) /\
  (has_node g descendant_node = true ->
   has_node (state (solve_bubble g ancestor_node descendant_node))
            descendant_node = true).
Proof.
  split; [|split].
  - intros Ha. unfold solve_bubble, all_simple_paths. now rewrite Ha.
  - intros Ha. unfold solve_bubble, all_simple_paths. rewrite Ha.
    cbn [query].
    destruct (length _ <=? 1); [exact Ha|].
    destruct (best_of g _ None (-1)%Q (-1)%Z) as [best|e]; cbn [query state];
      [|exact Ha].
    rewrite drop_others_keeps; [exact Ha|].
    intros p Hp. apply visit_sound in Hp.
    destruct Hp as [rest [-> [_ [_ Hn]]]]. simpl app in *.
    apply interior_not_first. apply Hn. repeat constructor. intros [].
  - apply solve_bubble_keeps.
Qed.

(** ** Reading the records of a FASTQ file *)

Lemma readline_line (line rest : str) :
  one_line line ->
  readline (line ++ newline :: rest) = (line ++ [newline], rest).
Proof.
  unfold one_line. induction line as [|c line IH]; intros H.
  - simpl. destruct (ascii_dec newline newline); [reflexivity | congruence].
  - simpl. destruct (ascii_dec c newline) as [-> | Hc].
    + exfalso. apply H. now left.
    + rewrite IH; [reflexivity|]. intros Hin. apply H. now right.
Qed.

Lemma readline_end (line : str) : one_line line -> readline line = (line, []).
Proof.
  unfold one_line. induction line as [|c line IH]; intros H; [reflexivity|].
  simpl. destruct (ascii_dec c newline) as [-> | Hc].
  - exfalso. apply H. now left.
  - rewrite IH; [reflexivity|]. intros Hin. apply H. now right.
Qed.

Lemma readline_length (text : str) :
  length (fst (readline text)) + length (snd (readline text)) = length text.
Proof.
  induction text as [|c text IH]; [reflexivity|]. simpl.
  destruct (ascii_dec c newline); [reflexivity|].
  destruct (readline text) as [line rest]. simpl in *. lia.
Qed.

Lemma lstrip_snoc (s : str) (c : ascii) :
  isspace c = true ->
  lstrip (s ++ [c]) = match lstrip s with
                      | [] => []
                      | _ :: _ => lstrip s ++ [c]
                      end.
Proof.
  intros Hc. induction s as [|x s IH]; simpl.
  - now rewrite Hc.
  - destruct (isspace x); [exact IH | reflexivity].
Qed.

Lemma strip_snoc (s : str) (c : ascii) :
  isspace c = true -> strip (s ++ [c]) = strip s.
Proof.
  intros Hc. unfold strip. rewrite (lstrip_snoc s c Hc).
  destruct (lstrip s) as [|y t]; [reflexivity|].
  rewrite rev_app_distr. simpl rev at 2. simpl app. cbn [lstrip].
  now rewrite Hc.
Qed.

Lemma lstrip_blank (s : str) : blank s -> lstrip s = [].
Proof.
  unfold blank. induction s as [|c s IH]; intros H; [reflexivity|].
  simpl. rewrite (H c (or_introl eq_refl)). apply IH.
  intros x Hx. apply H. now right.
Qed.

Lemma strip_blank (s : str) : blank s -> strip s = [].
Proof. intros H. unfold strip. now rewrite (lstrip_blank s H). Qed.

Lemma lstrip_clean (s : str) :
  (forall c, In c s -> isspace c = false) -> lstrip s = s.
Proof.
  destruct s as [|c s]; [reflexivity|]. intros H. simpl.
  now rewrite (H c (or_introl eq_refl)).
Qed.

Lemma strip_clean (s : str) :
  (forall c, In c s -> isspace c = false) -> strip s = s.
Proof.
  intros H. unfold strip. rewrite (lstrip_clean s H), lstrip_clean.
  - apply rev_involutive.
  - intros c Hc. apply H. now apply in_rev.
Qed.

Lemma readline_blank (b rest : str) :
  blank b -> blank (fst (readline (b ++ newline :: rest))).
Proof.
  unfold blank. induction b as [|c b IH]; intros H; simpl.
  - destruct (ascii_dec newline newline); [|congruence].
    intros x [<- | []]. reflexivity.
  - destruct (ascii_dec c newline) as [-> | Hc].
    + intros x [<- | []]. reflexivity.
    + specialize (IH (fun x Hx => H x (or_intror Hx))).
      destruct (readline (b ++ newline :: rest)) as [line rest'].
      simpl in *. intros x [<- | Hx]; [apply H; now left | now apply IH].
Qed.

Lemma read_records_step (fuel : nat) (r : fastq_record) (text : str) :
  well_formed_record r ->
  read_records (S fuel) (record_text r ++ text) =
  option_map (cons (strip (sequence r))) (read_records fuel text).
Proof.
  intros [Hi [Hne [Hs [Hp Hq]]]]. unfold record_text.
  repeat (rewrite <- app_assoc; rewrite <- app_comm_cons).
  change ([] ++ text) with text. cbn [read_records].
  rewrite (readline_line _ _ Hi), (strip_snoc _ newline eq_refl).
  destruct (strip (identifier r)) as [|c s]; [congruence|].
  rewrite (readline_line _ _ Hs), (readline_line _ _ Hp).
  simpl app. rewrite (readline_line _ _ Hq).
  now rewrite (strip_snoc _ newline eq_refl).
Qed.

Lemma read_records_text (records : list fastq_record) (fuel : nat)
    (tail : str) :
  Forall well_formed_record records ->
  read_records (length records + fuel) (fastq_text records ++ tail) =
  option_map (app (map (fun r => strip (sequence r)) records))
             (read_records fuel tail).
Proof.
  induction 1 as [|r records Hr _ IH].
  - simpl. now destruct (read_records fuel tail).
  - cbn [length fastq_text flat_map Nat.add map]. rewrite <- app_assoc.
    rewrite (read_records_step _ r _ Hr). fold (fastq_text records).
    rewrite IH. now destruct (read_records fuel tail).
Qed.

Lemma record_text_length (r : fastq_record) : 4 <= length (record_text r).
Proof.
  unfold record_text.
  repeat (rewrite length_app; cbn [length]). lia.
Qed.

Lemma fastq_text_length (records : list fastq_record) :
  4 * length records <= length (fastq_text records).
Proof.
  induction records as [|r records IH]; [simpl; lia|].
  cbn [fastq_text flat_map length]. fold (fastq_text records).
  rewrite length_app. pose proof (record_text_length r). lia.
Qed.

Lemma read_fastq_text (records : list fastq_record) (tail : str) :
  Forall well_formed_record records ->
  read_fastq (fastq_text records ++ tail) =
  option_map (app (map (fun r => strip (sequence r)) records))
             (read_records (S (length (fastq_text records ++ tail))
                            - length records) tail).
Proof.
  intros H. unfold read_fastq.
  pose proof (fastq_text_length records) as Hlen.
  replace (S (length (fastq_text records ++ tail)))
    with (length records
          + (S (length (fastq_text records ++ tail)) - length records)) at 1
    by (rewrite length_app; lia).
  now apply read_records_text.
Qed.

(** X21 ([read_fastq]): on a file made of complete records (an identifier
    line that is not blank, a sequence line, a separator line and a quality
    line, each ended by a line feed), the reads yielded are the sequence
    lines of the records, in order, with the white space at their two ends
    taken off; they are the sequences as written when these hold no white
    space. *)
Theorem read_fastq_records (records : list fastq_record) :
  Forall well_formed_record records ->
  read_fastq (fastq_text records) =
  Some (map (fun r => strip (sequence r)) records) /\
  ((forall r c, In r records -> In c (sequence r) -> isspace c = false) ->
   read_fastq (fastq_text records) = Some (map sequence records)).
Proof.
  intros H.
  assert (E : read_fastq (fastq_text records) =
              Some (map (fun r => strip (sequence r)) records)).
  { rewrite <- (app_nil_r (fastq_text records)) at 1.
    rewrite (read_fastq_text records [] H).
    pose proof (fastq_text_length records) as Hlen.
    rewrite app_nil_r.
    destruct (S (length (fastq_text records)) - length records) as [|fuel]
      eqn:Ef; [lia|].
    simpl. now rewrite app_nil_r. }
  split; [exact E|]. intros Hclean. rewrite E. f_equal.
  apply map_ext_in. intros r Hr. apply strip_clean.
  intros c Hc. now apply (Hclean r c).
Qed.

Lemma read_fastq_records_witness :
  let records := [FastqRecord (py "@r1") (py "TCAGA") (py "+") (py "IIIII");
                  FastqRecord (py "@r2") (py "AGATT") (py "+") (py "IIIII")] in
  read_fastq (fastq_text records) =
  Some (map (fun r => strip (sequence r)) records) /\
  ((forall r c, In r records -> In c (sequence r) -> isspace c = false) ->
   read_fastq (fastq_text records) = Some (map sequence records)).
Proof.
  apply (read_fastq_records
           [FastqRecord (py "@r1") (py "TCAGA") (py "+") (py "IIIII");
            FastqRecord (py "@r2") (py "AGATT") (py "+") (py "IIIII")]).
  repeat constructor; simpl; unfold one_line; simpl;
    try discriminate; intuition discriminate.
Defined.

(** X22 ([read_fastq]): reading stops at the first blank identifier line:
    whatever follows a blank line that stands where an identifier is
    expected, further records included, is not read. *)
Theorem read_fastq_stops_at_blank_line (records : list fastq_record)
    (blank_line rest : str) :
  Forall well_formed_record records -> blank blank_line ->
  read_fastq (fastq_text records ++ blank_line ++ newline :: rest) =
  Some (map (fun r => strip (sequence r)) records).
Proof.
  intros H Hb. rewrite (read_fastq_text records _ H).
  pose proof (fastq_text_length records) as Hlen.
  destruct (S (length (fastq_text records ++ blank_line ++ newline :: rest))
            - length records) as [|fuel] eqn:Ef;
    [rewrite length_app in Ef; lia|].
  cbn [read_records].
  pose proof (readline_blank blank_line rest Hb) as Hl.
  destruct (readline (blank_line ++ newline :: rest)) as [line text1].
  cbn [fst] in Hl. rewrite (strip_blank line Hl). simpl.
  now rewrite app_nil_r.
Qed.

Lemma read_fastq_stops_at_blank_line_witness :
  read_fastq
    (fastq_text [FastqRecord (py "@r1") (py "TCAGA") (py "+") (py "IIIII")]
     ++ py " " ++ newline ::
        fastq_text [FastqRecord (py "@r2") (py "AGATT") (py "+")
                                (py "IIIII")]) =
  Some (map (fun r => strip (sequence r))
            [FastqRecord (py "@r1") (py "TCAGA") (py "+") (py "IIIII")]).
Proof.
  apply (read_fastq_stops_at_blank_line
           [FastqRecord (py "@r1") (py "TCAGA") (py "+") (py "IIIII")]
           (py " ")).
  - repeat constructor; simpl; unfold one_line; simpl;
      try discriminate; intuition discriminate.
  - intros c [<- | []]. reflexivity.
Defined.

(** X23 ([read_fastq]): a last record cut short still yields a read: when
    the file ends within or right after the sequence line of a record, what
    there is of that line is yielded as a read (the empty string when the
    file ends with the identifier line). *)
Theorem read_fastq_cut_record (records : list fastq_record)
    (identifier_line partial_sequence : str) :
  Forall well_formed_record records ->
  one_line identifier_line -> strip identifier_line <> [] ->
  one_line partial_sequence ->
  read_fastq (fastq_text records ++
              identifier_line ++ newline :: partial_sequence) =
  Some (map (fun r => strip (sequence r)) records ++
        [strip partial_sequence]).
Proof.
  intros H Hi Hne Hs. rewrite (read_fastq_text records _ H).
  pose proof (fastq_text_length records) as Hlen.
  destruct (S (length (fastq_text records ++
                       identifier_line ++ newline :: partial_sequence))
            - length records) as [|[|fuel]] eqn:Ef;
    try (rewrite !length_app in Ef; cbn [length] in Ef; lia).
  cbn [read_records].
  rewrite (readline_line _ _ Hi), (strip_snoc _ newline eq_refl).
  destruct (strip identifier_line) as [|c s]; [congruence|].
  rewrite (readline_end _ Hs). reflexivity.
Qed.

Lemma read_fastq_cut_record_witness :
  read_fastq
    (fastq_text [FastqRecord (py "@r1") (py "TCAGA") (py "+") (py "IIIII")]
     ++ py "@r2" ++ newline :: py "AGA") =
  Some (map (fun r => strip (sequence r))
            [FastqRecord (py "@r1") (py "TCAGA") (py "+") (py "IIIII")]
        ++ [strip (py "AGA")]).
Proof.
  apply (read_fastq_cut_record
           [FastqRecord (py "@r1") (py "TCAGA") (py "+") (py "IIIII")]
           (py "@r2") (py "AGA")).
  - repeat constructor; simpl; unfold one_line; simpl;
      try discriminate; intuition discriminate.
  - unfold one_line. simpl. intuition discriminate.
  - discriminate.
  - unfold one_line. simpl. intuition discriminate.
Defined.

Lemma strip_nonempty (s : str) : strip s <> [] -> s <> [].
Proof. intros H ->. now apply H. Qed.

Lemma read_records_enough (fuel : nat) :
  forall text, length text < fuel ->
               exists reads, read_records fuel text = Some reads /\
                             length reads <= length text.
Proof.
  induction fuel as [|fuel IH]; intros text Hlen; [lia|].
  cbn [read_records].
  pose proof (readline_length text) as H1.
  destruct (readline text) as [line1 text1]. cbn [fst snd] in H1.
  destruct (strip line1) as [|c s] eqn:E1.
  - exists []. split; [reflexivity | simpl; lia].
  - assert (Hne : line1 <> [])
      by (apply strip_nonempty; rewrite E1; discriminate).
    pose proof (readline_length text1) as H2.
    destruct (readline text1) as [line2 text2]. cbn [fst snd] in H2.
    pose proof (readline_length text2) as H3.
    destruct (readline text2) as [line3 text3]. cbn [fst snd] in H3.
    pose proof (readline_length text3) as H4.
    destruct (readline text3) as [line4 text4]. cbn [fst snd] in H4.
    assert (Hl1 : 1 <= length line1)
      by (destruct line1; simpl; [congruence|lia]).
    destruct (IH text4) as [reads [E Hr]]; [lia|].
    exists (strip line2 :: reads). rewrite E. split; [reflexivity|].
    simpl. lia.
Qed.

Lemma read_records_more (fuel more : nat) :
  forall text reads,
    read_records fuel text = Some reads ->
    read_records (fuel + more) text = Some reads.
Proof.
  induction fuel as [|fuel IH]; intros text reads; [discriminate|].
  cbn [read_records Nat.add].
  destruct (readline text) as [line1 text1].
  destruct (strip line1) as [|c s]; [auto|].
  destruct (readline text1) as [line2 text2].
  destruct (readline text2) as [line3 text3].
  destruct (readline text3) as [line4 text4].
  destruct (read_records fuel text4) as [reads'|] eqn:E; [|discriminate].
  now rewrite (IH text4 reads' E).
Qed.

(** X24 ([read_fastq]): the loop [while True] ends on every text: within as
    many turns as the text has characters, plus one, it meets a blank
    identifier line or the end of the file; further turns change nothing,
    and it has yielded at most as many reads as the text has characters. *)
Theorem read_fastq_ends (text : str) :
  exists reads,
    read_fastq text = Some reads /\
    length reads <= length text /\
    forall more, read_records (S (length text) + more) text = Some reads.
Proof.
  destruct (read_records_enough (S (length text)) text) as [reads [E Hr]];
    [lia|].
  exists reads. split; [exact E|]. split; [exact Hr|].
  intros more. now apply read_records_more.
Qed.

(** ** A run of [simplify_bubbles] that returns *)














(** ** Every path between the two ends gives a contig *)

Lemma mapM_Ok_In {A B : Type} (f : A -> result B) (l : list A) (bs : list B)
    (a : A) :
  mapM f l = Ok bs -> In a l -> exists b, f a = Ok b /\ In b bs.
Proof.
  revert bs. induction l as [|x l IH]; intros bs H Ha; [destruct Ha|].
  simpl in H. destruct (f x) as [b|e] eqn:Ex; simpl in H; [|discriminate].
  destruct (mapM f l) as [bs'|e] eqn:El; simpl in H; [|discriminate].
  injection H as <-. destruct Ha as [<- | Ha].
  - exists b. split; [exact Ex | now left].
  - destruct (IH bs' eq_refl Ha) as [b' [Hb Hin]].
    exists b'. split; [exact Hb | now right].
Qed.

(** X26 ([get_contigs]): when the call returns on a well-formed graph, no
    path is missed: every path of distinct nodes of the graph from one of
    the starting nodes to one of the ending nodes has its sequence, with
    the length of that sequence, among the contigs returned. *)
Theorem get_contigs_complete (g : DiGraph)
    (starting_nodes ending_nodes : list str) (contigs : list (str * nat))
    (start stop : str) (rest : list str) :
  wf g ->
  get_contigs g starting_nodes ending_nodes = Ok contigs ->
  In start starting_nodes -> In stop ending_nodes ->
  NoDup (start :: rest) -> linked g (start :: rest) ->
  last rest start = stop ->
  In (sequence_of_path (start :: rest),
      length (sequence_of_path (start :: rest))) contigs.
Proof.
  intros Hwf H Hs Ht Hnd Hl Hlast. unfold get_contigs in H.
  destruct (mapM _ starting_nodes) as [per_start|e] eqn:E1; simpl in H;
    [|discriminate].
  injection H as <-.
  destruct (mapM_Ok_In _ _ _ start E1 Hs) as [cs [Hcs Hin1]].
  destruct (mapM (contigs_between g start) ending_nodes) as [per_end|e] eqn:E2;
    simpl in Hcs; [|discriminate].
  injection Hcs as <-.
  destruct (mapM_Ok_In _ _ _ stop E2 Ht) as [found [Hfound Hin2]].
  apply in_concat. exists (concat per_end). split; [exact Hin1|].
  apply in_concat. exists found. split; [exact Hin2|].
  unfold contigs_between, has_path in Hfound.
  destruct (has_node g start) eqn:Ha; [|discriminate].
  destruct (has_node g stop) eqn:Hb; [|discriminate].
  simpl in Hfound.
  destruct (all_simple_paths_complete g start stop rest Hwf Ha Hb Hnd Hl Hlast)
    as [paths [Ep Hp]].
  assert (Hreach : reaches g start stop = true).
  { unfold reaches. unfold all_simple_paths, targets_of in Ep.
    rewrite Ha, Hb in Ep. injection Ep as Ep. rewrite Ep.
    destruct paths; [destruct Hp | reflexivity]. }
  rewrite Hreach, Ep in Hfound. simpl in Hfound.
  destruct (mapM_Ok_In _ _ _ _ Hfound Hp) as [[contig n] [Hc Hin]].
  destruct (contig_of_path_sequence _ _ _ Hc) as [-> ->]. exact Hin.
Qed.

Lemma get_contigs_complete_witness :
  In (sequence_of_path [py "CAA"; py "AAA"; py "AAG"],
      length (sequence_of_path [py "CAA"; py "AAA"; py "AAG"]))
     [(py "CAAAG", 5); (py "CAAG", 4)].
Proof.
  apply (get_contigs_complete chord_graph [py "CAA"] [py "AAG"]
           [(py "CAAAG", 5); (py "CAAG", 4)] (py "CAA") (py "AAG")
           [py "AAA"; py "AAG"]).
  - apply wfb_wf. reflexivity.
  - reflexivity.
  - now left.
  - now left.
  - repeat constructor; simpl; intuition discriminate.
  - simpl. repeat split; now left.
  - reflexivity.
Defined.

(** ** The path that [solve_bubble] keeps *)

Lemma sum_at_least (l : list Z) (lo : Z) :
  (forall w, In w l -> (lo <= w)%Z) ->
  (lo * Z.of_nat (length l) <= fold_right Z.add 0 l)%Z.
Proof.
  induction l as [|w l IH]; intros H; [simpl; lia|].
  specialize (H w (or_introl eq_refl)) as Hw.
  assert (Hl : forall w', In w' l -> (lo <= w')%Z)
    by (intros w' Hw'; apply H; now right).
  specialize (IH Hl). cbn [fold_right length]. rewrite Nat2Z.inj_succ. lia.
Qed.

Lemma mean_at_least (l : list Z) (q : Q) (lo : Z) :
  (forall w, In w l -> (lo <= w)%Z) -> mean l = Ok q -> (inject_Z lo <= q)%Q.
Proof.
  intros H. unfold mean. destruct l as [|w ws]; [discriminate|].
  intros Hq. injection Hq as <-.
  pose proof (sum_at_least (w :: ws) lo H) as H1.
  assert (Hd : forall d, Z.pos d = Z.of_nat (S (length ws)) ->
                 (inject_Z lo <= fold_right Z.add 0%Z (w :: ws) # d)%Q).
  { intros d Hd. unfold Qle, inject_Z. cbn [Qnum Qden]. rewrite Hd.
    cbn [length] in H1. lia. }
  apply (Hd (Pos.of_nat (S (length ws)))), pos_of_length.
Qed.

Lemma better_key_ltb (weight : Q) (len : Z) (best_weight : Q)
    (best_length : Z) :
  better weight len best_weight best_length =
  key_ltb (best_weight, best_length) (weight, len).
Proof.
  unfold better, key_ltb. cbn [fst snd].
  rewrite <- (Qcompare_antisym weight best_weight).
  destruct (Qcompare weight best_weight); reflexivity.
Qed.

Lemma key_ltb_trans (a b c : Q * Z) :
  key_ltb b a = false -> key_ltb c b = false -> key_ltb c a = false.
Proof.
  unfold key_ltb.
  destruct (Qcompare_spec (fst b) (fst a)) as [Hab | Hab | Hab];
    destruct (Qcompare_spec (fst c) (fst b)) as [Hbc | Hbc | Hbc];
    destruct (Qcompare_spec (fst c) (fst a)) as [Hac | Hac | Hac];
    try discriminate; try reflexivity; try lra; lia.
Qed.

Lemma key_ltb_under (a b c : Q * Z) :
  key_ltb a b = true -> key_ltb c b = false -> key_ltb c a = false.
Proof.
  unfold key_ltb.
  destruct (Qcompare_spec (fst a) (fst b)) as [Hab | Hab | Hab];
    destruct (Qcompare_spec (fst c) (fst b)) as [Hcb | Hcb | Hcb];
    destruct (Qcompare_spec (fst c) (fst a)) as [Hca | Hca | Hca];
    try discriminate; try reflexivity; try lra; lia.
Qed.

Lemma best_of_greatest (g : DiGraph) (paths : list (list str)) :
  forall best_path best_weight best_length r,
    best_of g paths best_path best_weight best_length = Ok r ->
    exists rw rl,
      key_ltb (rw, rl) (best_weight, best_length) = false /\
      (forall p w, In p paths -> path_average_weight g p = Ok w ->
                   key_ltb (rw, rl) (w, Z.of_nat (length p)) = false) /\
      ((r = best_path /\ rw = best_weight /\ rl = best_length) \/
       exists b, r = Some b /\ In b paths /\
                 path_average_weight g b = Ok rw /\
                 rl = Z.of_nat (length b)).
Proof.
  induction paths as [|path rest IH]; intros bp bw bl r H.
  - simpl in H. injection H as <-. exists bw, bl.
    split; [apply key_ltb_irrefl|]. split; [intros p w []|]. now left.
  - cbn [best_of] in H.
    destruct (path_average_weight g path) as [weight|e] eqn:Ew;
      cbn [bind] in H; [|discriminate].
    rewrite better_key_ltb in H.
    destruct (key_ltb (bw, bl) (weight, Z.of_nat (length path))) eqn:Eb.
    + destruct (IH _ _ _ _ H) as [rw [rl [Hge [Hall Hr]]]].
      exists rw, rl. split; [|split].
      * exact (key_ltb_under _ _ _ Eb Hge).
      * intros p w [<- | Hp] Hw; [|now apply Hall].
        rewrite Ew in Hw. injection Hw as <-. exact Hge.
      * right. destruct Hr as [[-> [-> ->]] | [b [-> [Hb [Hwb ->]]]]].
        -- exists path. split; [reflexivity|]. split; [now left|]. now split.
        -- exists b. split; [reflexivity|]. split; [now right|]. now split.
    + destruct (IH _ _ _ _ H) as [rw [rl [Hge [Hall Hr]]]].
      exists rw, rl. split; [exact Hge|]. split.
      * intros p w [<- | Hp] Hw; [|now apply Hall].
        rewrite Ew in Hw. injection Hw as <-.
        exact (key_ltb_trans _ _ _ Eb Hge).
      * destruct Hr as [Hr | [b [-> [Hb [Hwb ->]]]]]; [now left|].
        right. exists b. split; [reflexivity|]. split; [now right|].
        now split.
Qed.

(** X27 ([solve_bubble]): on a graph without negative weights, between an
    ancestor and a descendant of the graph joined by two simple paths or
    more whose average weights are whole numbers, the call returns; the
    path it chooses is one of greatest average weight and, among those, of
    greatest length; from the graph it removes the nodes strictly inside
    every other path, and nothing else (a node of the chosen path that is
    also inside another path is removed with them). *)
Theorem solve_bubble_choice (g : DiGraph) (ancestor_node descendant_node : str)
    (paths : list (list str)) :
  (forall e, In e (edges g) -> (0 <= eweight e)%Z) ->
  has_node g descendant_node = true ->
  all_simple_paths g ancestor_node descendant_node = Ok paths ->
  2 <= length paths ->
  (forall p w, In p paths -> path_average_weight g p = Ok w -> whole w) ->
  exists best_path best_weight,
    In best_path paths /\
    path_average_weight g best_path = Ok best_weight /\
    (forall p w, In p paths -> path_average_weight g p = Ok w ->
                 (w <= best_weight)%Q /\
                 ((w == best_weight)%Q -> length p <= length best_path)) /\
    solve_bubble g ancestor_node descendant_node =
    Ret (remove_nodes_from g
           (flat_map (fun p => if path_eqb p best_path then []
                               else interior p) paths)).
Proof.
  intros Hpos Hd Ep Hlen _.
  assert (Ha : has_node g ancestor_node = true).
  { unfold all_simple_paths in Ep.
    destruct (has_node g ancestor_node); [reflexivity | discriminate]. }
  assert (Hne : ancestor_node <> descendant_node).
  { intros ->. unfold all_simple_paths, targets_of in Ep.
    rewrite Ha in Ep. injection Ep as <-. rewrite visit_target in Hlen.
    simpl in Hlen. lia. }
  assert (Hw : forall p, In p paths -> weighted g p).
  { intros p Hp. unfold all_simple_paths, targets_of in Ep.
    rewrite Ha, Hd in Ep. injection Ep as <-.
    exact (visit_weighted g _ _ _ p Hne Hp). }
  destruct (best_of_weighted g paths Hw None (-1)%Q (-1)%Z) as [r Hr].
  destruct (best_of_greatest g paths _ _ _ _ Hr)
    as [rw [rl [Hge [Hall Hbest]]]].
  destruct paths as [|p0 paths0] eqn:Hpaths; [simpl in Hlen; lia|].
  rewrite <- Hpaths in *.
  assert (Hp0 : In p0 paths) by (rewrite Hpaths; now left).
  destruct (Hw p0 Hp0) as [w0 Hw0].
  assert (Hw0pos : (inject_Z 0 <= w0)%Q).
  { apply (mean_at_least (map eweight (subgraph_edges g p0))); [|exact Hw0].
    intros y Hy. apply in_map_iff in Hy. destruct Hy as [e [<- He]].
    apply Hpos. unfold subgraph_edges in He. apply filter_In in He.
    apply He. }
  destruct Hbest as [[-> [-> ->]] | [b [-> [Hb [Hwb ->]]]]].
  - exfalso. specialize (Hall p0 w0 Hp0 Hw0). unfold key_ltb in Hall.
    cbn [fst snd] in Hall.
    destruct (Qcompare_spec (-1) w0) as [H | H | H]; try discriminate;
      unfold inject_Z in Hw0pos; lra.
  - exists b, rw. split; [exact Hb|]. split; [exact Hwb|]. split.
    + intros p w Hp Hpw. specialize (Hall p w Hp Hpw).
      unfold key_ltb in Hall. cbn [fst snd] in Hall.
      destruct (Qcompare_spec rw w) as [H | H | H]; try discriminate.
      * split; [lra|]. intros _. apply Z.ltb_ge in Hall. lia.
      * split; [lra|]. intros Heq. lra.
    + unfold solve_bubble. rewrite Ep. cbn [query].
      destruct (length paths <=? 1) eqn:El;
        [apply Nat.leb_le in El; lia|].
      rewrite Hr. cbn [query]. rewrite drop_others_eq. reflexivity.
Qed.

Lemma solve_bubble_choice_witness :
  exists best_path best_weight,
    In best_path [[py "A"; py "B"; py "E"]; [py "A"; py "C"; py "D"; py "E"]]
    /\
    path_average_weight tie_graph best_path = Ok best_weight /\
    (forall p w,
        In p [[py "A"; py "B"; py "E"]; [py "A"; py "C"; py "D"; py "E"]] ->
        path_average_weight tie_graph p = Ok w ->
        (w <= best_weight)%Q /\
        ((w == best_weight)%Q -> length p <= length best_path)) /\
    solve_bubble tie_graph (py "A") (py "E") =
    Ret (remove_nodes_from tie_graph
           (flat_map (fun p => if path_eqb p best_path then []
                               else interior p)
                     [[py "A"; py "B"; py "E"];
                      [py "A"; py "C"; py "D"; py "E"]])).
Proof.
  apply (solve_bubble_choice tie_graph (py "A") (py "E")
           [[py "A"; py "B"; py "E"]; [py "A"; py "C"; py "D"; py "E"]]).
  - intros e He. simpl in He.
    destruct He as [<- | [<- | [<- | [<- | [<- | []]]]]]; simpl; lia.
  - reflexivity.
  - reflexivity.
  - simpl. lia.
  - intros p w [<- | [<- | []]] Hw; vm_compute in Hw; injection Hw as <-;
      exists 1%Z; reflexivity.
Defined.

(** ** What a read can hold *)

Lemma lstrip_split (s : str) : exists w, s = w ++ lstrip s.
Proof.
  induction s as [|c s [w IH]]; [now exists []|]. simpl.
  destruct (isspace c); [|now exists []].
  exists (c :: w). simpl. now f_equal.
Qed.

Lemma lstrip_head (s : str) (c : ascii) :
  hd_error (lstrip s) = Some c -> isspace c = false.
Proof.
  induction s as [|x s IH]; simpl; [discriminate|].
  destruct (isspace x) eqn:E; [exact IH|].
  simpl. intros H. injection H as <-. exact E.
Qed.

Lemma strip_In (s : str) (c : ascii) : In c (strip s) -> In c s.
Proof.
  unfold strip. intros H. apply in_rev in H.
  destruct (lstrip_split (rev (lstrip s))) as [w Hw].
  assert (H1 : In c (rev (lstrip s)))
    by (rewrite Hw; apply in_or_app; now right).
  apply in_rev in H1. destruct (lstrip_split s) as [w' Hw'].
  rewrite Hw'. apply in_or_app. now right.
Qed.

Lemma strip_head (s : str) (c : ascii) :
  hd_error (strip s) = Some c -> isspace c = false.
Proof.
  unfold strip. intros H. apply (lstrip_head s).
  destruct (lstrip_split (rev (lstrip s))) as [w Hw].
  apply (f_equal (@rev ascii)) in Hw.
  rewrite rev_involutive, rev_app_distr in Hw. rewrite Hw.
  destruct (rev (lstrip (rev (lstrip s)))); [discriminate H | exact H].
Qed.

Lemma strip_last (s : str) (d : ascii) :
  strip s <> [] -> isspace (last (strip s) d) = false.
Proof.
  unfold strip. intros H.
  destruct (lstrip (rev (lstrip s))) as [|x v] eqn:E; [now elim H|].
  apply (lstrip_head (rev (lstrip s))). rewrite E.
  cbn [rev hd_error]. now rewrite last_last.
Qed.

Lemma readline_shape (text : str) :
  exists line, one_line line /\
               (fst (readline text) = line \/
                fst (readline text) = line ++ [newline]).
Proof.
  unfold one_line. induction text as [|c text [line [Hl IH]]].
  - exists []. split; [intros [] | now left].
  - simpl. destruct (ascii_dec c newline) as [-> | Hc].
    + exists []. split; [intros [] | now right].
    + destruct (readline text) as [l rest]. cbn [fst] in *.
      exists (c :: line). split.
      * intros [E | Hin]; [congruence | now apply Hl].
      * destruct IH as [-> | ->]; [now left | now right].
Qed.

Lemma strip_line (text : str) : ~ In newline (strip (fst (readline text))).
Proof.
  destruct (readline_shape text) as [line [Hl [-> | ->]]].
  - intros H. apply Hl. now apply strip_In.
  - rewrite (strip_snoc _ newline eq_refl). intros H. apply Hl.
    now apply strip_In.
Qed.

Lemma read_records_yield (fuel : nat) :
  forall text reads read,
    read_records fuel text = Some reads -> In read reads ->
    exists rest, read = strip (fst (readline rest)).
Proof.
  induction fuel as [|fuel IH]; intros text reads read; [discriminate|].
  cbn [read_records].
  destruct (readline text) as [line1 text1].
  destruct (strip line1) as [|c s]; [intros H; injection H as <-; intros []|].
  destruct (readline text1) as [line2 text2] eqn:E2.
  destruct (readline text2) as [line3 text3].
  destruct (readline text3) as [line4 text4].
  destruct (read_records fuel text4) as [reads'|] eqn:E; [|discriminate].
  cbn [option_map]. intros H. injection H as <-.
  intros [<- | Hin].
  - exists text1. now rewrite E2.
  - exact (IH text4 reads' read E Hin).
Qed.

(** X28 ([read_fastq]): whatever the file holds, a read that is yielded is
    one line of it with the white space at its two ends taken off: it holds
    no line feed, and neither starts nor ends with a white space
    character. *)
Theorem read_fastq_reads_stripped (text : str) (reads : list str)
    (read : str) :
  read_fastq text = Some reads -> In read reads ->
  ~ In newline read /\
  (forall c, hd_error read = Some c -> isspace c = false) /\
  (read <> [] -> isspace (last read newline) = false).
Proof.
  intros H Hin. unfold read_fastq in H.
  destruct (read_records_yield _ _ _ _ H Hin) as [rest ->].
  split; [apply strip_line|]. split; [apply strip_head | apply strip_last].
Qed.

Lemma read_fastq_reads_stripped_witness :
  ~ In newline (py "TCAGA") /\
  (forall c, hd_error (py "TCAGA") = Some c -> isspace c = false) /\
  (py "TCAGA" <> [] -> isspace (last (py "TCAGA") newline) = false).
Proof.
  apply (read_fastq_reads_stripped
           (py "@r1" ++ newline :: py " TCAGA " ++ newline ::
            py "+" ++ newline :: py "IIIII" ++ [newline])
           [py "TCAGA"] (py "TCAGA")).
  - reflexivity.
  - now left.
Defined.

(** ** The mean of no data is out of reach *)

(** X29 ([path_average_weight] and its callers): [path_average_weight]
    fails by the [StatisticsError] of a mean of no data on the empty path
    and on a single node that has no edge to itself, and only when no edge
    of the graph has both ends on the path.  It does not fail so on a path
    of at least two nodes that [all_simple_paths] yields, and no call of
    [simplify_bubbles], of [solve_entry_tips], or of [solve_bubble] towards
    a node of the graph, ends by that exception. *)
Theorem empty_mean_unreachable (g : DiGraph) :
  path_average_weight g [] = Err StatisticsError /\
  (forall n, path_average_weight g [n] = Err StatisticsError <->
             ~ In n (succs g n)) /\
  (forall path e, In e (edges g) -> In (esrc e) path -> In (edst e) path ->
                  path_average_weight g path <> Err StatisticsError) /\
  (forall s t paths p,
      all_simple_paths g s t = Ok paths -> In p paths -> 2 <= length p ->
      path_average_weight g p <> Err StatisticsError) /\
  (forall seed g', simplify_bubbles seed g <> Raise StatisticsError g') /\
  (forall starting_nodes g',
      solve_entry_tips g starting_nodes <> Raise StatisticsError g') /\
  (forall a d g', has_node g d = true ->
                  solve_bubble g a d <> Raise StatisticsError g').
Proof.
  split; [|split; [|split; [|split; [|split; [|split]]]]].
  - unfold path_average_weight. now rewrite subgraph_edges_nil.
  - intros n. apply path_average_weight_single.
  - intros path e Hin Ha Hb.
    destruct (path_average_weight_Ok g path e Hin Ha Hb) as [q ->].
    discriminate.
  - intros s t paths p H H0 Hlen.
    destruct (all_simple_paths_sound g s t paths p H H0) as [_ [Hl _]].
    destruct (linked_first_edge g p Hl Hlen) as [e [Hin [Ha Hb]]].
    destruct (path_average_weight_Ok g p e Hin Ha Hb) as [q ->].
    discriminate.
  - intros seed g'. apply bubbles_loop_no_empty_mean.
  - intros s g'. apply entry_tips_loop_no_empty_mean.
  - intros a d g' Hd. now apply solve_bubble_no_empty_mean.
Qed.
